(** * BiblioDrift: the shelf store and the shelf reconciliation

    A shallow embedding of the library logic of BiblioDrift's front end
    ([LibraryManager] of app.js and [BookshelfRenderer3D] of library-3d.js)
    and the properties of its shelf store and of its pull-merge.

    Modelling conventions.
    - [this.library] is the object [{current: [], want: [], finished: []}]:
      a record of three lists.  [for (const shelf in this.library)] and the
      literal [['current', 'want', 'finished']] both enumerate the keys in
      the order current, want, finished ([shelves]).
    - A book is a record of the properties the code reads or writes; the
      properties it only carries along are kept in [b_rest] / [vi_rest].
      [null], [undefined] and an absent property are all [None].
    - [localStorage['bibliodrift_library']] is [storage : option Library]
      ([None]: no item under the key).  The raw text of the item and
      [JSON.parse] are modelled apart, in [Module Json].
    - A call ends normally or by throwing ([Completion]).
    - [new Date().toISOString()] is the parameter [now].
    - Inside [syncWithBackend] books are objects with an identity: the merge
      runs on a heap of books and on arrays of references, because
      [Object.assign] updates a book through the reference that
      [localBooksMap] kept.  Everywhere else a collection is a value.
    - DOM rendering, toasts and console output are not modelled.  An [async]
      method is modelled up to its first [await], the part that runs before
      the caller gets control back; what [addBook] does to the library after
      the backend has answered is the separate step [addBook_saved].
    - A string the rendering or the sign-in code hashes, searches or matches
      is the list of its UTF-16 code units; a rating is a rational number,
      as every finite double is. *)

From Stdlib Require Import ZArith Ascii.
From stdpp Require Import gmap strings list.

Local Open Scope Z_scope.

(** ** JavaScript values *)

Inductive JsError := TypeError | SyntaxError.

Inductive Completion := Normal | Throw (e : JsError).

(** Truthiness of a number that may be absent: [undefined], [null] and [0]
    are falsy. *)
Definition truthy_num (v : option Z) : bool :=
  match v with
  | Some z => negb (z =? 0)
  | None => false
  end.

(** Truthiness of a string that may be absent: the empty string is falsy. *)
Definition truthy_str (v : option string) : bool :=
  match v with
  | Some s => negb (bool_decide (s = ""%string))
  | None => false
  end.

(** ** Data model *)

Record ImageLinks := { thumbnail : option string }.

Record VolumeInfo := {
  title : option string;
  authors : option (list string);
  imageLinks : option ImageLinks;
  vi_rest : list (string * string)
}.

(** [b_id] is the catalog identifier [id] (the spec's externalId),
    [b_db_id] the backend's [db_id] (the spec's serverId). *)
Record Book := {
  b_id : string;
  b_db_id : option Z;
  b_volumeInfo : VolumeInfo;
  b_progress : option Z;
  b_date_added : option string;
  b_rest : list (string * string)
}.

Inductive Shelf := current | want | finished.

Global Instance Shelf_eq_dec : EqDecision Shelf.
Proof. solve_decision. Defined.

Definition shelves : list Shelf := [current; want; finished].

Definition shelf_name (s : Shelf) : string :=
  match s with
  | current => "current"
  | want => "want"
  | finished => "finished"
  end.

(** The key a string denotes in [this.library], if any:
    [this.library[name]] is [undefined] for every other string. *)
Definition shelf_of_string (name : string) : option Shelf :=
  if bool_decide (name = "current"%string) then Some current
  else if bool_decide (name = "want"%string) then Some want
  else if bool_decide (name = "finished"%string) then Some finished
  else None.

(** The names an object inherits from [Object.prototype].  [this.library] is
    an object literal or the result of [JSON.parse]: under each of these
    names [this.library[name]] is a function or an object, which is truthy
    and has no [push]. *)
Definition inherited_names : list string :=
  ["constructor"; "hasOwnProperty"; "isPrototypeOf"; "propertyIsEnumerable";
   "toLocaleString"; "toString"; "valueOf"; "__proto__"; "__defineGetter__";
   "__defineSetter__"; "__lookupGetter__"; "__lookupSetter__"]%string.

Definition inherited (name : string) : bool := bool_decide (name ∈ inherited_names).

(** An object with the three shelves as keys, each holding an array. *)
Record Shelves (A : Type) := {
  lib_current : list A;
  lib_want : list A;
  lib_finished : list A
}.

Arguments lib_current {A} _.
Arguments lib_want {A} _.
Arguments lib_finished {A} _.

(** A shelf collection: the arrays hold books. *)
Abbreviation Library := (Shelves Book).

(** The default of [JSON.parse(...) || { current: [], want: [], finished: [] }]. *)
Definition empty_library : Library :=
  {| lib_current := []; lib_want := []; lib_finished := [] |}.

(** [lib[shelf]] *)
Definition get {A : Type} (lib : Shelves A) (s : Shelf) : list A :=
  match s with
  | current => lib_current lib
  | want => lib_want lib
  | finished => lib_finished lib
  end.

(** [lib[shelf] = books] *)
Definition set {A : Type} (lib : Shelves A) (s : Shelf) (books : list A) : Shelves A :=
  match s with
  | current => {| lib_current := books; lib_want := lib_want lib; lib_finished := lib_finished lib |}
  | want => {| lib_current := lib_current lib; lib_want := books; lib_finished := lib_finished lib |}
  | finished => {| lib_current := lib_current lib; lib_want := lib_want lib; lib_finished := books |}
  end.

(** [lib[shelf].push(book)] *)
Definition push {A : Type} (lib : Shelves A) (s : Shelf) (book : A) : Shelves A :=
  set lib s (get lib s ++ [book]).

(** [books.some(b => b.id === id)] *)
Definition has_id (id : string) (books : list Book) : bool :=
  existsb (λ b, bool_decide (b_id b = id)) books.

(** [books.filter(b => b.id !== id)] *)
Definition without_id (id : string) (books : list Book) : list Book :=
  filter (λ b, b_id b ≠ id) books.

(** The records of a shelf that carry a given id. *)
Definition records_with (id : string) (books : list Book) : list Book :=
  filter (λ b, b_id b = id) books.

(** The state the shelf code works on: the [library] property of the
    [LibraryManager] instance, and the item of [localStorage]. *)
Record World := {
  library : Library;
  storage : option Library
}.

Module LibraryManager.

(** [saveLocally()]:
    [localStorage.setItem(this.storageKey, JSON.stringify(this.library))] *)
Definition saveLocally (w : World) : World :=
  {| library := library w; storage := Some (library w) |}.

(** [findBook(id)] *)
Definition findBook (lib : Library) (id : string) : bool :=
  existsb (λ s, has_id id (get lib s)) shelves.

(** [findBookShelf(id)]: the first shelf, in key order, that holds the id. *)
Definition findBookShelf (lib : Library) (id : string) : option Shelf :=
  List.find (λ s, has_id id (get lib s)) shelves.

(** [findBookInShelf(id)] *)
Fixpoint findBookInShelf_from (keys : list Shelf) (lib : Library) (id : string)
  : option (Shelf * Book) :=
  match keys with
  | [] => None
  | s :: keys' =>
      match List.find (λ b, bool_decide (b_id b = id)) (get lib s) with
      | Some book => Some (s, book)
      | None => findBookInShelf_from keys' lib id
      end
  end.

Definition findBookInShelf (lib : Library) (id : string) : option (Shelf * Book) :=
  findBookInShelf_from shelves lib id.

(** [removeBook(id)], up to its [return] value.  The DELETE request that
    follows the local update is sent only when a user is signed in and the
    record has a [db_id]; it touches neither [this.library] nor the storage
    and its failure is caught. *)
Definition removeBook (id : string) (w : World) : bool * World :=
  match findBookInShelf (library w) id with
  | Some (shelf, _) =>
      (true,
       saveLocally {| library := set (library w) shelf (without_id id (get (library w) shelf));
                      storage := storage w |})
  | None => (false, w)
  end.

(** [{ ...book, progress: shelf === 'current' ? 0 : null,
       date_added: new Date().toISOString() }] *)
Definition enrichedBook (book : Book) (shelf : string) (now : string) : Book :=
  {| b_id := b_id book;
     b_db_id := b_db_id book;
     b_volumeInfo := b_volumeInfo book;
     b_progress := if bool_decide (shelf = "current"%string) then Some 0 else None;
     b_date_added := Some now;
     b_rest := b_rest book |}.

(** The check that opens [addBook]: [None] is the early [return], [Some w']
    is the state in which the body goes on to add. *)
Definition addBook_check (book : Book) (shelf : string) (w : World) : option World :=
  if findBook (library w) (b_id book) then
    match findBookShelf (library w) (b_id book) with
    | Some existingShelf =>
        if bool_decide (shelf_name existingShelf = shelf) then None
        else Some (snd (removeBook (b_id book) w))
    | None => Some w
    end
  else Some w.

(** [addBook(book, shelf)] up to the request to the backend.
    [this.library[shelf].push(...)] throws a [TypeError] when [shelf] is
    not a key of the library. *)
Definition addBook (book : Book) (shelf : string) (now : string) (w : World)
  : Completion * World :=
  match addBook_check book shelf w with
  | None => (Normal, w)
  | Some w1 =>
      match shelf_of_string shelf with
      | Some s =>
          (Normal,
           saveLocally {| library := push (library w1) s (enrichedBook book shelf now);
                          storage := storage w1 |})
      | None => (Throw TypeError, w1)
      end
  end.

(** [enrichedBook.db_id = data.item.id], the assignment that follows a
    successful answer of the backend. *)
Definition with_db_id (db_id : Z) (book : Book) : Book :=
  {| b_id := b_id book;
     b_db_id := Some db_id;
     b_volumeInfo := b_volumeInfo book;
     b_progress := b_progress book;
     b_date_added := b_date_added book;
     b_rest := b_rest book |}.

(** The end of [addBook], after the backend has answered [res.ok]: the
    object the call pushed gets the [db_id] of the answer and the library is
    saved.  The library holds that object once, or no more if it has been
    removed since: [place] is the shelf and the index where it is now. *)
Definition addBook_saved (place : option (Shelf * nat)) (db_id : Z) (w : World) : World :=
  saveLocally
    {| library :=
         match place with
         | Some (s, i) => set (library w) s (alter (with_db_id db_id) i (get (library w) s))
         | None => library w
         end;
       storage := storage w |}.

(** *** Pull-merge: [syncWithBackend] *)

(** One element of [data.library], the snapshot the backend returns. *)
Record Item := {
  item_id : Z;
  google_books_id : string;
  item_title : option string;
  item_authors : option string;
  item_thumbnail : option string;
  shelf_type : string;
  created_at : option string
}.

(** The item names one of the three shelves. *)
Definition on_a_shelf (item : Item) : Prop := is_Some (shelf_of_string (shelf_type item)).

(** [str.split(sep)] for a separator that is not empty. *)
Fixpoint split_go (sep : string) (skip : nat) (cur : string) (str : string) : list string :=
  match str with
  | EmptyString => [cur]
  | String c str' =>
      match skip with
      | S k => split_go sep k cur str'
      | O =>
          if String.prefix sep str
          then cur :: split_go sep (String.length sep - 1)%nat "" str'
          else split_go sep O (cur +:+ String c "") str'
      end
  end.

Definition split (sep : string) (str : string) : list string :=
  split_go sep O "" str.

(** The [remoteBook] built for an item; [existing_book] is [existing.book]
    when [localBooksMap.get(item.google_books_id)] is defined. *)
Definition remoteBook (now : string) (existing_book : option Book) (item : Item) : Book :=
  {| b_id := google_books_id item;
     b_db_id := Some (item_id item);
     b_volumeInfo :=
       {| title := item_title item;
          authors := Some (if truthy_str (item_authors item)
                           then split ", " (default "" (item_authors item))
                           else []);
          imageLinks := Some {| thumbnail := item_thumbnail item |};
          vi_rest := [] |};
     b_progress :=
       match existing_book with
       | Some book => b_progress book
       | None => if bool_decide (shelf_type item = "current") then Some 0 else None
       end;
     b_date_added :=
       Some (if truthy_str (created_at item) then default "" (created_at item) else now);
     b_rest := [] |}.

(** [Object.assign(target, source)] for a [source] built by [remoteBook]:
    its five properties overwrite the target's, the target keeps the rest. *)
Definition Object_assign (target source : Book) : Book :=
  {| b_id := b_id source;
     b_db_id := b_db_id source;
     b_volumeInfo := b_volumeInfo source;
     b_progress := b_progress source;
     b_date_added := b_date_added source;
     b_rest := b_rest target |}.

(** [items.forEach(f)]: the first throw ends the loop. *)
Fixpoint forEach {S A : Type} (f : S → A → Completion * S) (items : list A) (st : S)
  : Completion * S :=
  match items with
  | [] => (Normal, st)
  | item :: items' =>
      match f st item with
      | (Normal, st') => forEach f items' st'
      | (Throw e, st') => (Throw e, st')
      end
  end.

(** **** The merge on objects

    Books are objects.  The arrays of [this.library] and the values of
    [localBooksMap] hold references to them, and [Object.assign] updates a
    book through the reference the map kept.  [heap] lists the objects by
    address; a reference is an address. *)

Global Instance Book_inhabited : Inhabited Book :=
  populate {| b_id := ""; b_db_id := None;
              b_volumeInfo := {| title := None; authors := None; imageLinks := None;
                                 vi_rest := [] |};
              b_progress := None; b_date_added := None; b_rest := [] |}.

(** The object at an address. *)
Definition deref (heap : list Book) (a : nat) : Book := heap !!! a.

(** The collection a library of references denotes. *)
Definition view (heap : list Book) (refs : Shelves nat) : Library :=
  {| lib_current := deref heap <$> lib_current refs;
     lib_want := deref heap <$> lib_want refs;
     lib_finished := deref heap <$> lib_finished refs |}.

(** A collection as [JSON.parse] and the pushes of fresh objects build it,
    every book an object of its own: the objects, shelf after shelf, and the
    references to them. *)
Definition allocate (lib : Library) : list Book * Shelves nat :=
  (lib_current lib ++ lib_want lib ++ lib_finished lib,
   {| lib_current := seq 0 (length (lib_current lib));
      lib_want := seq (length (lib_current lib)) (length (lib_want lib));
      lib_finished := seq (length (lib_current lib) + length (lib_want lib))%nat
                        (length (lib_finished lib)) |}).

(** A value of [localBooksMap]: [{ book, shelf }], [book] a reference. *)
Record Existing := { e_book : nat; e_shelf : Shelf }.

(** Step 1 of the merge strategy: every local book is entered under its id,
    shelf by shelf; a later [set] of the same id replaces the earlier one. *)
Definition index_shelf (heap : list Book) (s : Shelf) (m : gmap string Existing)
    (refs : list nat) : gmap string Existing :=
  foldl (λ m a, <[b_id (deref heap a) := {| e_book := a; e_shelf := s |}]> m) m refs.

Definition localBooksMap (heap : list Book) (refs : Shelves nat) : gmap string Existing :=
  foldl (λ m s, index_shelf heap s m (get refs s)) ∅ shelves.

Record SyncState := {
  heap : list Book;
  this_library : Shelves nat;
  books_map : gmap string Existing
}.

(** The body of [data.library.forEach(item => ...)].  In the branch of a
    shelf conflict [this.library[item.shelf_type].push] throws when the
    item's shelf is not a key of the library, after the old shelf has been
    filtered.  In the branch of a new book the guard
    [if (this.library[item.shelf_type])] skips a name under which the
    library has nothing, and lets an inherited name through, on which [push]
    throws.  A pushed [remoteBook] is a new object, at the next address. *)
Definition sync_item (now : string) (st : SyncState) (item : Item)
  : Completion * SyncState :=
  let id := google_books_id item in
  let existing := books_map st !! id in
  let remote := remoteBook now ((λ e, deref (heap st) (e_book e)) <$> existing) item in
  let lib := this_library st in
  match existing with
  | Some e =>
      if bool_decide (shelf_name (e_shelf e) ≠ shelf_type item) then
        let lib1 :=
          set lib (e_shelf e)
            (filter (λ a, b_id (deref (heap st) a) ≠ id) (get lib (e_shelf e))) in
        match shelf_of_string (shelf_type item) with
        | Some s =>
            (Normal,
             {| heap := heap st ++ [remote];
                this_library := push lib1 s (length (heap st));
                books_map := delete id (books_map st) |})
        | None =>
            (Throw TypeError,
             {| heap := heap st; this_library := lib1; books_map := books_map st |})
        end
      else
        (Normal,
         {| heap := <[e_book e := Object_assign (deref (heap st) (e_book e)) remote]> (heap st);
            this_library := lib;
            books_map := delete id (books_map st) |})
  | None =>
      match shelf_of_string (shelf_type item) with
      | Some s =>
          (Normal,
           {| heap := heap st ++ [remote];
              this_library := push lib s (length (heap st));
              books_map := books_map st |})
      | None => if inherited (shelf_type item) then (Throw TypeError, st) else (Normal, st)
      end
  end.

(** Steps 1 and 2 of the merge strategy, on [this.library]. *)
Definition sync_items (now : string) (lib : Library) (remote : list Item)
  : Completion * SyncState :=
  let '(heap0, refs0) := allocate lib in
  forEach (sync_item now) remote
    {| heap := heap0; this_library := refs0; books_map := localBooksMap heap0 refs0 |}.

(** [this.library] in a state of the loop. *)
Definition library_of (st : SyncState) : Library := view (heap st) (this_library st).

(** The spec's [mergeRemoteIntoLocal]: [this.library] when the loop is left. *)
Definition mergeRemoteIntoLocal (now : string) (lib : Library) (remote : list Item) : Library :=
  library_of (snd (sync_items now lib remote)).

Record User := { user_id : Z }.

(** What [await fetch(...)] and [res.ok] give [syncWithBackend]. *)
Inductive FetchResult :=
| Rejected
| NotOk
| Ok (data_library : list Item).

(** [sortLibrary(criteria)]: every shelf of [this.library] is sorted in
    place and rendered; nothing is saved.  [sort] is what
    [Array.prototype.sort] does with the [sortFn] of the criteria, which
    compares dates and titles by means of the platform ([Date],
    [localeCompare]). *)
Definition sortLibrary (sort : list Book → list Book) (w : World) : World :=
  {| library := {| lib_current := sort (lib_current (library w));
                   lib_want := sort (lib_want (library w));
                   lib_finished := sort (lib_finished (library w)) |};
     storage := storage w |}.

(** [syncWithBackend()].  A throw inside the loop is caught: [saveLocally]
    and what follows are skipped and the storage keeps its item.  After
    [saveLocally], on a page with the shelves and the select [sortLibrary],
    the library is sorted by the criteria of the select: [sorting] is
    [Some sort] then, and [None] on a page that only renders, or has no
    shelves. *)
Definition syncWithBackend (user : option User) (res : FetchResult) (now : string)
    (sorting : option (list Book → list Book)) (w : World) : World :=
  match user with
  | None => w
  | Some _ =>
      match res with
      | Rejected | NotOk => w
      | Ok data_library =>
          match sync_items now (library w) data_library with
          | (Normal, st) =>
              let saved := saveLocally {| library := library_of st; storage := storage w |} in
              match sorting with
              | Some sort => sortLibrary sort saved
              | None => saved
              end
          | (Throw _, st) => {| library := library_of st; storage := storage w |}
          end
      end
  end.

(** **** The merge on values

    The same loop without addresses, on the collection itself; it is the
    form the properties are proved on, and [sync_items_merge] below proves
    that it computes the collection [sync_items] does.  The map holds the
    book an entry refers to.  [Object.assign] through the reference of an
    entry becomes the update of the last record of the id on the entry's
    shelf: that is where the reference points as long as the entry is in the
    map. *)

Record Indexed := { i_book : Book; i_shelf : Shelf }.

Definition index_books (s : Shelf) (m : gmap string Indexed) (books : list Book)
  : gmap string Indexed :=
  foldl (λ m book, <[b_id book := {| i_book := book; i_shelf := s |}]> m) m books.

Definition local_index (lib : Library) : gmap string Indexed :=
  foldl (λ m s, index_books s m (get lib s)) ∅ shelves.

Fixpoint assign_existing (id : string) (source : Book) (books : list Book) : list Book :=
  match books with
  | [] => []
  | b :: books' =>
      if has_id id books' then b :: assign_existing id source books'
      else if bool_decide (b_id b = id) then Object_assign b source :: books'
      else b :: books'
  end.

Record MergeState := {
  m_library : Library;
  m_map : gmap string Indexed
}.

Definition merge_item (now : string) (st : MergeState) (item : Item)
  : Completion * MergeState :=
  let id := google_books_id item in
  let existing := m_map st !! id in
  let remote := remoteBook now (i_book <$> existing) item in
  let lib := m_library st in
  match existing with
  | Some e =>
      if bool_decide (shelf_name (i_shelf e) ≠ shelf_type item) then
        let lib1 := set lib (i_shelf e) (without_id id (get lib (i_shelf e))) in
        match shelf_of_string (shelf_type item) with
        | Some s =>
            (Normal, {| m_library := push lib1 s remote; m_map := delete id (m_map st) |})
        | None =>
            (Throw TypeError, {| m_library := lib1; m_map := m_map st |})
        end
      else
        (Normal,
         {| m_library := set lib (i_shelf e) (assign_existing id remote (get lib (i_shelf e)));
            m_map := delete id (m_map st) |})
  | None =>
      match shelf_of_string (shelf_type item) with
      | Some s => (Normal, {| m_library := push lib s remote; m_map := m_map st |})
      | None => if inherited (shelf_type item) then (Throw TypeError, st) else (Normal, st)
      end
  end.

Definition merge (now : string) (lib : Library) (remote : list Item)
  : Completion * MergeState :=
  forEach (merge_item now) remote {| m_library := lib; m_map := local_index lib |}.

(** *** Push-sync: [syncLocalToBackend] *)

(** [{ ...book, shelf: shelf }] *)
Record SyncItem := { si_book : Book; si_shelf : string }.

(** The list [itemsToSync]: the books whose [db_id] is falsy, shelf by shelf. *)
Definition itemsToSync (lib : Library) : list SyncItem :=
  s ← shelves;
  (λ book, {| si_book := book; si_shelf := shelf_name s |})
    <$> filter (λ book, truthy_num (b_db_id book) = false) (get lib s).

(** The [items] of the request [syncLocalToBackend(user)] posts; [None] when
    it returns without a request. *)
Definition syncLocalToBackend (user : option User) (w : World) : option (list SyncItem) :=
  match user with
  | None => None
  | Some _ =>
      match itemsToSync (library w) with
      | [] => None
      | items => Some items
      end
  end.

End LibraryManager.

Module BookshelfRenderer3D.

(** [moveBook(bookId, fromShelf, toShelf)].  It works on the stored item,
    not on the [LibraryManager] instance:
    [JSON.parse(localStorage.getItem(storageKey)) || {}] with the missing
    shelves created empty.  When the book is not on the source shelf it
    logs to the console and returns.  Its callers pass shelf names taken
    from the three shelf containers, hence the type of the shelves. *)
Definition moveBook (bookId : string) (fromShelf toShelf : Shelf) (w : World)
  : Completion * World :=
  if bool_decide (fromShelf = toShelf) then (Normal, w)
  else
    let localLibrary := default empty_library (storage w) in
    match list_find (λ b, b_id b = bookId) (get localLibrary fromShelf) with
    | None => (Normal, w)
    | Some (bookIndex, book) =>
        let removed := set localLibrary fromShelf (delete bookIndex (get localLibrary fromShelf)) in
        (Normal, {| library := library w; storage := Some (push removed toShelf book) |})
    end.

End BookshelfRenderer3D.

(** ** Sequences of shelf operations *)

Inductive Op :=
| Add (book : Book) (shelf : string) (now : string)
| AddSaved (place : option (Shelf * nat)) (db_id : Z)
| Move (bookId : string) (fromShelf toShelf : Shelf).

Definition step (w : World) (op : Op) : World :=
  match op with
  | Add book shelf now => snd (LibraryManager.addBook book shelf now w)
  | AddSaved place db_id => LibraryManager.addBook_saved place db_id w
  | Move bookId fromShelf toShelf => snd (BookshelfRenderer3D.moveBook bookId fromShelf toShelf w)
  end.

Definition run (ops : list Op) (w : World) : World := foldl step w ops.

(** All the ids of a collection, shelf after shelf. *)
Definition ids (lib : Library) : list string :=
  b_id <$> (lib_current lib ++ lib_want lib ++ lib_finished lib).

(** Each id appears at most once in the whole collection. *)
Definition unique_ids (lib : Library) : Prop := NoDup (ids lib).

(** Each id appears on at most one shelf (cross-shelf uniqueness). *)
Definition one_shelf (lib : Library) : Prop :=
  ∀ id s1 s2, has_id id (get lib s1) = true → has_id id (get lib s2) = true → s1 = s2.

(** A property of collections, of the instance's library and of the stored one. *)
Definition everywhere (P : Library → Prop) (w : World) : Prop :=
  P (library w) ∧ ∀ lib, storage w = Some lib → P lib.

(** The records of an id are routed to shelf [t]: that shelf has exactly one,
    with the given [db_id], and the other shelves have none. *)
Definition routed_to (lib : Library) (id : string) (t : Shelf) (db_id : Z) : Prop :=
  (∃ b, records_with id (get lib t) = [b] ∧ b_db_id b = Some db_id)
  ∧ ∀ s, s ≠ t → records_with id (get lib s) = [].



(** The spec's reading of [move] on a record absent from the source shelf:
    the call fails. *)
Definition move_is_rejected (bookId : string) (fromShelf toShelf : Shelf) (w : World) : Prop :=
  ∃ e, fst (BookshelfRenderer3D.moveBook bookId fromShelf toShelf w) = Throw e.


(** The spec's reading of [remove] on an id that is on a shelf: one record
    of the id leaves one shelf and nothing else changes. *)
Definition removes_exactly_one (id : string) (w : World) : Prop :=
  ∃ s l1 b l2,
    get (library w) s = l1 ++ b :: l2
    ∧ b_id b = id
    ∧ get (library (snd (LibraryManager.removeBook id w))) s = l1 ++ l2
    ∧ ∀ s', s' ≠ s →
        get (library (snd (LibraryManager.removeBook id w))) s' = get (library w) s'.

(** ** The states of the two merges that correspond *)

(** Every reference of the library is an address of the heap. *)
Definition refs_valid (heap : list Book) (refs : Shelves nat) : Prop :=
  ∀ s a, a ∈ get refs s → (a < length heap)%nat.

(** No object is twice in the library. *)
Definition refs_distinct (refs : Shelves nat) : Prop :=
  (∀ s, NoDup (get refs s)) ∧ ∀ a s1 s2, a ∈ get refs s1 → a ∈ get refs s2 → s1 = s2.

(** An entry of the map of references and the entry of the map of books: the
    book is the object referred to, it has the id, and it is the last object
    of that id on the entry's shelf. *)
Definition entry_ok (heap : list Book) (refs : Shelves nat) (id : string)
    (e : LibraryManager.Existing) (p : LibraryManager.Indexed) : Prop :=
  p = {| LibraryManager.i_book := LibraryManager.deref heap (LibraryManager.e_book e);
         LibraryManager.i_shelf := LibraryManager.e_shelf e |}
  ∧ b_id (LibraryManager.deref heap (LibraryManager.e_book e)) = id
  ∧ ∃ pre post,
      get refs (LibraryManager.e_shelf e) = pre ++ LibraryManager.e_book e :: post
      ∧ Forall (λ a, b_id (LibraryManager.deref heap a) ≠ id) post.

Definition maps_agree (heap : list Book) (refs : Shelves nat)
    (hm : gmap string LibraryManager.Existing) (pm : gmap string LibraryManager.Indexed)
  : Prop :=
  ∀ id, match hm !! id with
        | Some e => ∃ p, pm !! id = Some p ∧ entry_ok heap refs id e p
        | None => pm !! id = None
        end.

Definition sim (h : LibraryManager.SyncState) (p : LibraryManager.MergeState) : Prop :=
  LibraryManager.library_of h = LibraryManager.m_library p
  ∧ refs_valid (LibraryManager.heap h) (LibraryManager.this_library h)
  ∧ refs_distinct (LibraryManager.this_library h)
  ∧ maps_agree (LibraryManager.heap h) (LibraryManager.this_library h)
      (LibraryManager.books_map h) (LibraryManager.m_map p).

(** ** The stored text and [JSON.parse]

    [JSON.parse] as a one-pass pushdown recognizer of the JSON grammar
    (ECMA-404): it reads the text one character at a time, with the open
    arrays and objects on a stack.  Strings are lists of code units. *)

Module Json.

(** A number literal denotes [mantissa * 10 ^ exponent], negated when [neg]. *)
Record Number := { neg : bool; mantissa : N; exponent : Z }.

#[local] Set Warnings "-register-all".

Inductive Value :=
| JNull
| JBool (b : bool)
| JNumber (n : Number)
| JString (s : list N)
| JArray (elements : list Value)
| JObject (members : list (list N * Value)).

Inductive Frame :=
| FArray (elements : list Value)
| FObject (members : list (list N * Value)) (key : list N).

Inductive NumPhase :=
| NMinus | NZero | NInt | NDot | NFrac | NExp | NExpSign | NExpDigits.

Record NumAcc := {
  n_neg : bool;
  n_mantissa : N;
  n_fraction : N;
  n_exp_neg : bool;
  n_exp : N
}.

Inductive Mode :=
| BeforeValue (first : bool)
| BeforeKey (first : bool)
| BeforeColon (key : list N)
| AfterValue
| Done (v : Value)
| InString (is_key : bool) (acc : list N)
| InEscape (is_key : bool) (acc : list N)
| InUnicode (is_key : bool) (acc : list N) (todo : nat) (u : N)
| InLiteral (rest : list N) (v : Value)
| InNumber (phase : NumPhase) (acc : NumAcc)
| Failed.

Definition State : Type := Mode * list Frame.

Definition code (c : ascii) : N := N_of_ascii c.

Definition units (s : string) : list N := code <$> String.list_ascii_of_string s.

Definition quote : N := 34.
Definition backslash : N := 92.

Definition is_ws (c : N) : bool :=
  (c =? 32)%N || (c =? 9)%N || (c =? 10)%N || (c =? 13)%N.

Definition digit (c : N) : option N :=
  if ((code "0" <=? c) && (c <=? code "9"))%N then Some (c - code "0")%N else None.

Definition hex (c : N) : option N :=
  if ((code "0" <=? c) && (c <=? code "9"))%N then Some (c - code "0")%N
  else if ((code "a" <=? c) && (c <=? code "f"))%N then Some (c - code "a" + 10)%N
  else if ((code "A" <=? c) && (c <=? code "F"))%N then Some (c - code "A" + 10)%N
  else None.

Definition number_of (a : NumAcc) : Number :=
  {| neg := n_neg a;
     mantissa := n_mantissa a;
     exponent := (if n_exp_neg a then - Z.of_N (n_exp a) else Z.of_N (n_exp a))
                 - Z.of_N (n_fraction a) |}.

Definition acc0 (negative : bool) (d : N) : NumAcc :=
  {| n_neg := negative; n_mantissa := d; n_fraction := 0; n_exp_neg := false; n_exp := 0 |}.

Definition add_int (a : NumAcc) (d : N) : NumAcc :=
  {| n_neg := n_neg a; n_mantissa := (n_mantissa a * 10 + d)%N; n_fraction := n_fraction a;
     n_exp_neg := n_exp_neg a; n_exp := n_exp a |}.

Definition add_frac (a : NumAcc) (d : N) : NumAcc :=
  {| n_neg := n_neg a; n_mantissa := (n_mantissa a * 10 + d)%N;
     n_fraction := (n_fraction a + 1)%N;
     n_exp_neg := n_exp_neg a; n_exp := n_exp a |}.

Definition add_exp (a : NumAcc) (d : N) : NumAcc :=
  {| n_neg := n_neg a; n_mantissa := n_mantissa a; n_fraction := n_fraction a;
     n_exp_neg := n_exp_neg a; n_exp := (n_exp a * 10 + d)%N |}.

Definition set_exp_neg (a : NumAcc) : NumAcc :=
  {| n_neg := n_neg a; n_mantissa := n_mantissa a; n_fraction := n_fraction a;
     n_exp_neg := true; n_exp := n_exp a |}.

(** The phases in which the characters read so far are a whole number. *)
Definition accepting (ph : NumPhase) : bool :=
  match ph with
  | NZero | NInt | NFrac | NExpDigits => true
  | NMinus | NDot | NExp | NExpSign => false
  end.

Definition is_e (c : N) : bool := (c =? code "e")%N || (c =? code "E")%N.

(** One more character of a number; [None] when it cannot belong to it. *)
Definition num_step (ph : NumPhase) (a : NumAcc) (c : N) : option (NumPhase * NumAcc) :=
  match ph with
  | NMinus =>
      match digit c with
      | Some d => Some (if (d =? 0)%N then NZero else NInt, add_int a d)
      | None => None
      end
  | NZero =>
      if (c =? code ".")%N then Some (NDot, a)
      else if is_e c then Some (NExp, a)
      else None
  | NInt =>
      match digit c with
      | Some d => Some (NInt, add_int a d)
      | None =>
          if (c =? code ".")%N then Some (NDot, a)
          else if is_e c then Some (NExp, a)
          else None
      end
  | NDot =>
      match digit c with
      | Some d => Some (NFrac, add_frac a d)
      | None => None
      end
  | NFrac =>
      match digit c with
      | Some d => Some (NFrac, add_frac a d)
      | None => if is_e c then Some (NExp, a) else None
      end
  | NExp =>
      match digit c with
      | Some d => Some (NExpDigits, add_exp a d)
      | None =>
          if (c =? code "+")%N then Some (NExpSign, a)
          else if (c =? code "-")%N then Some (NExpSign, set_exp_neg a)
          else None
      end
  | NExpSign | NExpDigits =>
      match digit c with
      | Some d => Some (NExpDigits, add_exp a d)
      | None => None
      end
  end.

(** A value is complete: it is the result, or it joins the open container. *)
Definition complete (v : Value) (stack : list Frame) : State :=
  match stack with
  | [] => (Done v, [])
  | FArray elements :: stack' => (AfterValue, FArray (v :: elements) :: stack')
  | FObject members key :: stack' => (AfterValue, FObject ((key, v) :: members) [] :: stack')
  end.

Definition close_array (stack : list Frame) : State :=
  match stack with
  | FArray elements :: stack' => complete (JArray (rev elements)) stack'
  | _ => (Failed, stack)
  end.

Definition close_object (stack : list Frame) : State :=
  match stack with
  | FObject members _ :: stack' => complete (JObject (rev members)) stack'
  | _ => (Failed, stack)
  end.

(** The first character of a value. *)
Definition start_value (c : N) (stack : list Frame) : State :=
  if (c =? code "{")%N then (BeforeKey true, FObject [] [] :: stack)
  else if (c =? code "[")%N then (BeforeValue true, FArray [] :: stack)
  else if (c =? quote)%N then (InString false [], stack)
  else if (c =? code "-")%N then (InNumber NMinus (acc0 true 0), stack)
  else if (c =? code "t")%N then (InLiteral (units "rue") (JBool true), stack)
  else if (c =? code "f")%N then (InLiteral (units "alse") (JBool false), stack)
  else if (c =? code "n")%N then (InLiteral (units "ull") JNull, stack)
  else
    match digit c with
    | Some d => (InNumber (if (d =? 0)%N then NZero else NInt) (acc0 false d), stack)
    | None => (Failed, stack)
    end.

(** A character after a complete value. *)
Definition after (c : N) (st : State) : State :=
  let '(mode, stack) := st in
  match mode with
  | Done v => if is_ws c then st else (Failed, stack)
  | AfterValue =>
      if is_ws c then st
      else
        match stack with
        | FArray _ :: _ =>
            if (c =? code ",")%N then (BeforeValue false, stack)
            else if (c =? code "]")%N then close_array stack
            else (Failed, stack)
        | FObject _ _ :: _ =>
            if (c =? code ",")%N then (BeforeKey false, stack)
            else if (c =? code "}")%N then close_object stack
            else (Failed, stack)
        | [] => (Failed, stack)
        end
  | _ => (Failed, stack)
  end.

Definition unescape (c : N) : option N :=
  if (c =? quote)%N then Some quote
  else if (c =? backslash)%N then Some backslash
  else if (c =? code "/")%N then Some (code "/")
  else if (c =? code "b")%N then Some 8%N
  else if (c =? code "f")%N then Some 12%N
  else if (c =? code "n")%N then Some 10%N
  else if (c =? code "r")%N then Some 13%N
  else if (c =? code "t")%N then Some 9%N
  else None.

Definition step (st : State) (c : N) : State :=
  let '(mode, stack) := st in
  match mode with
  | BeforeValue first =>
      if is_ws c then st
      else if first && (c =? code "]")%N then close_array stack
      else start_value c stack
  | BeforeKey first =>
      if is_ws c then st
      else if (c =? quote)%N then (InString true [], stack)
      else if first && (c =? code "}")%N then close_object stack
      else (Failed, stack)
  | BeforeColon key =>
      if is_ws c then st
      else if (c =? code ":")%N then
        match stack with
        | FObject members _ :: stack' => (BeforeValue false, FObject members key :: stack')
        | _ => (Failed, stack)
        end
      else (Failed, stack)
  | AfterValue | Done _ => after c st
  | InString is_key acc =>
      if (c =? quote)%N then
        if is_key then (BeforeColon (rev acc), stack) else complete (JString (rev acc)) stack
      else if (c =? backslash)%N then (InEscape is_key acc, stack)
      else if (c <? 32)%N then (Failed, stack)
      else (InString is_key (c :: acc), stack)
  | InEscape is_key acc =>
      if (c =? code "u")%N then (InUnicode is_key acc 4 0, stack)
      else
        match unescape c with
        | Some u => (InString is_key (u :: acc), stack)
        | None => (Failed, stack)
        end
  | InUnicode is_key acc todo u =>
      match hex c with
      | Some h =>
          match todo with
          | S (S todo') => (InUnicode is_key acc (S todo') (u * 16 + h)%N, stack)
          | _ => (InString is_key ((u * 16 + h)%N :: acc), stack)
          end
      | None => (Failed, stack)
      end
  | InLiteral rest v =>
      match rest with
      | r :: rest' =>
          if (c =? r)%N then
            match rest' with
            | [] => complete v stack
            | _ => (InLiteral rest' v, stack)
            end
          else (Failed, stack)
      | [] => (Failed, stack)
      end
  | InNumber phase acc =>
      match num_step phase acc c with
      | Some (phase', acc') => (InNumber phase' acc', stack)
      | None =>
          if accepting phase then after c (complete (JNumber (number_of acc)) stack)
          else (Failed, stack)
      end
  | Failed => st
  end.

(** The end of the text. *)
Definition finish (st : State) : option Value :=
  match st with
  | (Done v, _) => Some v
  | (InNumber phase acc, []) =>
      if accepting phase then Some (JNumber (number_of acc)) else None
  | _ => None
  end.

(** [JSON.parse(text)]: [None] is the [SyntaxError]. *)
Definition JSON_parse (text : string) : option Value :=
  finish (foldl step (BeforeValue false, []) (units text)).

(** A number literal is read as the nearest double, to even on a tie: it is
    [0] when its mantissa is, and when its value is at most [2 ^ -1075]. *)
Definition is_zero (n : Number) : bool :=
  (mantissa n =? 0)%N
  || ((exponent n <? 0) && (Z.of_N (mantissa n) * 2 ^ 1075 <=? 10 ^ (- exponent n))).

(** The values [||] passes over. *)
Definition truthy (v : Value) : bool :=
  match v with
  | JNull => false
  | JBool b => b
  | JNumber n => negb (is_zero n)
  | JString s => match s with [] => false | _ => true end
  | JArray _ | JObject _ => true
  end.

(** [{ current: [], want: [], finished: [] }] *)
Definition default_collection : Value :=
  JObject [(units "current", JArray []); (units "want", JArray []);
           (units "finished", JArray [])].

(** How an expression ends: with a value, or by throwing. *)
Inductive Outcome :=
| Returns (v : Value)
| Throws (e : JsError).

(** [JSON.parse(localStorage.getItem(storageKey)) || { current: [], want: [],
    finished: [] }], the expression that loads the collection in the
    constructor of [LibraryManager] and in [BookshelfRenderer3D.renderShelf].
    [item] is what [getItem] returns, [None] for [null]; [JSON.parse]
    converts its argument to a string, so [null] is read as the text null. *)
Definition load (item : option string) : Outcome :=
  match JSON_parse (default "null" item) with
  | Some v => Returns (if truthy v then v else default_collection)
  | None => Throws SyntaxError
  end.

End Json.
(** ** Sample data *)

Definition sample_book (id : string) (db_id progress : option Z) : Book :=
  {| b_id := id;
     b_db_id := db_id;
     b_volumeInfo :=
       {| title := Some "Dune"; authors := Some ["Frank Herbert"]; imageLinks := None;
          vi_rest := [("description", "A desert planet.")] |};
     b_progress := progress;
     b_date_added := Some "2026-01-01T00:00:00.000Z";
     b_rest := [("kind", "books#volume")] |}.

Definition sample_item (id : string) (db_id : Z) (shelf : string) : LibraryManager.Item :=
  {| LibraryManager.item_id := db_id;
     LibraryManager.google_books_id := id;
     LibraryManager.item_title := Some "Dune";
     LibraryManager.item_authors := Some "Frank Herbert, Brian Herbert";
     LibraryManager.item_thumbnail := None;
     LibraryManager.shelf_type := shelf;
     LibraryManager.created_at := Some "2026-02-02T00:00:00.000Z" |}.

(** A world whose instance and storage hold the same collection. *)
Definition world_of (lib : Library) : World := {| library := lib; storage := Some lib |}.

(** One unsynced record [b1] on the want shelf. *)
Definition b1_on_want : Library :=
  {| lib_current := []; lib_want := [sample_book "b1" None None]; lib_finished := [] |}.

(** Two records of the same id on the want shelf. *)
Definition b1_twice_on_want : Library :=
  {| lib_current := [];
     lib_want := [sample_book "b1" None None; sample_book "b1" (Some 3) None];
     lib_finished := [] |}.

(** [b1] on the current shelf, 40% read, unsynced (scenario B). *)
Definition b1_reading : Library :=
  {| lib_current := [sample_book "b1" None (Some 40)]; lib_want := []; lib_finished := [] |}.

(** Two records of [b1] on the current shelf, 40% and 50% read. *)
Definition b1_reading_twice : Library :=
  {| lib_current := [sample_book "b1" None (Some 40); sample_book "b1" None (Some 50)];
     lib_want := [];
     lib_finished := [] |}.


(** A snapshot with two records of [b1], on two shelves. *)
Definition b1_twice_remote : list LibraryManager.Item :=
  [sample_item "b1" 7 "want"; sample_item "b1" 8 "current"].

(** A record of [b1] on the want shelf and another on the finished shelf. *)
Definition b1_on_two_shelves : Library :=
  {| lib_current := [];
     lib_want := [sample_book "b1" None None];
     lib_finished := [sample_book "b1" (Some 3) None] |}.


From Stdlib Require QArith Qround Lqa.

(** ** Collections as a whole *)

(** The place of a shelf in the order of the keys. *)
Definition position (s : Shelf) : nat :=
  match s with
  | current => 0
  | want => 1
  | finished => 2
  end.

(** The books of a collection, shelf after shelf. *)
Definition books_of (lib : Library) : list Book :=
  lib_current lib ++ lib_want lib ++ lib_finished lib.

(** The collection the stored item holds, as the 3D shelves read it: the
    empty collection when there is no item. *)
Definition in_storage (w : World) : Library := default empty_library (storage w).

(** A shelf without the first record of an id: [findIndex] and
    [splice(index, 1)] when the index is not [-1]. *)
Definition remove_first (bookId : string) (books : list Book) : list Book :=
  match list_find (λ b, b_id b = bookId) books with
  | Some (index, _) => delete index books
  | None => books
  end.

(** ** Numbers and strings of the rendering code

    A string the rendering code hashes or searches is the list of its UTF-16
    code units ([charCodeAt]).  A 32-bit integer is a [Z] with the
    wrap-around written out. *)

(** [ToInt32]: the value modulo [2 ^ 32], read as a signed 32-bit integer. *)
Definition ToInt32 (z : Z) : Z := (z + 2 ^ 31) mod 2 ^ 32 - 2 ^ 31.

(** [x << n] *)
Definition shl (x n : Z) : Z := ToInt32 (Z.shiftl (ToInt32 x) n).

(** [x | y] *)
Definition bor (x y : Z) : Z := Z.lor (ToInt32 x) (ToInt32 y).

(** [x & y] *)
Definition band (x y : Z) : Z := Z.land (ToInt32 x) (ToInt32 y).

(** [array[i]] for a number [i] that is an integer: [undefined] out of range. *)
Definition at_index {A : Type} (array : list A) (i : Z) : option A :=
  if i <? 0 then None else array !! Z.to_nat i.

(** The code units of a literal of the source (ASCII). *)
Definition literal (s : string) : list Z := Z.of_N <$> Json.units s.

(** [text.includes(needle)] *)
Fixpoint includes (text needle : list Z) : bool :=
  if bool_decide (needle `prefix_of` text) then true
  else match text with
       | [] => false
       | _ :: text' => includes text' needle
       end.

(** [parts.join(sep)] *)
Fixpoint join (sep : list Z) (parts : list (list Z)) : list Z :=
  match parts with
  | [] => []
  | [part] => part
  | part :: parts' => part ++ sep ++ join sep parts'
  end.

(** The polynomial hash [s[0] * 31 ^ (n - 1) + ... + s[n - 1]], on
    unbounded integers. *)
Definition polynomial_hash (text : list Z) : Z := foldl (λ h c, 31 * h + c) 0 text.

(** ** The book cards: [BookRenderer] (app.js) *)

Module BookRenderer.

(** The handler of the heart button of a card, in [createBookElement]:
    [if (findBook(id)) removeBook(id) else addBook(bookData, shelf || 'want')].
    [shelf] is the parameter of [createBookElement], [null] by default. *)
Definition toggle (bookData : Book) (shelf : option string) (now : string) (w : World)
  : Completion * World :=
  if LibraryManager.findBook (library w) (b_id bookData)
  then (Normal, snd (LibraryManager.removeBook (b_id bookData) w))
  else LibraryManager.addBook bookData
         (if truthy_str shelf then default "want"%string shelf else "want"%string) now w.

(** The generic fallbacks of [generateVibe]. *)
Definition vibes : list string :=
  ["Perfect for a rainy afternoon.";
   "A quiet companion for coffee.";
   "Intense and thought-provoking.";
   "Will make you laugh and cry.";
   "Best devoured in one sitting.";
   "Prepare to be surprised."]%string.

(** The loop [hash = ((hash << 5) - hash) + text.charCodeAt(i); hash |= 0]. *)
Definition hash_of (text : list Z) : Z :=
  foldl (λ hash c, bor (shl hash 5 - hash + c) 0) 0 text.

Section generateVibe.

(** [String.prototype.toLowerCase], a function of the platform. *)
Variable toLowerCase : list Z → list Z.

(** [generateVibe(text, categories)]; [None] is [undefined]. *)
Definition generateVibe (text : list Z) (categories : list (list Z)) : option string :=
  let lowerText := toLowerCase text in
  let lowerCats := toLowerCase (join (literal " ") categories) in
  if includes lowerCats (literal "classic") || includes lowerText (literal "classic")
  then Some "A timeless tale that defined a genre."%string
  else if includes lowerCats (literal "romance") || includes lowerText (literal "love")
  then Some "A heartwarming story of connection."%string
  else if includes lowerCats (literal "mystery") || includes lowerText (literal "murder")
          || includes lowerText (literal "detective")
  then Some "Full of twists that keep you guessing."%string
  else if includes lowerCats (literal "fantasy") || includes lowerText (literal "magic")
  then Some "A magical escape to another world."%string
  else if includes lowerCats (literal "fiction") || includes lowerText (literal "novel")
  then Some "A compelling narrative voice."%string
  else if includes lowerCats (literal "history") || includes lowerText (literal "war")
  then Some "A journey into the past."%string
  else if includes lowerCats (literal "science") || includes lowerText (literal "space")
  then Some "Opens your mind to new possibilities."%string
  else at_index vibes (Z.rem (Z.abs (hash_of text)) (Z.of_nat (length vibes))).

End generateVibe.

(** Lower case for the letters A to Z; the other code units are kept. *)
Definition ascii_lower (text : list Z) : list Z :=
  (λ c, if (65 <=? c) && (c <=? 90) then c + 32 else c) <$> text.

End BookRenderer.

(** ** The 3D shelves: the other methods of [BookshelfRenderer3D] (library-3d.js)

    Like [moveBook] they work on the stored item, not on the
    [LibraryManager] instance: [JSON.parse(localStorage.getItem(storageKey))]
    with the missing shelves read as empty. *)

Module Library3D.

Import QArith_base Qround.
Local Open Scope Z_scope.

(** A book as the 3D shelves show it, with the properties [addToLibrary]
    reads; [f_categories] is the array as it is stored. *)
Record FlatBook := {
  f_id : string;
  f_title : string;
  f_author : string;
  f_cover : string;
  f_description : string;
  f_categories : string
}.

(** The record [addToLibrary] pushes:
    [{ id, volumeInfo: { title, authors: [author], imageLinks: { thumbnail: cover },
       description, categories } }] *)
Definition new_record (book : FlatBook) : Book :=
  {| b_id := f_id book;
     b_db_id := None;
     b_volumeInfo :=
       {| title := Some (f_title book);
          authors := Some [f_author book];
          imageLinks := Some {| thumbnail := Some (f_cover book) |};
          vi_rest := [("description", f_description book);
                      ("categories", f_categories book)]%string |};
     b_progress := None;
     b_date_added := None;
     b_rest := [] |}.

(** [addToLibrary(book)]: [Object.values(library).flat()] lists the books
    of all the shelves. *)
Definition addToLibrary (book : FlatBook) (w : World) : World :=
  let lib := default empty_library (storage w) in
  let exists_ := has_id (f_id book) (lib_current lib ++ lib_want lib ++ lib_finished lib) in
  if exists_ then w
  else {| library := library w; storage := Some (push lib want (new_record book)) |}.

(** One round of the loop of [removeBook]: [findIndex] and [splice(index, 1)]
    on one shelf. *)
Definition remove_from (bookId : string) (st : Library * bool) (shelf : Shelf)
  : Library * bool :=
  match list_find (λ b, b_id b = bookId) (get st.1 shelf) with
  | Some (index, _) => (set st.1 shelf (delete index (get st.1 shelf)), true)
  | None => st
  end.

(** [removeBook(bookId)]: the item is written only when a record was removed. *)
Definition removeBook (bookId : string) (w : World) : World :=
  let localLibrary := default empty_library (storage w) in
  let st := foldl (remove_from bookId) (localLibrary, false) shelves in
  if st.2 then {| library := library w; storage := Some st.1 |} else w.

(** The shelf [openModal] shows as the book's: ['current'] by default, and
    the last shelf of the stored collection that holds the id. *)
Definition currentShelf (bookId : string) (w : World) : Shelf :=
  let localLibrary := default empty_library (storage w) in
  foldl (λ currentShelf shelf,
           match List.find (λ b, bool_decide (b_id b = bookId)) (get localLibrary shelf) with
           | Some _ => shelf
           | None => currentShelf
           end) current shelves.

(** The state of an open modal: the world and the variable [currentShelf] of
    the closure. *)
Record Modal := { m_world : World; m_currentShelf : Shelf }.

(** [openModal(book)], the part that finds the shelf. *)
Definition openModal (bookId : string) (w : World) : Modal :=
  {| m_world := w; m_currentShelf := currentShelf bookId w |}.

(** The [change] handler of the shelf selector:
    [this.moveBook(book.id, currentShelf, newShelf); currentShelf = newShelf]. *)
Definition select (bookId : string) (m : Modal) (newShelf : Shelf) : Modal :=
  {| m_world := snd (BookshelfRenderer3D.moveBook bookId (m_currentShelf m) newShelf (m_world m));
     m_currentShelf := newShelf |}.

(** [_hashString(str)]; the empty string is falsy. *)
Definition _hashString (str : list Z) : Z :=
  match str with
  | [] => 0
  | _ => Z.abs (foldl (λ hash char, let hash := shl hash 5 - hash + char in band hash hash) 0 str)
  end.

(** The code units of the three symbols of a rating. *)
Definition black_star : Z := 9733.
Definition white_star : Z := 9734.
Definition one_half : Z := 189.

(** How [getStarRating] ends. *)
Inductive Rating :=
| RangeError
| Text (s : list Z).

(** [s.repeat(count)] for an integer [count]: a negative count is a
    [RangeError] ([None]). *)
Definition repeat (s : list Z) (count : Z) : option (list Z) :=
  if count <? 0 then None else Some (concat (replicate (Z.to_nat count) s)).

(** [rating % 1]: the remainder has the sign of the dividend. *)
Definition rem1 (rating : Q) : Q :=
  if Qle_bool 0 rating then (rating - inject_Z (Qfloor rating))%Q
  else (rating - inject_Z (Qceiling rating))%Q.

(** [getStarRating(rating)] for a rating that is a finite number. *)
Definition getStarRating (rating : Q) : Rating :=
  let fullStars := Qfloor rating in
  let hasHalf := Qle_bool (1 # 2) (rem1 rating) in
  let emptyStars := 5 - fullStars - (if hasHalf then 1 else 0) in
  match repeat [black_star] fullStars with
  | None => RangeError
  | Some full =>
      match repeat [white_star] emptyStars with
      | None => RangeError
      | Some empty => Text (full ++ (if hasHalf then [one_half] else []) ++ empty)
      end
  end.

End Library3D.

(** ** Signing in: [handleAuth] (app.js)

    A regular expression is matched the way ECMAScript defines it, by
    matchers that take the rest of the input and a continuation; a
    quantifier is greedy.  [fuel] bounds the rounds of a quantifier: every
    round of the expressions used here reads a code unit, so the length of
    the input, plus one, is enough. *)

Module Auth.

Inductive Regex :=
| Class (member : Z → bool)
| Seq (r1 r2 : Regex)
| Plus (r : Regex).

Fixpoint matcher (r : Regex) : nat → list Z → (list Z → bool) → bool :=
  match r with
  | Class member =>
      λ _ input k,
        match input with
        | c :: rest => member c && k rest
        | [] => false
        end
  | Seq r1 r2 => λ fuel input k, matcher r1 fuel input (λ rest, matcher r2 fuel rest k)
  | Plus r' =>
      fix rounds (fuel : nat) (input : list Z) (k : list Z → bool) : bool :=
        match fuel with
        | O => false
        | S fuel' => matcher r' fuel input (λ rest, rounds fuel' rest k || k rest)
        end
  end.

(** [/^r$/.test(input)] *)
Definition test (r : Regex) (input : list Z) : bool :=
  matcher r (S (length input)) input (λ rest, match rest with [] => true | _ => false end).

(** The class [\s]: white space and line terminators. *)
Definition is_space (c : Z) : bool :=
  ((9 <=? c) && (c <=? 13)) || (c =? 32) || (c =? 160) || (c =? 5760)
  || ((8192 <=? c) && (c <=? 8202)) || (c =? 8232) || (c =? 8233) || (c =? 8239)
  || (c =? 8287) || (c =? 12288) || (c =? 65279).

Definition at_sign : Z := 64.
Definition dot : Z := 46.

(** The class [[^\s@]] *)
Definition plain (c : Z) : bool := negb (is_space c || (c =? at_sign)).

(** [/^[^\s@]+@[^\s@]+\.[^\s@]+$/] *)
Definition emailRegex : Regex :=
  Seq (Plus (Class plain))
    (Seq (Class (λ c, c =? at_sign))
       (Seq (Plus (Class plain))
          (Seq (Class (λ c, c =? dot))
             (Plus (Class plain))))).

(** [input.split(sep)] for a separator of one code unit. *)
Fixpoint split_go (sep : Z) (cur : list Z) (input : list Z) : list (list Z) :=
  match input with
  | [] => [cur]
  | c :: rest => if c =? sep then cur :: split_go sep [] rest else split_go sep (cur ++ [c]) rest
  end.

Definition split (sep : Z) (input : list Z) : list (list Z) := split_go sep [] input.

(** The request [handleAuth] posts: the endpoint and the payload. *)
Record Request := {
  endpoint : string;
  username : list Z;
  email : option (list Z);
  password : list Z
}.

(** [handleAuth(event)] up to the request; [None] when it returns without
    one.  [mode] is [form.dataset.mode], [usernameInput] the value of the
    element [username] when the page has one. *)
Definition handleAuth (mode : option string) (email_value password_value : list Z)
    (usernameInput : option (list Z)) : option Request :=
  let mode := if truthy_str mode then default "login"%string mode else "login"%string in
  if negb (test emailRegex email_value) then None
  else if bool_decide (mode = "register"%string) then
    Some {| endpoint := "/api/v1/register";
            username := match usernameInput with
                        | Some value => value
                        | None => default [] (head (split at_sign email_value))
                        end;
            email := Some email_value;
            password := password_value |}
  else
    Some {| endpoint := "/api/v1/login";
            username := email_value;
            email := None;
            password := password_value |}.

(** The addresses the check lets through: a local part, [@], a domain
    with a [.] inside, all of code units that are neither white space nor
    [@]. *)
Definition well_formed (input : list Z) : Prop :=
  ∃ a b c, input = a ++ at_sign :: b ++ dot :: c
           ∧ a ≠ [] ∧ b ≠ [] ∧ c ≠ []
           ∧ Forall (λ x, plain x = true) a
           ∧ Forall (λ x, plain x = true) b
           ∧ Forall (λ x, plain x = true) c.

End Auth.

(** ** What [addBook] sends to the backend *)

Module Backend.

(** The body of the POST request of [addBook]. *)
Record Payload := {
  p_user_id : Z;
  p_google_books_id : string;
  p_title : option string;
  p_authors : string;
  p_thumbnail : option string;
  p_shelf_type : string
}.

(** [payload] in [addBook]; [None] when no user is signed in and nothing is
    sent.  [authors.join(", ")] is [String.concat]. *)
Definition payload (user : option LibraryManager.User) (book : Book) (shelf : string)
  : option Payload :=
  match user with
  | None => None
  | Some user =>
      Some {| p_user_id := LibraryManager.user_id user;
              p_google_books_id := b_id book;
              p_title := title (b_volumeInfo book);
              p_authors := match authors (b_volumeInfo book) with
                           | Some names => String.concat ", " names
                           | None => ""
                           end;
              p_thumbnail := match imageLinks (b_volumeInfo book) with
                             | Some links => thumbnail links
                             | None => Some ""%string
                             end;
              p_shelf_type := shelf |}
  end.

(** An item of a snapshot gives back what a payload said. *)
Definition echoes (item : LibraryManager.Item) (p : Payload) : Prop :=
  LibraryManager.google_books_id item = p_google_books_id p
  ∧ LibraryManager.item_title item = p_title p
  ∧ LibraryManager.item_authors item = Some (p_authors p)
  ∧ LibraryManager.item_thumbnail item = p_thumbnail p
  ∧ LibraryManager.shelf_type item = p_shelf_type p.

(** A name holds the separator of the authors. *)
Definition contains_sep (name : string) : Prop :=
  ∃ pre post, name = pre +:+ ", " +:+ post.

(** [name.includes(", ")] *)
Fixpoint has_sep (name : string) : bool :=
  match name with
  | EmptyString => false
  | String _ rest => String.prefix ", " name || has_sep rest
  end.

End Backend.

(** ** Invariants of the merge loop *)

(** In a state of the loop, with the items [rest] still to come: the ids
    are unique, an entry of the map names a shelf that holds its id, and an
    item to come that has no entry has its id on no shelf. *)
Definition merge_unique (st : LibraryManager.MergeState) (rest : list LibraryManager.Item)
  : Prop :=
  unique_ids (LibraryManager.m_library st)
  ∧ (∀ id e, LibraryManager.m_map st !! id = Some e →
       has_id id (get (LibraryManager.m_library st) (LibraryManager.i_shelf e)) = true)
  ∧ (∀ item, item ∈ rest →
       LibraryManager.m_map st !! LibraryManager.google_books_id item = None →
       LibraryManager.findBook (LibraryManager.m_library st)
         (LibraryManager.google_books_id item) = false).

(** In a state of the loop, with the items [rest] still to come: a record
    whose [db_id] is falsy is the only record of its id on its shelf, the
    map has an entry for it with that shelf, and an item to come has its
    id. *)
Definition merge_pending (st : LibraryManager.MergeState) (rest : list LibraryManager.Item)
  : Prop :=
  ∀ s b, b ∈ get (LibraryManager.m_library st) s → truthy_num (b_db_id b) = false →
    records_with (b_id b) (get (LibraryManager.m_library st) s) = [b]
    ∧ (∃ e, LibraryManager.m_map st !! b_id b = Some e ∧ LibraryManager.i_shelf e = s)
    ∧ ∃ item, item ∈ rest ∧ LibraryManager.google_books_id item = b_id b.

(** A record carries what the merge at time [now] takes from an item: the
    id, the [db_id], the volume information and the date. *)
Definition merged_from (now : string) (item : LibraryManager.Item) (m : Book) : Prop :=
  b_id m = LibraryManager.google_books_id item
  ∧ b_db_id m = Some (LibraryManager.item_id item)
  ∧ b_volumeInfo m = b_volumeInfo (LibraryManager.remoteBook now None item)
  ∧ b_date_added m = b_date_added (LibraryManager.remoteBook now None item).

(** [b1] unsynced on the want shelf and [b2], synced as 5, on the current
    shelf. *)
Definition b1_unsynced_b2_synced : Library :=
  {| lib_current := [sample_book "b2" (Some 5) (Some 10)];
     lib_want := [sample_book "b1" None None];
     lib_finished := [] |}.

(** ** More sample data *)

(** A book of the 3D shelves. *)
Definition sample_flat (id : string) : Library3D.FlatBook :=
  {| Library3D.f_id := id;
     Library3D.f_title := "Dune";
     Library3D.f_author := "Frank Herbert";
     Library3D.f_cover := "";
     Library3D.f_description := "A desert planet.";
     Library3D.f_categories := "[]" |}.

(** [b1] on the want shelf and [b2] on the current shelf, each once. *)
Definition b1_want_b2_current : Library :=
  {| lib_current := [sample_book "b2" None None];
     lib_want := [sample_book "b1" None None];
     lib_finished := [] |}.

(** * Properties *)

Import LibraryManager BookshelfRenderer3D.

(** ** Shelves and ids *)

Lemma get_set {A} (lib : Shelves A) s books : get (set lib s books) s = books.
Proof. by destruct s. Qed.

Lemma get_set_ne {A} (lib : Shelves A) s s' books : s' ≠ s → get (set lib s books) s' = get lib s'.
Proof. by destruct s, s'. Qed.

Lemma get_push {A} (lib : Shelves A) s book : get (push lib s book) s = get lib s ++ [book].
Proof. apply get_set. Qed.

Lemma get_push_ne {A} (lib : Shelves A) s s' book : s' ≠ s → get (push lib s book) s' = get lib s'.
Proof. apply get_set_ne. Qed.

Lemma shelf_of_string_name shelf s : shelf_of_string shelf = Some s ↔ shelf_name s = shelf.
Proof.
  unfold shelf_of_string. split.
  - repeat case_bool_decide; intros [= <-]; by subst.
  - intros <-. by destruct s.
Qed.

Lemma has_id_true id books : has_id id books = true ↔ ∃ b, b ∈ books ∧ b_id b = id.
Proof.
  unfold has_id. rewrite existsb_exists. split; intros (b & Hb & Hid); exists b.
  - apply bool_decide_eq_true in Hid. by rewrite list_elem_of_In.
  - rewrite bool_decide_eq_true. by rewrite <- list_elem_of_In.
Qed.

Lemma has_id_false id books : has_id id books = false ↔ ∀ b, b ∈ books → b_id b ≠ id.
Proof.
  rewrite <- not_true_iff_false, has_id_true. split.
  - intros H b Hb Hid. apply H. eauto.
  - intros H (b & Hb & Hid). by apply (H b).
Qed.

Lemma has_id_app id l k : has_id id (l ++ k) = has_id id l || has_id id k.
Proof. apply existsb_app. Qed.

Lemma has_id_without id id' books :
  has_id id (without_id id' books) = true ↔ id ≠ id' ∧ has_id id books = true.
Proof.
  rewrite !has_id_true. unfold without_id. split.
  - intros (b & Hb & <-). apply list_elem_of_filter in Hb as [? ?]. eauto.
  - intros (? & b & Hb & <-). exists b. split; [|done]. by apply list_elem_of_filter.
Qed.

Lemma without_id_absent id books : has_id id books = false → without_id id books = books.
Proof.
  rewrite has_id_false. intros H. unfold without_id.
  induction books as [|b books IH]; [done|].
  rewrite filter_cons_True by (apply H; left).
  f_equal. apply IH. intros b' Hb'. apply H. by right.
Qed.

Lemma without_id_single id l1 b l2 :
  b_id b = id → has_id id l1 = false → has_id id l2 = false →
  without_id id (l1 ++ b :: l2) = l1 ++ l2.
Proof.
  intros Hb H1 H2. unfold without_id.
  rewrite filter_app, filter_cons_False by tauto.
  fold (without_id id l1) (without_id id l2).
  by rewrite !without_id_absent.
Qed.

(** ** The lookups of [LibraryManager] *)

Lemma find_has_id id books :
  has_id id books =
    match List.find (λ b, bool_decide (b_id b = id)) books with Some _ => true | None => false end.
Proof.
  induction books as [|b books IH]; [done|]. simpl.
  destruct (bool_decide (b_id b = id)); [done|apply IH].
Qed.

Lemma findBook_true lib id : findBook lib id = true ↔ ∃ s, has_id id (get lib s) = true.
Proof.
  unfold findBook. simpl. rewrite !orb_true_iff. split.
  - intros [?|[?|[?|?]]]; [by exists current|by exists want|by exists finished|done].
  - intros [[] ?]; tauto.
Qed.

Lemma findBook_false lib id : findBook lib id = false ↔ ∀ s, has_id id (get lib s) = false.
Proof.
  rewrite <- not_true_iff_false, findBook_true. split.
  - intros H s. apply not_true_iff_false. eauto.
  - intros H [s Hs]. by rewrite H in Hs.
Qed.

Lemma findBookShelf_Some lib id s :
  findBookShelf lib id = Some s → has_id id (get lib s) = true.
Proof. intros H. by apply find_some in H as [_ ?]. Qed.

Lemma findBookShelf_None lib id : findBookShelf lib id = None ↔ findBook lib id = false.
Proof.
  unfold findBookShelf, findBook. simpl.
  destruct (has_id id (lib_current lib)), (has_id id (lib_want lib)),
    (has_id id (lib_finished lib)); simpl; split; congruence.
Qed.

Lemma findBookShelf_one_shelf lib id s :
  one_shelf lib → has_id id (get lib s) = true → findBookShelf lib id = Some s.
Proof.
  intros Hone Hs. destruct (findBookShelf lib id) as [s'|] eqn:Hf.
  - f_equal. apply (Hone id); [by apply findBookShelf_Some|done].
  - apply findBookShelf_None in Hf. rewrite findBook_false in Hf. by rewrite Hf in Hs.
Qed.

Lemma findBookInShelf_shelf lib id : fst <$> findBookInShelf lib id = findBookShelf lib id.
Proof.
  unfold findBookInShelf, findBookShelf. simpl.
  rewrite !find_has_id.
  destruct (List.find _ (lib_current lib)); [done|].
  destruct (List.find _ (lib_want lib)); [done|].
  by destruct (List.find _ (lib_finished lib)).
Qed.

(** What [removeBook] does, in terms of the shelf [findBookShelf] names. *)
Lemma removeBook_found id w s :
  findBookShelf (library w) id = Some s →
  removeBook id w =
    (true, {| library := set (library w) s (without_id id (get (library w) s));
              storage := Some (set (library w) s (without_id id (get (library w) s))) |}).
Proof.
  intros Hs. unfold removeBook. rewrite <- findBookInShelf_shelf in Hs.
  destruct (findBookInShelf (library w) id) as [[s' b]|]; [|done].
  by injection Hs as ->.
Qed.

Lemma removeBook_absent id w : findBook (library w) id = false → removeBook id w = (false, w).
Proof.
  intros H. apply findBookShelf_None in H. unfold removeBook.
  rewrite <- findBookInShelf_shelf in H.
  by destruct (findBookInShelf (library w) id).
Qed.

(** ** Removing a book *)

(** C10, counterexample. With two records of [b1] on the want shelf,
    [removeBook] takes both away, not one: no single record of the shelf
    accounts for what is left.  With a record of [b1] on want and another on
    finished it empties want, returns [true], and [b1] is still in the
    collection. *)
Lemma removeBook_all_records_counterexample :
  has_id "b1" (get b1_twice_on_want want) = true
  ∧ removeBook "b1" (world_of b1_twice_on_want) = (true, world_of empty_library)
  ∧ ¬ removes_exactly_one "b1" (world_of b1_twice_on_want)
  ∧ fst (removeBook "b1" (world_of b1_on_two_shelves)) = true
  ∧ findBook (library (snd (removeBook "b1" (world_of b1_on_two_shelves)))) "b1" = true.
Proof.
  split; [done|]. split; [done|]. split; [|by split].
  intros (s & l1 & b & l2 & Hshelf & _ & Hafter & _).
  assert (length (l1 ++ b :: l2) = S (length (l1 ++ l2))) as Hlen.
  { rewrite !length_app. simpl. lia. }
  rewrite <- Hshelf, <- Hafter in Hlen. by destruct s.
Qed.

(** C10, amended. [removeBook(id)] with an id present on some shelf works on
    the first shelf, in key order, that holds the id: it removes every
    record of the id from that shelf (exactly that record when the shelf
    holds the id once), leaves the other records and the other shelves as
    they were, writes the result through to the storage and returns [true];
    the id is on no shelf afterwards when the collection kept it on one
    shelf.  With an id on no shelf it returns [false] and changes neither
    the shelves nor the storage. *)
Theorem removeBook_removes_or_reports (id : string) (w : World) :
  ((∃ s0, has_id id (get (library w) s0) = true) →
     ∃ s, findBookShelf (library w) id = Some s ∧
          has_id id (get (library w) s) = true ∧
          fst (removeBook id w) = true ∧
          get (library (snd (removeBook id w))) s = without_id id (get (library w) s) ∧
          (∀ l1 b l2, get (library w) s = l1 ++ b :: l2 → b_id b = id →
             has_id id l1 = false → has_id id l2 = false →
             get (library (snd (removeBook id w))) s = l1 ++ l2) ∧
          (∀ s', s' ≠ s → get (library (snd (removeBook id w))) s' = get (library w) s') ∧
          storage (snd (removeBook id w)) = Some (library (snd (removeBook id w))) ∧
          (one_shelf (library w) →
           findBook (library (snd (removeBook id w))) id = false))
  ∧ ((∀ s0, has_id id (get (library w) s0) = false) → removeBook id w = (false, w)).
Proof.
  split.
  - intros Hex. apply findBook_true in Hex.
    destruct (findBookShelf (library w) id) as [s|] eqn:Hs.
    + exists s. split; [done|]. apply findBookShelf_Some in Hs as Hhas.
      rewrite (removeBook_found _ _ _ Hs). simpl.
      split; [done|]. split; [done|]. rewrite get_set.
      split; [done|]. split; [|split; [|split; [done|]]].
      * intros l1 b l2 -> ? ? ?. by apply without_id_single.
      * intros s' ?. by apply get_set_ne.
      * intros Hone. apply findBook_false. intros s'. apply not_true_iff_false.
        destruct (decide (s' = s)) as [->|Hne].
        -- rewrite get_set, has_id_without. tauto.
        -- rewrite get_set_ne by done. intros Hs'. by apply Hne, (Hone id).
    + apply findBookShelf_None in Hs. congruence.
  - intros H. apply removeBook_absent. by apply findBook_false.
Qed.

Lemma removeBook_removes_or_reports_witness :
  fst (removeBook "b1" (world_of b1_on_want)) = true
  ∧ findBook (library (snd (removeBook "b1" (world_of b1_on_want)))) "b1" = false
  ∧ removeBook "b2" (world_of b1_on_want) = (false, world_of b1_on_want).
Proof.
  destruct (removeBook_removes_or_reports "b1" (world_of b1_on_want)) as [Hfound _].
  destruct (removeBook_removes_or_reports "b2" (world_of b1_on_want)) as [_ Habsent].
  destruct Hfound as (s & _ & _ & Hret & _ & _ & _ & _ & Hgone); [by exists want|].
  split; [exact Hret|]. split.
  - apply Hgone. intros id [] []; simpl; congruence.
  - apply Habsent. by intros [].
Defined.

(** ** Adding a book *)




(** ** Moving a book *)

(** C7, counterexample. No record of [b2] is on the want shelf; moving it from
    want to finished ends normally and changes nothing. *)
Lemma moveBook_absent_counterexample :
  has_id "b2" (get b1_on_want want) = false
  ∧ moveBook "b2" want finished (world_of b1_on_want) = (Normal, world_of b1_on_want)
  ∧ ¬ move_is_rejected "b2" want finished (world_of b1_on_want).
Proof.
  split; [done|]. split; [done|].
  intros [e He]. vm_compute in He. discriminate He.
Qed.

Lemma list_find_id_None (bookId : string) (books : list Book) :
  has_id bookId books = false → list_find (λ b, b_id b = bookId) books = None.
Proof.
  rewrite has_id_false. intros H. apply list_find_None, Forall_forall. exact H.
Qed.

(** C7, amended. [moveBook(bookId, fromShelf, toShelf)] is a no-op when the
    two shelves are the same; when the stored collection has no record of the
    id on [fromShelf] it raises nothing: it ends normally and leaves the
    storage and the instance unchanged. *)
Theorem moveBook_noop_or_silent (bookId : string) (fromShelf toShelf : Shelf) (w : World) :
  (fromShelf = toShelf → moveBook bookId fromShelf toShelf w = (Normal, w))
  ∧ (has_id bookId (get (default empty_library (storage w)) fromShelf) = false →
       moveBook bookId fromShelf toShelf w = (Normal, w)).
Proof.
  unfold moveBook. split.
  - intros ->. by rewrite bool_decide_eq_true_2.
  - intros H. case_bool_decide; [done|]. by rewrite list_find_id_None.
Qed.

Lemma moveBook_noop_or_silent_witness :
  moveBook "b1" want want (world_of b1_on_want) = (Normal, world_of b1_on_want)
  ∧ moveBook "b2" want finished (world_of b1_on_want) = (Normal, world_of b1_on_want).
Proof.
  destruct (moveBook_noop_or_silent "b1" want want (world_of b1_on_want)) as [Hsame _].
  destruct (moveBook_noop_or_silent "b2" want finished (world_of b1_on_want)) as [_ Habsent].
  split; [apply Hsame; reflexivity|apply Habsent; reflexivity].
Defined.

(** ** Uniqueness of ids under add and move *)

Lemma has_id_elem id books : has_id id books = true ↔ id ∈ b_id <$> books.
Proof.
  rewrite has_id_true, list_elem_of_fmap. split.
  - intros (b & ? & <-). eauto.
  - intros (b & -> & ?). eauto.
Qed.

(** Unique ids: no shelf repeats an id, and no two shelves share one. *)
Lemma unique_ids_split lib :
  unique_ids lib ↔ (∀ s, NoDup (b_id <$> get lib s)) ∧ one_shelf lib.
Proof.
  unfold unique_ids, ids, one_shelf. rewrite !fmap_app, !NoDup_app. split.
  - intros (Hc & Hcx & Hw & Hwx & Hf). split; [by intros []|].
    intros id s1 s2. rewrite !has_id_elem.
    destruct s1, s2; simpl; intros H1 H2; try reflexivity; exfalso.
    + apply (Hcx id H1), elem_of_app. by left.
    + apply (Hcx id H1), elem_of_app. by right.
    + apply (Hcx id H2), elem_of_app. by left.
    + exact (Hwx id H1 H2).
    + apply (Hcx id H2), elem_of_app. by right.
    + exact (Hwx id H2 H1).
  - intros [Hnd Hone].
    assert (∀ id s1 s2, s1 ≠ s2 → id ∈ b_id <$> get lib s1 → id ∉ b_id <$> get lib s2) as Hx.
    { intros id s1 s2 Hne H1 H2. apply Hne, (Hone id); by apply has_id_elem. }
    split; [apply (Hnd current)|]. split.
    + intros id Hid. apply not_elem_of_app. split.
      * by apply (Hx id current want).
      * by apply (Hx id current finished).
    + split; [apply (Hnd want)|]. split; [|apply (Hnd finished)].
      intros id Hid. by apply (Hx id want finished).
Qed.

Lemma unique_ids_one_shelf lib : unique_ids lib → one_shelf lib.
Proof. intros H. by apply unique_ids_split in H as [_ ?]. Qed.

(** Taking records away keeps the ids unique. *)
Lemma unique_ids_sublist lib lib' :
  (∀ s, get lib' s `sublist_of` get lib s) → unique_ids lib → unique_ids lib'.
Proof.
  intros Hsub. rewrite !unique_ids_split. intros [Hnd Hone]. split.
  - intros s. eapply sublist_NoDup; [apply Hnd|by apply fmap_sublist].
  - intros id s1 s2. rewrite !has_id_elem. intros H1 H2.
    apply (Hone id); apply has_id_elem.
    + eapply elem_of_sublist; [exact H1|]. by apply fmap_sublist.
    + eapply elem_of_sublist; [exact H2|]. by apply fmap_sublist.
Qed.

Lemma set_sublist {A} (lib : Shelves A) s books :
  books `sublist_of` get lib s → ∀ s', get (set lib s books) s' `sublist_of` get lib s'.
Proof.
  intros Hsub s'. destruct (decide (s' = s)) as [->|Hne].
  - by rewrite get_set.
  - by rewrite get_set_ne.
Qed.

(** Appending a record whose id is on no shelf keeps the ids unique. *)
Lemma unique_ids_push lib s book :
  unique_ids lib → findBook lib (b_id book) = false → unique_ids (push lib s book).
Proof.
  rewrite findBook_false, !unique_ids_split. intros [Hnd Hone] Hnew.
  assert (∀ s', b_id book ∉ b_id <$> get lib s') as Hnotin.
  { intros s'. rewrite <- has_id_elem. by rewrite Hnew. }
  split.
  - intros s'. destruct (decide (s' = s)) as [->|Hne].
    + rewrite get_push, fmap_app. apply NoDup_app. split; [apply Hnd|]. split.
      * intros id Hid. simpl. rewrite list_elem_of_singleton. intros ->. by apply (Hnotin s).
      * apply NoDup_singleton.
    + rewrite get_push_ne by done. apply Hnd.
  - assert (∀ id s', has_id id (get (push lib s book) s') = true →
              has_id id (get lib s') = true ∨ (id = b_id book ∧ s' = s)) as Hcases.
    { intros id s'. destruct (decide (s' = s)) as [->|Hne].
      - rewrite get_push, has_id_app, orb_true_iff. simpl. rewrite orb_false_r.
        intros [?|Hb]; [by left|right]. by apply bool_decide_eq_true in Hb.
      - rewrite get_push_ne by done. by left. }
    intros id s1 s2 H1 H2.
    apply Hcases in H1 as [H1|[-> ->]], H2 as [H2|[Hid ->]].
    + by apply (Hone id).
    + subst id. by rewrite Hnew in H1.
    + by rewrite Hnew in H2.
    + done.
Qed.

(** After [removeBook] the id is on no shelf, when it was on one shelf only. *)
Lemma findBook_after_without lib id s :
  one_shelf lib → has_id id (get lib s) = true →
  findBook (set lib s (without_id id (get lib s))) id = false.
Proof.
  intros Hone Hs. apply findBook_false. intros s'. apply not_true_iff_false.
  destruct (decide (s' = s)) as [->|Hne].
  - rewrite get_set, has_id_without. tauto.
  - rewrite get_set_ne by done. intros Hs'. by apply Hne, (Hone id).
Qed.

(** The record a shelf holds at an index is, by id, nowhere else on a shelf
    without repeated ids. *)
Lemma has_id_delete books i book :
  NoDup (b_id <$> books) → books !! i = Some book → has_id (b_id book) (delete i books) = false.
Proof.
  intros Hnd Hi. apply not_true_iff_false. rewrite has_id_elem.
  rewrite <- (take_drop_middle _ _ _ Hi) in Hnd.
  rewrite fmap_app, fmap_cons in Hnd.
  apply NoDup_app in Hnd as (_ & Hl & Hr). apply NoDup_cons in Hr as [Hr _].
  rewrite delete_take_drop, fmap_app, elem_of_app. intros [H|H].
  - apply (Hl _ H). by left.
  - by apply Hr.
Qed.

Lemma addBook_unique book shelf now w :
  everywhere unique_ids w → everywhere unique_ids (snd (addBook book shelf now w)).
Proof.
  intros [Hlib Hsto]. unfold addBook, addBook_check.
  assert (∀ lib, unique_ids lib → everywhere unique_ids {| library := lib; storage := Some lib |})
    as Hsaved.
  { intros lib H. split; [done|]. by intros ? [= <-]. }
  destruct (findBook (library w) (b_id book)) eqn:Hfb.
  - destruct (findBookShelf (library w) (b_id book)) as [es|] eqn:Hes.
    2:{ apply findBookShelf_None in Hes. congruence. }
    case_bool_decide; [done|].
    rewrite (removeBook_found _ _ _ Hes). simpl.
    assert (unique_ids (set (library w) es (without_id (b_id book) (get (library w) es))))
      as Hremoved.
    { eapply unique_ids_sublist; [|exact Hlib]. apply set_sublist, sublist_filter. }
    destruct (shelf_of_string shelf) as [t|]; simpl.
    + apply Hsaved, unique_ids_push; [done|].
      apply findBook_after_without; [by apply unique_ids_one_shelf|by apply findBookShelf_Some].
    + by apply Hsaved.
  - destruct (shelf_of_string shelf) as [t|]; simpl; [|done].
    by apply Hsaved, unique_ids_push.
Qed.

Lemma moveBook_unique bookId fromShelf toShelf w :
  everywhere unique_ids w → everywhere unique_ids (snd (moveBook bookId fromShelf toShelf w)).
Proof.
  intros [Hlib Hsto]. unfold moveBook. case_bool_decide as Hne; [done|].
  set (stored := default empty_library (storage w)).
  assert (unique_ids stored) as Hstored.
  { unfold stored. destruct (storage w) as [lib|]; simpl; [by apply Hsto|].
    apply NoDup_nil_2. }
  destruct (list_find _ _) as [[i book]|] eqn:Hfind; [|done].
  simpl. split; [done|]. intros ? [= <-].
  apply list_find_Some in Hfind as (Hi & _ & _).
  apply unique_ids_split in Hstored as Hparts. destruct Hparts as [Hnd Hone].
  apply unique_ids_push.
  - eapply unique_ids_sublist; [|exact Hstored]. apply set_sublist, sublist_delete.
  - apply findBook_false. intros s'. destruct (decide (s' = fromShelf)) as [->|Hs'].
    + rewrite get_set. by apply has_id_delete.
    + rewrite get_set_ne by done. apply not_true_iff_false. intros H.
      apply Hs', (Hone (b_id book)); [done|].
      apply has_id_true. exists book. split; [|done]. by eapply list_elem_of_lookup_2.
Qed.

Lemma addBook_saved_unique place db_id w :
  everywhere unique_ids w → everywhere unique_ids (addBook_saved place db_id w).
Proof.
  intros [Hlib _]. unfold addBook_saved, saveLocally. simpl.
  assert (∀ lib, unique_ids lib → everywhere unique_ids {| library := lib; storage := Some lib |})
    as Hsaved.
  { intros lib H. split; [done|]. by intros ? [= <-]. }
  apply Hsaved. destruct place as [[s i]|]; [|done].
  apply unique_ids_split in Hlib as [Hnd Hone].
  assert (∀ s', b_id <$> get (set (library w) s (alter (with_db_id db_id) i (get (library w) s))) s'
                = b_id <$> get (library w) s') as Hids.
  { intros s'. destruct (decide (s' = s)) as [->|Hne].
    - rewrite get_set.
      rewrite (list_fmap_alter b_id (with_db_id db_id) id) by by apply Forall_true.
      by apply list_alter_id.
    - by rewrite get_set_ne. }
  apply unique_ids_split. split.
  - intros s'. rewrite Hids. apply Hnd.
  - intros x s1 s2. rewrite !has_id_elem, !Hids, <- !has_id_elem. apply Hone.
Qed.

Lemma run_unique ops w : everywhere unique_ids w → everywhere unique_ids (run ops w).
Proof.
  revert w. induction ops as [|op ops IH]; intros w Hw; [done|].
  apply IH. destruct op;
    [by apply addBook_unique|by apply addBook_saved_unique|by apply moveBook_unique].
Qed.

(** C6, counterexample. A collection with two records of [b1] on the want
    shelf keeps every id on one shelf; after moving [b1] from want to
    finished the stored collection has [b1] on both shelves. *)
Lemma move_breaks_one_shelf_counterexample :
  everywhere one_shelf (world_of b1_twice_on_want)
  ∧ has_id "b1" (get (default empty_library
                        (storage (run [Move "b1" want finished] (world_of b1_twice_on_want))))
                   want) = true
  ∧ has_id "b1" (get (default empty_library
                        (storage (run [Move "b1" want finished] (world_of b1_twice_on_want))))
                   finished) = true
  ∧ ¬ everywhere one_shelf (run [Move "b1" want finished] (world_of b1_twice_on_want)).
Proof.
  assert (one_shelf b1_twice_on_want) as Hone.
  { intros id [] []; simpl; congruence. }
  split; [|split; [done|split; [done|]]].
  - split; [done|]. by intros ? [= <-].
  - intros [_ H]. specialize (H _ eq_refl "b1" want finished eq_refl eq_refl). discriminate H.
Qed.

(** C6, amended. Starting from a state where each id appears at most once in
    the whole collection (in the instance's library and in the stored one),
    after every operation of a sequence of [addBook] calls, with their
    endings [addBook_saved], and [moveBook] calls, each id still appears at
    most once, hence on at most one of the three shelves. *)
Theorem add_move_keep_ids_unique (ops : list Op) (w : World) :
  everywhere unique_ids w →
  ∀ n, everywhere unique_ids (run (take n ops) w)
       ∧ everywhere one_shelf (run (take n ops) w).
Proof.
  intros Hw n. pose proof (run_unique (take n ops) w Hw) as [Hlib Hsto].
  split; [done|]. split.
  - by apply unique_ids_one_shelf.
  - intros lib Hl. by apply unique_ids_one_shelf, Hsto.
Qed.

Lemma add_move_keep_ids_unique_witness :
  everywhere one_shelf
    (run [Add (sample_book "b2" None None) "current" "now";
          Move "b1" want finished;
          AddSaved (Some (current, 0%nat)) 12;
          Add (sample_book "b1" None None) "current" "later"]
       (world_of b1_on_want)).
Proof.
  refine (proj2 (add_move_keep_ids_unique
                   [Add (sample_book "b2" None None) "current" "now";
                    Move "b1" want finished;
                    AddSaved (Some (current, 0%nat)) 12;
                    Add (sample_book "b1" None None) "current" "later"]
                   (world_of b1_on_want) _ 4%nat)).
  assert (unique_ids b1_on_want) as Hu.
  { apply NoDup_singleton. }
  split; [exact Hu|]. intros lib Hl. injection Hl as <-. exact Hu.
Defined.

(** ** The merge on objects and the merge on values *)

Lemma get_view heap refs s : get (view heap refs) s = deref heap <$> get refs s.
Proof. by destruct s. Qed.

Lemma view_set heap refs s rs :
  view heap (set refs s rs) = set (view heap refs) s (deref heap <$> rs).
Proof. by destruct s. Qed.

Lemma deref_app_l heap b a : (a < length heap)%nat → deref (heap ++ [b]) a = deref heap a.
Proof. intros. by apply lookup_total_app_l. Qed.

Lemma deref_app_new heap b : deref (heap ++ [b]) (length heap) = b.
Proof. unfold deref. by rewrite list_lookup_total_middle. Qed.

Lemma deref_insert_ne heap a a' v : a ≠ a' → deref (<[a:=v]> heap) a' = deref heap a'.
Proof. intros. by apply list_lookup_total_insert_ne. Qed.

Lemma deref_insert_eq heap a v : (a < length heap)%nat → deref (<[a:=v]> heap) a = v.
Proof. intros. by apply list_lookup_total_insert_eq. Qed.

Lemma fmap_deref_ext heap heap' (rs : list nat) :
  (∀ a, a ∈ rs → deref heap' a = deref heap a) → deref heap' <$> rs = deref heap <$> rs.
Proof.
  intros H. apply list_fmap_ext. intros i a Ha. apply H. by eapply list_elem_of_lookup_2.
Qed.

Lemma fmap_deref_filter heap id (rs : list nat) :
  deref heap <$> filter (λ a, b_id (deref heap a) ≠ id) rs = without_id id (deref heap <$> rs).
Proof.
  unfold without_id. induction rs as [|a rs IH]; [done|].
  rewrite fmap_cons, !filter_cons. destruct (decide (b_id (deref heap a) ≠ id)).
  - by rewrite fmap_cons, IH.
  - done.
Qed.

Lemma fmap_deref_filter_eq heap id (rs : list nat) :
  deref heap <$> filter (λ a, b_id (deref heap a) = id) rs = records_with id (deref heap <$> rs).
Proof.
  unfold records_with. induction rs as [|a rs IH]; [done|].
  rewrite fmap_cons, !filter_cons. destruct (decide (b_id (deref heap a) = id)).
  - by rewrite fmap_cons, IH.
  - done.
Qed.

Lemma assign_existing_middle id source pre b post :
  b_id b = id → Forall (λ b', b_id b' ≠ id) post →
  assign_existing id source (pre ++ b :: post) = pre ++ Object_assign b source :: post.
Proof.
  intros Hb Hpost. assert (has_id id post = false) as Hno.
  { apply has_id_false. by apply Forall_forall. }
  induction pre as [|p pre IH]; simpl.
  - by rewrite Hno, bool_decide_eq_true_2.
  - rewrite has_id_app. simpl. rewrite (bool_decide_eq_true_2 _ Hb), orb_true_r. simpl.
    by rewrite IH.
Qed.

Lemma last_filter_split {A} (P : A → Prop) `{!∀ x, Decision (P x)} (l : list A) a :
  last (filter P l) = Some a →
  P a ∧ ∃ pre post, l = pre ++ a :: post ∧ Forall (λ x, ¬ P x) post.
Proof.
  induction l as [|x l IH] using rev_ind; [done|].
  rewrite filter_app, filter_cons, filter_nil. destruct (decide (P x)) as [Hx|Hx].
  - rewrite last_snoc. intros [= ->]. split; [done|]. by exists l, [].
  - rewrite app_nil_r. intros Hl. destruct (IH Hl) as (Ha & pre & post & -> & Hpost).
    split; [done|]. exists pre, (post ++ [x]). split; [by rewrite <- app_assoc|].
    apply Forall_app. split; [done|]. by apply Forall_singleton.
Qed.

(** *** The three updates and the correspondence *)

(** Filtering a shelf. *)
Lemma view_set_filter heap refs s id :
  view heap (set refs s (filter (λ a, b_id (deref heap a) ≠ id) (get refs s)))
  = set (view heap refs) s (without_id id (get (view heap refs) s)).
Proof. by rewrite view_set, fmap_deref_filter, get_view. Qed.

Lemma refs_valid_sublist heap (refs refs' : Shelves nat) :
  (∀ s, get refs' s `sublist_of` get refs s) → refs_valid heap refs → refs_valid heap refs'.
Proof.
  intros Hsub Hvalid s a Ha. apply (Hvalid s). exact (elem_of_sublist _ _ _ Ha (Hsub s)).
Qed.

Lemma refs_distinct_sublist (refs refs' : Shelves nat) :
  (∀ s, get refs' s `sublist_of` get refs s) → refs_distinct refs → refs_distinct refs'.
Proof.
  intros Hsub [Hnd Hone]. split.
  - intros s. eapply sublist_NoDup; [apply Hnd|apply Hsub].
  - intros a s1 s2 H1 H2.
    apply (Hone a); [exact (elem_of_sublist _ _ _ H1 (Hsub s1))
                    |exact (elem_of_sublist _ _ _ H2 (Hsub s2))].
Qed.

Lemma entry_ok_filter heap refs s id id' e p :
  id' ≠ id → entry_ok heap refs id' e p →
  entry_ok heap (set refs s (filter (λ a, b_id (deref heap a) ≠ id) (get refs s))) id' e p.
Proof.
  intros Hne (Hp & Hid & pre & post & Hsplit & Hpost). split; [done|]. split; [done|].
  destruct (decide (e_shelf e = s)) as [<-|Hs].
  - rewrite get_set, Hsplit, filter_app, filter_cons_True by congruence.
    eexists _, _. split; [done|]. apply Forall_forall. intros a Ha.
    apply list_elem_of_filter in Ha as [_ Ha]. rewrite Forall_forall in Hpost. by apply Hpost.
  - rewrite get_set_ne by done. eauto.
Qed.

(** Pushing a new object. *)
Lemma view_push_new heap refs s b :
  refs_valid heap refs →
  view (heap ++ [b]) (push refs s (length heap)) = push (view heap refs) s b.
Proof.
  intros Hvalid. unfold push. rewrite view_set, fmap_app. simpl.
  rewrite deref_app_new, get_view. f_equal.
  - unfold view. f_equal; apply fmap_deref_ext; intros a Ha; apply deref_app_l.
    + by apply (Hvalid current).
    + by apply (Hvalid want).
    + by apply (Hvalid finished).
  - f_equal. apply fmap_deref_ext. intros a Ha. apply deref_app_l. by apply (Hvalid s).
Qed.

Lemma elem_of_get_push {A} (lib : Shelves A) s x s' y :
  y ∈ get (push lib s x) s' ↔ y ∈ get lib s' ∨ (s' = s ∧ y = x).
Proof.
  destruct (decide (s' = s)) as [->|Hne].
  - rewrite get_push, elem_of_app, list_elem_of_singleton. split.
    + intros [? | ->]; [by left|by right].
    + intros [?|[_ ->]]; [by left|by right].
  - rewrite get_push_ne by done. split; [by left|].
    intros [?|[? _]]; [assumption|contradiction].
Qed.

Lemma refs_valid_push heap refs s b :
  refs_valid heap refs → refs_valid (heap ++ [b]) (push refs s (length heap)).
Proof.
  intros Hvalid s' a. rewrite elem_of_get_push, length_app. simpl.
  intros [Ha|[_ ->]]; [|lia]. apply Hvalid in Ha. lia.
Qed.

Lemma refs_distinct_push heap refs s :
  refs_valid heap refs → refs_distinct refs → refs_distinct (push refs s (length heap)).
Proof.
  intros Hvalid [Hnd Hone].
  assert (∀ s', length heap ∉ get refs s') as Hnew.
  { intros s' Hin. apply Hvalid in Hin. lia. }
  split.
  - intros s'. destruct (decide (s' = s)) as [->|Hne].
    + rewrite get_push. apply NoDup_app. split; [done|]. split; [|apply NoDup_singleton].
      intros a Ha. rewrite list_elem_of_singleton. intros ->. by apply (Hnew s).
    + by rewrite get_push_ne.
  - intros a s1 s2. rewrite !elem_of_get_push.
    intros [H1|[-> ->]] [H2|[-> Ha]]; try done.
    + by apply (Hone a).
    + subst a. by apply Hnew in H1.
    + by apply Hnew in H2.
Qed.

Lemma entry_ok_push heap refs s b id' e p :
  refs_valid heap refs → b_id b ≠ id' → entry_ok heap refs id' e p →
  entry_ok (heap ++ [b]) (push refs s (length heap)) id' e p.
Proof.
  intros Hvalid Hb (Hp & Hid & pre & post & Hsplit & Hpost).
  assert (e_book e < length heap)%nat as He.
  { apply (Hvalid (e_shelf e)). rewrite Hsplit. apply elem_of_app. right. left. }
  assert (Forall (λ a, b_id (deref (heap ++ [b]) a) ≠ id') post) as Hpost'.
  { apply Forall_forall. intros a Ha. rewrite deref_app_l.
    - rewrite Forall_forall in Hpost. by apply Hpost.
    - apply (Hvalid (e_shelf e)). rewrite Hsplit. apply elem_of_app. right. by right. }
  rewrite <- (deref_app_l heap b) in Hp, Hid by done.
  split; [done|]. split; [done|].
  destruct (decide (e_shelf e = s)) as [<-|Hs].
  - rewrite get_push, Hsplit. exists pre, (post ++ [length heap]).
    split; [by rewrite <- app_assoc|]. apply Forall_app. split; [done|].
    apply Forall_singleton. by rewrite deref_app_new.
  - rewrite get_push_ne by done. eauto.
Qed.

(** Assigning to an object of the heap. *)
Lemma view_assign heap refs e p id source :
  refs_valid heap refs → refs_distinct refs → entry_ok heap refs id e p →
  view (<[e_book e := Object_assign (deref heap (e_book e)) source]> heap) refs
  = set (view heap refs) (e_shelf e)
      (assign_existing id source (get (view heap refs) (e_shelf e))).
Proof.
  intros Hvalid [Hnd Hone] (_ & Hid & pre & post & Hsplit & Hpost).
  set (a := e_book e) in *. set (s := e_shelf e) in *.
  set (heap' := <[a := Object_assign (deref heap a) source]> heap).
  assert (a ∈ get refs s) as Ha.
  { rewrite Hsplit. apply elem_of_app. right. left. }
  assert (∀ s', s' ≠ s → deref heap' <$> get refs s' = deref heap <$> get refs s') as Hothers.
  { intros s' Hne. apply fmap_deref_ext. intros a' Ha'. apply deref_insert_ne.
    intros <-. by apply Hne, (Hone a). }
  assert (deref heap' <$> get refs s
          = assign_existing id source (deref heap <$> get refs s)) as Hs.
  { pose proof (Hnd s) as Hnds. rewrite Hsplit in Hnds |- *.
    apply NoDup_app in Hnds as (_ & Hpre & Hnds). apply NoDup_cons in Hnds as [Hpost_a _].
    rewrite !fmap_app, !fmap_cons.
    rewrite assign_existing_middle; [|done|].
    2:{ apply Forall_fmap. exact Hpost. }
    unfold heap' at 2. rewrite deref_insert_eq by by apply (Hvalid s).
    f_equal; [|f_equal]; apply fmap_deref_ext; intros a' Ha'; apply deref_insert_ne.
    - intros <-. apply (Hpre a Ha'). left.
    - by intros <-. }
  rewrite <- get_view in Hs.
  destruct s; unfold view, set; simpl in *; f_equal;
    first [ exact Hs | by apply (Hothers current) | by apply (Hothers want)
          | by apply (Hothers finished) ].
Qed.

Lemma refs_valid_insert heap refs a v :
  refs_valid heap refs → refs_valid (<[a:=v]> heap) refs.
Proof. intros Hvalid s a' Ha'. rewrite length_insert. by apply (Hvalid s). Qed.

Lemma entry_ok_assign heap refs a v id' e p :
  b_id (deref heap a) ≠ id' → b_id v ≠ id' → entry_ok heap refs id' e p →
  entry_ok (<[a:=v]> heap) refs id' e p.
Proof.
  intros Ha Hv (Hp & Hid & pre & post & Hsplit & Hpost).
  assert (a ≠ e_book e) as Hne by (intros ->; done).
  rewrite <- (deref_insert_ne heap a (e_book e) v) in Hp, Hid by done.
  split; [done|]. split; [done|]. exists pre, post. split; [done|].
  apply Forall_forall. intros a' Ha'. destruct (decide (a = a')) as [<-|Hne'].
  - destruct (decide (a < length heap)%nat).
    + by rewrite deref_insert_eq.
    + unfold deref. rewrite list_insert_ge by lia. exact Ha.
  - rewrite deref_insert_ne by done. rewrite Forall_forall in Hpost. by apply Hpost.
Qed.

(** *** One item *)

Lemma sim_item now h p item :
  sim h p →
  fst (sync_item now h item) = fst (merge_item now p item)
  ∧ library_of (snd (sync_item now h item)) = m_library (snd (merge_item now p item))
  ∧ (fst (sync_item now h item) = Normal →
     sim (snd (sync_item now h item)) (snd (merge_item now p item))).
Proof.
  intros (Hview & Hvalid & Hdistinct & Hmaps). unfold library_of in Hview.
  set (id := google_books_id item).
  assert (∀ hm pm, maps_agree (heap h) (this_library h) hm pm → hm !! id = None →
          ∀ heap' refs',
            (∀ id' e p', id' ≠ id → entry_ok (heap h) (this_library h) id' e p' →
                         entry_ok heap' refs' id' e p') →
            maps_agree heap' refs' hm pm) as Hkeep.
  { intros hm pm Hagree Hnone heap' refs' Hentry id'. specialize (Hagree id').
    destruct (hm !! id') as [e|] eqn:He; [|done].
    destruct Hagree as (p' & Hp' & Hok). exists p'. split; [done|].
    apply Hentry; [|done]. intros ->. congruence. }
  assert (∀ heap' refs',
            (∀ id' e p', id' ≠ id → entry_ok (heap h) (this_library h) id' e p' →
                         entry_ok heap' refs' id' e p') →
            maps_agree heap' refs' (delete id (books_map h)) (delete id (m_map p))) as Hdel.
  { intros heap' refs' Hentry id'. destruct (decide (id' = id)) as [->|Hne].
    - by rewrite !lookup_delete_eq.
    - rewrite !lookup_delete_ne by done. specialize (Hmaps id').
      destruct (books_map h !! id') as [e|]; [|done].
      destruct Hmaps as (p' & Hp' & Hok). exists p'. split; [done|]. by apply Hentry. }
  pose proof (Hmaps id) as Hid. unfold sync_item, merge_item. fold id.
  destruct (books_map h !! id) as [e|] eqn:Hh.
  - destruct Hid as (pe & Hp & Hok). rewrite Hp.
    pose proof Hok as (-> & Heid & _). cbn [fmap option_fmap option_map i_book i_shelf].
    set (remote := remoteBook now (Some (deref (heap h) (e_book e))) item).
    case_bool_decide as Hshelf.
    + set (refs1 := set (this_library h) (e_shelf e) (filter _ _)).
      assert (∀ s, get refs1 s `sublist_of` get (this_library h) s) as Hsub
        by apply set_sublist, sublist_filter.
      assert (refs_valid (heap h) refs1) as Hvalid1 by by eapply refs_valid_sublist.
      assert (view (heap h) refs1
              = set (m_library p) (e_shelf e) (without_id id (get (m_library p) (e_shelf e))))
        as Hview1 by by rewrite <- Hview; apply view_set_filter.
      destruct (shelf_of_string (shelf_type item)) as [t|]; cbn [fst snd].
      * split; [done|]. unfold library_of. cbn [heap this_library m_library].
        rewrite view_push_new, Hview1 by done. split; [done|]. intros _.
        split; [unfold library_of; cbn [heap this_library m_library];
                by rewrite view_push_new, Hview1|].
        split; [by apply refs_valid_push|].
        split; [by apply refs_distinct_push; [|eapply refs_distinct_sublist]|].
        cbn [heap this_library books_map m_map]. apply Hdel.
        intros id' e' p' Hne Hok'. apply entry_ok_push; [done|done|].
        by apply entry_ok_filter.
      * split; [done|]. split; [exact Hview1|done].
    + cbn [fst snd]. split; [done|]. unfold library_of. cbn [heap this_library m_library].
      rewrite (view_assign _ _ _ _ id remote Hvalid Hdistinct Hok), Hview.
      split; [done|]. intros _.
      split; [unfold library_of; cbn [heap this_library m_library];
              by rewrite (view_assign _ _ _ _ id remote Hvalid Hdistinct Hok), Hview|].
      split; [by apply refs_valid_insert|]. split; [done|].
      cbn [heap this_library books_map m_map]. apply Hdel.
      intros id' e' p' Hne Hok'. apply entry_ok_assign; [congruence|done|done].
  - rewrite Hid. cbn [fmap option_fmap option_map].
    set (remote := remoteBook now None item).
    destruct (shelf_of_string (shelf_type item)) as [t|]; cbn [fst snd].
    + split; [done|]. unfold library_of. cbn [heap this_library m_library].
      rewrite view_push_new, Hview by done. split; [done|]. intros _.
      split; [unfold library_of; cbn [heap this_library m_library];
              by rewrite view_push_new, Hview|].
      split; [by apply refs_valid_push|]. split; [by apply refs_distinct_push|].
      cbn [heap this_library books_map m_map]. apply (Hkeep _ _ Hmaps Hh).
      intros id' e' p' Hne Hok'. by apply entry_ok_push.
    + destruct (inherited (shelf_type item)); cbn [fst snd].
      * split; [done|]. split; [exact Hview|]. intros [=].
      * split; [done|]. split; [exact Hview|]. intros _.
        split; [exact Hview|]. split; [done|]. by split.
Qed.

Lemma sim_items now items h p :
  sim h p →
  fst (forEach (sync_item now) items h) = fst (forEach (merge_item now) items p)
  ∧ library_of (snd (forEach (sync_item now) items h))
    = m_library (snd (forEach (merge_item now) items p)).
Proof.
  revert h p. induction items as [|item items IH]; intros h p Hsim.
  - split; [done|]. by destruct Hsim.
  - simpl. destruct (sim_item now h p item Hsim) as (Hc & Hlib & Hnext).
    destruct (sync_item now h item) as [c h'], (merge_item now p item) as [c' p'].
    simpl in *. subst c'. destruct c as [|err]; [|done]. by apply IH, Hnext.
Qed.

(** *** The initial states *)

Lemma fmap_deref_seq (pre books post : list Book) :
  deref (pre ++ books ++ post) <$> seq (length pre) (length books) = books.
Proof.
  revert pre. induction books as [|b books IH]; intros pre; [done|]. simpl. f_equal.
  - unfold deref. by rewrite list_lookup_total_middle.
  - specialize (IH (pre ++ [b])). rewrite length_app, <- app_assoc in IH. simpl in IH.
    by rewrite Nat.add_1_r in IH.
Qed.

Lemma view_allocate lib : view (allocate lib).1 (allocate lib).2 = lib.
Proof.
  destruct lib as [c w f]. unfold allocate, view. simpl. f_equal.
  - apply (fmap_deref_seq [] c (w ++ f)).
  - apply (fmap_deref_seq c w f).
  - rewrite <- length_app. rewrite (app_assoc c w f).
    rewrite <- (app_nil_r f) at 1. apply (fmap_deref_seq (c ++ w) f []).
Qed.

Lemma refs_valid_allocate lib : refs_valid (allocate lib).1 (allocate lib).2.
Proof.
  destruct lib as [c w f]. intros s a. unfold allocate. simpl. rewrite !length_app.
  destruct s; simpl; rewrite elem_of_seq; lia.
Qed.

Lemma refs_distinct_allocate lib : refs_distinct (allocate lib).2.
Proof.
  destruct lib as [c w f]. unfold allocate. simpl. split.
  - intros []; apply NoDup_seq.
  - intros a s1 s2. destruct s1, s2; simpl; rewrite !elem_of_seq; first [done|lia].
Qed.

Lemma index_shelf_lookup heap s m refs id :
  index_shelf heap s m refs !! id =
    match last (filter (λ a, b_id (deref heap a) = id) refs) with
    | Some a => Some {| e_book := a; e_shelf := s |}
    | None => m !! id
    end.
Proof.
  unfold index_shelf. revert m.
  induction refs as [|a refs IH]; intros m; [done|]. simpl. rewrite IH.
  destruct (decide (b_id (deref heap a) = id)) as [Ha|Ha].
  - rewrite filter_cons_True, last_cons by done.
    destruct (last (filter _ refs)); [done|]. subst id. apply lookup_insert_eq.
  - rewrite filter_cons_False by done.
    destruct (last (filter _ refs)); [done|]. by apply lookup_insert_ne.
Qed.

Lemma index_books_lookup s m books id :
  index_books s m books !! id =
    match last (records_with id books) with
    | Some b => Some {| i_book := b; i_shelf := s |}
    | None => m !! id
    end.
Proof.
  unfold index_books, records_with. revert m.
  induction books as [|b books IH]; intros m; [done|]. simpl. rewrite IH.
  destruct (decide (b_id b = id)) as [Hb|Hb].
  - rewrite filter_cons_True, last_cons by done.
    destruct (last (filter _ books)); [done|]. subst id. apply lookup_insert_eq.
  - rewrite filter_cons_False by done.
    destruct (last (filter _ books)); [done|]. by apply lookup_insert_ne.
Qed.

(** The two maps built from corresponding libraries agree. *)
Lemma maps_agree_initial heap refs :
  maps_agree heap refs (localBooksMap heap refs) (local_index (view heap refs)).
Proof.
  intros id. unfold localBooksMap, local_index, shelves. cbn [foldl].
  rewrite !index_shelf_lookup, !index_books_lookup, !lookup_empty.
  rewrite !get_view, <- !fmap_deref_filter_eq, !fmap_last.
  assert (∀ s a, last (filter (λ a, b_id (deref heap a) = id) (get refs s)) = Some a →
          ∃ p, Some {| i_book := deref heap a; i_shelf := s |} = Some p
               ∧ entry_ok heap refs id {| e_book := a; e_shelf := s |} p) as Hentry.
  { intros s a Hlast. eexists. split; [done|].
    apply last_filter_split in Hlast as (Ha & pre & post & Hsplit & Hpost).
    split; [done|]. split; [done|]. by exists pre, post. }
  destruct (last (filter (λ a, b_id (deref heap a) = id) (get refs finished))) as [a|] eqn:Hf; cbn [fmap option_fmap option_map];
    [by apply Hentry|].
  destruct (last (filter (λ a, b_id (deref heap a) = id) (get refs want))) as [a|] eqn:Hw; cbn [fmap option_fmap option_map];
    [by apply Hentry|].
  destruct (last (filter (λ a, b_id (deref heap a) = id) (get refs current))) as [a|] eqn:Hc; cbn [fmap option_fmap option_map];
    [by apply Hentry|done].
Qed.

(** The merge on objects computes the collection of the merge on values, and
    ends the same way. *)
Lemma sync_items_merge now lib remote :
  fst (sync_items now lib remote) = fst (merge now lib remote)
  ∧ library_of (snd (sync_items now lib remote)) = m_library (snd (merge now lib remote)).
Proof.
  unfold sync_items, merge.
  pose proof (view_allocate lib) as Hview.
  pose proof (refs_valid_allocate lib) as Hvalid.
  pose proof (refs_distinct_allocate lib) as Hdistinct.
  destruct (allocate lib) as [heap0 refs0]. simpl in *.
  apply sim_items. split; [done|]. split; [done|]. split; [done|].
  cbn [heap this_library books_map m_map]. rewrite <- Hview. apply maps_agree_initial.
Qed.

Lemma mergeRemoteIntoLocal_merge now lib remote :
  mergeRemoteIntoLocal now lib remote = m_library (snd (merge now lib remote)).
Proof. apply sync_items_merge. Qed.

(** What [syncWithBackend] leaves in the instance and in the storage when
    the snapshot has been fetched. *)
Lemma syncWithBackend_fetched user data now sorting w :
  syncWithBackend (Some user) (Ok data) now sorting w
  = match fst (merge now (library w) data) with
    | Normal =>
        match sorting with
        | Some sort => sortLibrary sort (world_of (mergeRemoteIntoLocal now (library w) data))
        | None => world_of (mergeRemoteIntoLocal now (library w) data)
        end
    | Throw _ =>
        {| library := mergeRemoteIntoLocal now (library w) data; storage := storage w |}
    end.
Proof.
  unfold syncWithBackend, mergeRemoteIntoLocal.
  destruct (sync_items_merge now (library w) data) as [<- _].
  by destruct (sync_items now (library w) data) as [[|e] st].
Qed.

(** ** The pull-merge, one id at a time *)

Lemma elem_of_records_with id books b : b ∈ records_with id books ↔ b_id b = id ∧ b ∈ books.
Proof. apply (list_elem_of_filter (λ b, b_id b = id)). Qed.

Lemma records_with_app id l k :
  records_with id (l ++ k) = records_with id l ++ records_with id k.
Proof. apply filter_app. Qed.

Lemma records_with_absent id books : has_id id books = false ↔ records_with id books = [].
Proof.
  rewrite has_id_false. unfold records_with. split.
  - intros H. induction books as [|b books IH]; [done|].
    rewrite filter_cons_False by (apply H; left). apply IH.
    intros b' Hb'. apply H. by right.
  - intros H b Hb Hid. assert (b ∈ filter (λ b, b_id b = id) books) as Hin
      by by apply (list_elem_of_filter (λ b, b_id b = id)).
    rewrite H in Hin. by apply elem_of_nil in Hin.
Qed.

Lemma records_with_push_other id books book :
  b_id book ≠ id → records_with id (books ++ [book]) = records_with id books.
Proof.
  intros Hne. rewrite records_with_app. unfold records_with at 2.
  rewrite filter_cons_False by done. apply app_nil_r.
Qed.

Lemma records_with_push_same books book :
  records_with (b_id book) (books ++ [book]) = records_with (b_id book) books ++ [book].
Proof.
  rewrite records_with_app. f_equal. unfold records_with. by rewrite filter_cons_True.
Qed.

Lemma records_with_without_other id id' books :
  id ≠ id' → records_with id (without_id id' books) = records_with id books.
Proof.
  intros Hne. unfold records_with, without_id.
  induction books as [|b books IH]; [done|].
  destruct (decide (b_id b = id')) as [Hb|Hb].
  - rewrite filter_cons_False by tauto.
    rewrite (filter_cons_False (λ b, b_id b = id)) by congruence. apply IH.
  - rewrite filter_cons_True by done.
    destruct (decide (b_id b = id)) as [Hb'|Hb'].
    + rewrite !(filter_cons_True (λ b, b_id b = id)) by done. by rewrite IH.
    + rewrite !(filter_cons_False (λ b, b_id b = id)) by done. apply IH.
Qed.

Lemma records_with_without_same id books : records_with id (without_id id books) = [].
Proof.
  apply records_with_absent, not_true_iff_false. rewrite has_id_without. tauto.
Qed.

Lemma records_with_assign_other id id' source books :
  id ≠ id' → b_id source = id' →
  records_with id (assign_existing id' source books) = records_with id books.
Proof.
  intros Hne Hsrc. unfold records_with.
  induction books as [|b books IH]; [done|]. simpl.
  destruct (has_id id' books).
  - rewrite !filter_cons, IH. done.
  - case_bool_decide as Hb; [|done].
    rewrite !filter_cons_False; [done|congruence|simpl; congruence].
Qed.

Lemma records_with_get_push_other id lib s book s' :
  b_id book ≠ id → records_with id (get (push lib s book) s') = records_with id (get lib s').
Proof.
  intros Hne. destruct (decide (s' = s)) as [->|Hs].
  - by rewrite get_push, records_with_push_other.
  - by rewrite get_push_ne.
Qed.

Lemma records_with_get_without_other id id' lib s s' :
  id ≠ id' →
  records_with id (get (set lib s (without_id id' (get lib s))) s') = records_with id (get lib s').
Proof.
  intros Hne. destruct (decide (s' = s)) as [->|Hs].
  - by rewrite get_set, records_with_without_other.
  - by rewrite get_set_ne.
Qed.

Lemma records_with_get_assign_other id id' source lib s s' :
  id ≠ id' → b_id source = id' →
  records_with id (get (set lib s (assign_existing id' source (get lib s))) s')
  = records_with id (get lib s').
Proof.
  intros Hne Hsrc. destruct (decide (s' = s)) as [->|Hs].
  - by rewrite get_set, records_with_assign_other.
  - by rewrite get_set_ne.
Qed.

(** An item leaves the records of every other id where they are, and the
    entry of every other id in the map; also when it throws. *)
Lemma merge_item_other now id st item :
  google_books_id item ≠ id →
  (∀ s, records_with id (get (m_library (snd (merge_item now st item))) s)
        = records_with id (get (m_library st) s))
  ∧ m_map (snd (merge_item now st item)) !! id = m_map st !! id.
Proof.
  intros Hne. unfold merge_item.
  destruct (m_map st !! google_books_id item) as [e|].
  - case_bool_decide.
    + destruct (shelf_of_string (shelf_type item)) as [t|]; simpl; split.
      * intros s. by rewrite records_with_get_push_other, records_with_get_without_other.
      * by apply lookup_delete_ne.
      * intros s. by rewrite records_with_get_without_other.
      * done.
    + simpl. split.
      * intros s. by rewrite records_with_get_assign_other.
      * by apply lookup_delete_ne.
  - destruct (shelf_of_string (shelf_type item)) as [t|];
      [|by destruct (inherited (shelf_type item))].
    simpl. split; [|done]. intros s. by rewrite records_with_get_push_other.
Qed.

Lemma forEach_app {S A : Type} (f : S → A → Completion * S) (l k : list A) (st : S) :
  fst (forEach f l st) = Normal →
  forEach f (l ++ k) st = forEach f k (snd (forEach f l st)).
Proof.
  revert st. induction l as [|a l IH]; intros st; [done|]. simpl.
  destruct (f st a) as [[|e] st']; [apply IH|done].
Qed.

(** The same for a run of items, none of which has the id. *)
Lemma merge_items_other now id items st :
  Forall (λ item, google_books_id item ≠ id) items →
  (∀ s, records_with id (get (m_library (snd (forEach (merge_item now) items st))) s)
        = records_with id (get (m_library st) s))
  ∧ m_map (snd (forEach (merge_item now) items st)) !! id = m_map st !! id.
Proof.
  intros Hall. revert st. induction Hall as [|item items Hne _ IH]; intros st; [done|].
  simpl. destruct (merge_item_other now id st item Hne) as [Hrec Hmap].
  destruct (merge_item now st item) as [[|e] st']; simpl in *.
  - destruct (IH st') as [Hrec' Hmap']. split.
    + intros s. by rewrite Hrec', Hrec.
    + by rewrite Hmap', Hmap.
  - done.
Qed.

(** C3. A local record whose id no record of the snapshot carries is still on
    its shelf after the merge, unchanged, whether or not it has a [db_id]; and
    on every shelf the records of that id are exactly those there were before.
    This also holds when the loop of the merge is left by a throw. *)
Theorem merge_keeps_unmatched (now : string) (lib : Library) (remote : list Item)
    (book : Book) (s : Shelf) :
  book ∈ get lib s →
  Forall (λ item, google_books_id item ≠ b_id book) remote →
  book ∈ get (mergeRemoteIntoLocal now lib remote) s
  ∧ ∀ s', records_with (b_id book) (get (mergeRemoteIntoLocal now lib remote) s')
          = records_with (b_id book) (get lib s').
Proof.
  intros Hin Hall. rewrite mergeRemoteIntoLocal_merge. unfold merge.
  destruct (merge_items_other now (b_id book) remote
              {| m_library := lib; m_map := local_index lib |} Hall) as [Hrec _].
  simpl in Hrec. split; [|exact Hrec].
  assert (book ∈ records_with (b_id book) (get lib s)) as H
    by by apply elem_of_records_with.
  rewrite <- (Hrec s) in H. by apply elem_of_records_with in H as [_ ?].
Qed.

Lemma merge_keeps_unmatched_witness :
  sample_book "b1" None (Some 40)
    ∈ get (mergeRemoteIntoLocal "now" b1_reading [sample_item "b2" 5 "current"]) current.
Proof.
  refine (proj1 (merge_keeps_unmatched "now" b1_reading [sample_item "b2" 5 "current"]
                   (sample_book "b1" None (Some 40)) current _ _)).
  - left.
  - repeat constructor. discriminate.
Defined.

(** ** The index of the local books *)

Lemma local_index_lookup lib id :
  local_index lib !! id =
    match last (records_with id (lib_finished lib)) with
    | Some b => Some {| i_book := b; i_shelf := finished |}
    | None =>
        match last (records_with id (lib_want lib)) with
        | Some b => Some {| i_book := b; i_shelf := want |}
        | None =>
            match last (records_with id (lib_current lib)) with
            | Some b => Some {| i_book := b; i_shelf := current |}
            | None => None
            end
        end
    end.
Proof. unfold local_index. simpl. by rewrite !index_books_lookup, lookup_empty. Qed.


Lemma last_records_with id books b :
  last (records_with id books) = Some b → b_id b = id ∧ b ∈ books ∧ has_id id books = true.
Proof.
  intros H. apply last_Some_elem_of, elem_of_records_with in H as [? ?].
  split; [done|]. split; [done|]. apply has_id_true. eauto.
Qed.

(** In a collection that keeps each id on one shelf, the entry of an id is
    the last record of that id on its shelf. *)
Lemma local_index_one_shelf lib id s l :
  one_shelf lib → last (records_with id (get lib s)) = Some l →
  local_index lib !! id = Some {| i_book := l; i_shelf := s |}.
Proof.
  intros Hone Hl. pose proof (last_records_with _ _ _ Hl) as (_ & _ & Hs).
  assert (∀ s', s' ≠ s → last (records_with id (get lib s')) = None) as Hother.
  { intros s' Hne. apply last_None, records_with_absent, not_true_iff_false.
    intros Hs'. by apply Hne, (Hone id). }
  rewrite local_index_lookup.
  change (lib_finished lib) with (get lib finished).
  change (lib_want lib) with (get lib want).
  change (lib_current lib) with (get lib current).
  destruct s.
  - by rewrite (Hother finished), (Hother want), Hl.
  - by rewrite (Hother finished), Hl.
  - by rewrite Hl.
Qed.

(** ** Items that throw, items that do not *)

Lemma merge_item_on_a_shelf now st item :
  on_a_shelf item → fst (merge_item now st item) = Normal.
Proof.
  intros [t Ht]. unfold merge_item. rewrite Ht.
  destruct (m_map st !! google_books_id item); [|done]. by case_bool_decide.
Qed.

Lemma merge_items_on_a_shelf now items st :
  Forall on_a_shelf items → fst (forEach (merge_item now) items st) = Normal.
Proof.
  intros Hall. revert st. induction Hall as [|item items Hitem _ IH]; intros st; [done|].
  simpl. pose proof (merge_item_on_a_shelf now st item Hitem) as Hn.
  destruct (merge_item now st item) as [c st']. simpl in Hn. subst c. apply IH.
Qed.

(** ** Ids without an entry *)

(** Once an id has no entry in the map, whether it never had one or its
    entry has been consumed, no item takes a record of that id away or
    changes it, and the id gets no entry. *)
Lemma merge_item_no_entry now id st item :
  m_map st !! id = None →
  m_map (snd (merge_item now st item)) !! id = None
  ∧ ∀ s b, b ∈ records_with id (get (m_library st) s) →
           b ∈ records_with id (get (m_library (snd (merge_item now st item))) s).
Proof.
  intros Hnone. destruct (decide (google_books_id item = id)) as [<-|Hne].
  - unfold merge_item. rewrite Hnone.
    destruct (shelf_of_string (shelf_type item)) as [t|];
      [|by destruct (inherited (shelf_type item))].
    simpl. split; [done|]. intros s b Hb. destruct (decide (s = t)) as [->|Hs].
    + rewrite get_push, records_with_app, elem_of_app. by left.
    + by rewrite get_push_ne.
  - destruct (merge_item_other now id st item Hne) as [Hrec Hmap].
    split; [by rewrite Hmap|]. intros s b. by rewrite Hrec.
Qed.

Lemma merge_items_no_entry now id items st :
  m_map st !! id = None →
  m_map (snd (forEach (merge_item now) items st)) !! id = None
  ∧ ∀ s b, b ∈ records_with id (get (m_library st) s) →
           b ∈ records_with id (get (m_library (snd (forEach (merge_item now) items st))) s).
Proof.
  revert st. induction items as [|item items IH]; intros st Hnone; [done|].
  simpl. destruct (merge_item_no_entry now id st item Hnone) as [Hmap Hrec].
  destruct (merge_item now st item) as [[|e] st']; simpl in *.
  - destruct (IH st' Hmap) as [Hmap' Hrec']. split; [done|].
    intros s b Hb. by apply Hrec', Hrec.
  - done.
Qed.

(** The merge up to an item, when the items before it name shelves. *)
Lemma merge_split now lib items1 item items2 :
  Forall on_a_shelf items1 →
  merge now lib (items1 ++ item :: items2) =
    match merge_item now (snd (merge now lib items1)) item with
    | (Normal, st) => forEach (merge_item now) items2 st
    | (Throw e, st) => (Throw e, st)
    end.
Proof.
  intros Hvalid. unfold merge. rewrite forEach_app; [done|].
  by apply merge_items_on_a_shelf.
Qed.

(** ** Records only the snapshot has *)




(** ** Records on both sides, on different shelves *)

Lemma shelf_name_inj s t : shelf_name s = shelf_name t → s = t.
Proof. by destruct s, t. Qed.

(** C1, counterexample. [b1] is on the local want shelf; the snapshot has it
    on finished (id 7) and again on current (id 8), both different from want.
    After the merge a record of [b1] is on finished and another on current:
    the records of [b1] are routed to neither shelf alone. *)
Lemma merge_routing_counterexample :
  has_id "b1" (get b1_on_want want) = true
  ∧ records_with "b1"
      (get (mergeRemoteIntoLocal "now" b1_on_want
              [sample_item "b1" 7 "finished"; sample_item "b1" 8 "current"]) finished)
    = [remoteBook "now" (Some (sample_book "b1" None None)) (sample_item "b1" 7 "finished")]
  ∧ records_with "b1"
      (get (mergeRemoteIntoLocal "now" b1_on_want
              [sample_item "b1" 7 "finished"; sample_item "b1" 8 "current"]) current)
    = [remoteBook "now" None (sample_item "b1" 8 "current")]
  ∧ ¬ routed_to (mergeRemoteIntoLocal "now" b1_on_want
                   [sample_item "b1" 7 "finished"; sample_item "b1" 8 "current"])
        "b1" finished 7
  ∧ ¬ routed_to (mergeRemoteIntoLocal "now" b1_on_want
                   [sample_item "b1" 7 "finished"; sample_item "b1" 8 "current"])
        "b1" current 8.
Proof.
  split; [done|]. split; [by vm_compute|]. split; [by vm_compute|]. split.
  - intros [_ H]. specialize (H current ltac:(done)). vm_compute in H. discriminate H.
  - intros [_ H]. specialize (H finished ltac:(done)). vm_compute in H. discriminate H.
Qed.

(** C1, amended. In a collection that keeps each id on one shelf, when an id
    is on local shelf [s] and the snapshot has exactly one record of that id,
    on another shelf [t] (the records before it naming shelves), then after
    the merge shelf [t] has exactly one record of the id, the [remoteBook]
    built from the snapshot's record, with its [db_id], and no other shelf
    has a record of the id. *)
Theorem merge_routes_to_remote_shelf (now : string) (lib : Library)
    (items1 : list Item) (item : Item) (items2 : list Item) (s t : Shelf) :
  one_shelf lib →
  has_id (google_books_id item) (get lib s) = true →
  Forall (λ other, google_books_id other ≠ google_books_id item) (items1 ++ items2) →
  Forall on_a_shelf items1 →
  shelf_of_string (shelf_type item) = Some t →
  t ≠ s →
  (∃ l, last (records_with (google_books_id item) (get lib s)) = Some l
        ∧ records_with (google_books_id item)
            (get (mergeRemoteIntoLocal now lib (items1 ++ item :: items2)) t)
          = [remoteBook now (Some l) item])
  ∧ routed_to (mergeRemoteIntoLocal now lib (items1 ++ item :: items2))
      (google_books_id item) t (item_id item).
Proof.
  intros Hone Hs Hothers Hvalid Ht Hts.
  apply Forall_app in Hothers as [Hothers1 Hothers2].
  set (id := google_books_id item) in *.
  assert (∀ s', s' ≠ s → records_with id (get lib s') = []) as Hnone.
  { intros s' Hne. apply records_with_absent, not_true_iff_false.
    intros Hs'. by apply Hne, (Hone id). }
  destruct (last (records_with id (get lib s))) as [l|] eqn:Hl.
  2:{ apply last_None, records_with_absent in Hl. congruence. }
  pose proof (local_index_one_shelf lib id s l Hone Hl) as Hentry.
  rewrite mergeRemoteIntoLocal_merge, merge_split by done.
  destruct (merge_items_other now id items1
              {| m_library := lib; m_map := local_index lib |} Hothers1) as [Hrec1 Hmap1].
  fold (merge now lib items1) in Hrec1, Hmap1. simpl in Hrec1, Hmap1.
  set (st1 := snd (merge now lib items1)) in *.
  unfold merge_item. fold id. rewrite Hmap1, Hentry. cbn [i_shelf i_book fmap option_fmap option_map].
  rewrite bool_decide_eq_true_2, Ht.
  2:{ apply shelf_of_string_name in Ht. rewrite <- Ht. intros Heq.
      by apply Hts, eq_sym, shelf_name_inj. }
  set (remote := remoteBook now (Some l) item).
  match goal with |- context [forEach _ _ ?st] => set (st2 := st) end.
  destruct (merge_items_other now id items2 st2 Hothers2) as [Hrec2 _].
  assert (records_with id (get (m_library st2) t) = [remote]) as Hon_t.
  { simpl. rewrite get_push, get_set_ne by done.
    change id with (b_id remote). rewrite records_with_push_same.
    change (b_id remote) with id. by rewrite Hrec1, Hnone. }
  assert (∀ s', s' ≠ t → records_with id (get (m_library st2) s') = []) as Hoff_t.
  { intros s' Hne. simpl. rewrite get_push_ne by done.
    destruct (decide (s' = s)) as [->|Hs'].
    - rewrite get_set. apply records_with_without_same.
    - rewrite get_set_ne by done. by rewrite Hrec1, Hnone. }
  split; [exists l; by rewrite Hrec2|]. split.
  - exists remote. by rewrite Hrec2.
  - intros s' Hne. rewrite Hrec2. by apply Hoff_t.
Qed.

Lemma merge_routes_to_remote_shelf_witness :
  routed_to (mergeRemoteIntoLocal "now" b1_on_want
               ([sample_item "b2" 5 "want"] ++ sample_item "b1" 7 "finished" :: []))
    "b1" finished 7.
Proof.
  refine (proj2 (merge_routes_to_remote_shelf "now" b1_on_want
                   [sample_item "b2" 5 "want"] (sample_item "b1" 7 "finished") [] want finished
                   _ _ _ _ _ _)).
  - intros id [] []; simpl; congruence.
  - reflexivity.
  - repeat constructor. discriminate.
  - repeat constructor. by eexists.
  - reflexivity.
  - discriminate.
Defined.

(** ** Records on both sides, on the same shelf *)

Lemma assign_existing_last id source books l :
  last (records_with id books) = Some l →
  Object_assign l source ∈ assign_existing id source books.
Proof.
  unfold records_with. induction books as [|b books IH]; [done|]. simpl. intros Hl.
  rewrite filter_cons in Hl. destruct (has_id id books) eqn:Hhas.
  - right. apply IH. destruct (decide (b_id b = id)); [|done].
    rewrite last_cons in Hl. destruct (last (filter _ books)) eqn:Hlast; [done|].
    apply last_None in Hlast. apply records_with_absent in Hlast. congruence.
  - apply records_with_absent in Hhas. unfold records_with in Hhas. rewrite Hhas in Hl.
    destruct (decide (b_id b = id)) as [Hb|Hb]; [|done].
    injection Hl as ->. rewrite bool_decide_eq_true_2 by done. left.
Qed.

(** C2, counterexample.  First input: [b1] is on the local current shelf, 40%
    read, and the snapshot has [b1] on want (id 7) and again on current (id
    8).  The second snapshot record has the id and the shelf of the local
    record; after the merge the only record of [b1] on current is the one
    built from it, with progress 0, and the local record has gone to want.
    Second input: the local current shelf has [b1] twice, 40% and 50% read;
    after the same merge no record at all has progress 40. *)
Lemma merge_progress_counterexample :
  sample_book "b1" None (Some 40) ∈ get b1_reading current
  ∧ sample_item "b1" 8 "current" ∈ b1_twice_remote
  ∧ get (mergeRemoteIntoLocal "now" b1_reading b1_twice_remote) current
    = [remoteBook "now" None (sample_item "b1" 8 "current")]
  ∧ b_progress (remoteBook "now" None (sample_item "b1" 8 "current")) = Some 0
  ∧ (¬ ∃ b, b ∈ get (mergeRemoteIntoLocal "now" b1_reading b1_twice_remote) current
            ∧ b_progress b = Some 40)
  ∧ sample_book "b1" None (Some 40) ∈ get b1_reading_twice current
  ∧ (∀ s, ¬ ∃ b, b ∈ get (mergeRemoteIntoLocal "now" b1_reading_twice b1_twice_remote) s
                 ∧ b_progress b = Some 40).
Proof.
  split; [by left|]. split; [by right; left|]. split; [by vm_compute|]. split; [done|].
  split.
  - intros (b & Hb & Hp). vm_compute in Hb.
    apply list_elem_of_singleton in Hb. subst b. discriminate Hp.
  - split; [by left|]. intros s (b & Hb & Hp). destruct s; vm_compute in Hb.
    + apply list_elem_of_singleton in Hb. subst b. discriminate Hp.
    + apply list_elem_of_singleton in Hb. subst b. discriminate Hp.
    + by apply elem_of_nil in Hb.
Qed.

(** C2, amended. In a collection that keeps each id on one shelf, let [l] be
    the record of its id on shelf [s] (the last one, should the shelf have
    several) and [r] the first record of that id in the snapshot, naming the
    same shelf [s] (the records before it naming shelves).  Then after the
    merge, whatever follows [r] in the snapshot, shelf [s] holds the merged
    record: it has the id and the progress of [l], the [db_id] and the volume
    information built from [r], and the other properties of [l]. *)
Theorem merge_keeps_progress (now : string) (lib : Library)
    (items1 : list Item) (r : Item) (items2 : list Item) (l : Book) (s : Shelf) :
  one_shelf lib →
  last (records_with (b_id l) (get lib s)) = Some l →
  google_books_id r = b_id l →
  shelf_type r = shelf_name s →
  Forall (λ other, google_books_id other ≠ b_id l) items1 →
  Forall on_a_shelf items1 →
  ∃ merged,
    merged ∈ get (mergeRemoteIntoLocal now lib (items1 ++ r :: items2)) s
    ∧ b_id merged = b_id l
    ∧ b_progress merged = b_progress l
    ∧ b_db_id merged = Some (item_id r)
    ∧ b_volumeInfo merged = b_volumeInfo (remoteBook now None r)
    ∧ b_rest merged = b_rest l.
Proof.
  intros Hone Hl Hid Hshelf Hfirst Hvalid.
  pose proof (local_index_one_shelf lib (b_id l) s l Hone Hl) as Hentry.
  set (remote := remoteBook now (Some l) r).
  exists (Object_assign l remote). split; [|by repeat split].
  rewrite mergeRemoteIntoLocal_merge, merge_split by done.
  destruct (merge_items_other now (b_id l) items1
              {| m_library := lib; m_map := local_index lib |} Hfirst) as [Hrec1 Hmap1].
  fold (merge now lib items1) in Hrec1, Hmap1. simpl in Hrec1, Hmap1.
  set (st1 := snd (merge now lib items1)) in *.
  unfold merge_item. rewrite Hid, Hmap1, Hentry. cbn [i_shelf i_book fmap option_fmap option_map].
  rewrite bool_decide_eq_false_2 by (intros Hne; by apply Hne).
  fold remote.
  match goal with |- context [forEach _ _ ?st] => set (st2 := st) end.
  assert (m_map st2 !! b_id l = None) as Hnone by apply lookup_delete_eq.
  destruct (merge_items_no_entry now (b_id l) items2 st2 Hnone) as [_ Hkeep].
  eapply elem_of_records_with, Hkeep. apply elem_of_records_with.
  split; [exact Hid|]. simpl. rewrite get_set.
  apply assign_existing_last. by rewrite Hrec1.
Qed.

Lemma merge_keeps_progress_witness :
  ∃ merged,
    merged ∈ get (mergeRemoteIntoLocal "now" b1_reading
                    ([] ++ sample_item "b1" 8 "current" :: [sample_item "b1" 7 "want"])) current
    ∧ b_id merged = "b1"
    ∧ b_progress merged = Some 40
    ∧ b_db_id merged = Some 8
    ∧ b_volumeInfo merged = b_volumeInfo (remoteBook "now" None (sample_item "b1" 8 "current"))
    ∧ b_rest merged = [("kind", "books#volume")].
Proof.
  refine (merge_keeps_progress "now" b1_reading [] (sample_item "b1" 8 "current")
            [sample_item "b1" 7 "want"] (sample_book "b1" None (Some 40)) current
            _ _ _ _ _ _).
  - intros id [] []; simpl; congruence.
  - reflexivity.
  - reflexivity.
  - reflexivity.
  - constructor.
  - constructor.
Defined.

(** ** The push selection *)


Lemma elem_of_itemsToSync lib item :
  item ∈ itemsToSync lib ↔
    ∃ s, si_shelf item = shelf_name s
         ∧ si_book item ∈ get lib s
         ∧ truthy_num (b_db_id (si_book item)) = false.
Proof.
  unfold itemsToSync. rewrite list_elem_of_bind. split.
  - intros (s & Hitem & _). apply list_elem_of_fmap in Hitem as (book & -> & Hbook).
    apply list_elem_of_filter in Hbook as [? ?]. by exists s.
  - intros (s & Hshelf & Hbook & Hfalsy). exists s. split; [|by destruct s; set_solver].
    apply list_elem_of_fmap. exists (si_book item). split.
    + destruct item as [book shelf]. simpl in *. by subst shelf.
    + by apply list_elem_of_filter.
Qed.




(** ** Loading the stored collection *)

(** C8, counterexample. A stored text that is not JSON makes the load throw;
    a stored JSON text of another shape, here an array and an object without
    shelves, is returned as it is, not replaced by the default collection. *)
Lemma load_malformed_counterexample :
  Json.load (Some "{oops") = Json.Throws SyntaxError
  ∧ Json.load (Some "[1,2]")
    = Json.Returns
        (Json.JArray
           [Json.JNumber {| Json.neg := false; Json.mantissa := 1; Json.exponent := 0 |};
            Json.JNumber {| Json.neg := false; Json.mantissa := 2; Json.exponent := 0 |}])
  ∧ Json.load (Some "{}") = Json.Returns (Json.JObject [])
  ∧ Json.load (Some "{}") ≠ Json.Returns Json.default_collection.
Proof. repeat split; [done..|]. discriminate. Qed.

(** C8, amended. The load returns the default collection of three empty
    lists when the storage has no item, and when the item is a JSON text of a
    falsy value ([null], [false], [0], the empty string).  When the item is
    not a JSON text it throws a [SyntaxError]; when it is a JSON text of any
    other value it returns that value, whatever its shape. *)
Theorem load_default_only_when_absent_or_falsy (item : option string) :
  (item = None → Json.load item = Json.Returns Json.default_collection)
  ∧ (∀ text, item = Some text →
       (Json.JSON_parse text = None → Json.load item = Json.Throws SyntaxError)
       ∧ (∀ v, Json.JSON_parse text = Some v →
            Json.load item
            = Json.Returns (if Json.truthy v then v else Json.default_collection))).
Proof.
  split.
  - by intros ->.
  - intros text ->. unfold Json.load. simpl. split.
    + by intros ->.
    + by intros v ->.
Qed.

Lemma load_default_only_when_absent_or_falsy_witness :
  Json.load None = Json.Returns Json.default_collection
  ∧ Json.load (Some "nul") = Json.Throws SyntaxError
  ∧ Json.load (Some " false ") = Json.Returns Json.default_collection.
Proof.
  split; [|split].
  - exact (proj1 (load_default_only_when_absent_or_falsy None) eq_refl).
  - exact (proj1 (proj2 (load_default_only_when_absent_or_falsy (Some "nul")) "nul" eq_refl)
             eq_refl).
  - exact (proj2 (proj2 (load_default_only_when_absent_or_falsy (Some " false ")) " false "
                    eq_refl)
             (Json.JBool false) eq_refl).
Defined.

(** ** The three scenarios of the spec, by evaluation *)

(** Scenario A: the empty store and a snapshot of one item of the want shelf. *)
Example scenario_A :
  mergeRemoteIntoLocal "now" empty_library [sample_item "b1" 7 "want"]
  = {| lib_current := [];
       lib_want := [remoteBook "now" None (sample_item "b1" 7 "want")];
       lib_finished := [] |}.
Proof. by vm_compute. Qed.

(** Scenario B: an unsynced book, 40% read, and an empty snapshot. *)
Example scenario_B :
  mergeRemoteIntoLocal "now" b1_reading [] = b1_reading
  ∧ syncLocalToBackend (Some {| user_id := 1 |}) (world_of b1_reading)
    = Some [{| si_book := sample_book "b1" None (Some 40); si_shelf := "current" |}].
Proof. split; by vm_compute. Qed.

(** Scenario C: [b1] on want locally, on finished with id 7 in the snapshot. *)
Example scenario_C :
  mergeRemoteIntoLocal "now" b1_on_want [sample_item "b1" 7 "finished"]
  = {| lib_current := [];
       lib_want := [];
       lib_finished := [remoteBook "now" (Some (sample_book "b1" None None))
                          (sample_item "b1" 7 "finished")] |}
  ∧ b_db_id (remoteBook "now" (Some (sample_book "b1" None None))
               (sample_item "b1" 7 "finished")) = Some 7.
Proof. split; by vm_compute. Qed.

(** A snapshot record that names no shelf, for a book that is on a shelf:
    the loop throws after the old shelf has been filtered, the instance has
    lost the book and the storage still has it. *)
Example unknown_shelf_in_conflict (sorting : option (list Book → list Book)) :
  syncWithBackend (Some {| user_id := 1 |}) (Ok [sample_item "b1" 7 "favorites"]) "now"
    sorting (world_of b1_on_want)
  = {| library := empty_library; storage := Some b1_on_want |}.
Proof. by vm_compute. Qed.

(** A snapshot record of a new book whose shelf is a name the library
    inherits: the guard lets it through, [push] throws, the loop ends and
    the record after it is not inserted.  A name under which the library has
    nothing is skipped and the loop goes on. *)
Example inherited_shelf_name :
  merge "now" b1_on_want [sample_item "b2" 5 "constructor"; sample_item "b3" 6 "want"]
  = (Throw TypeError, {| m_library := b1_on_want; m_map := local_index b1_on_want |})
  ∧ mergeRemoteIntoLocal "now" b1_on_want
      [sample_item "b2" 5 "favorites"; sample_item "b3" 6 "want"]
    = {| lib_current := [];
         lib_want := [sample_book "b1" None None;
                      remoteBook "now" None (sample_item "b3" 6 "want")];
         lib_finished := [] |}.
Proof. split; by vm_compute. Qed.

(** * The rest of the shelf code *)

(** ** The three lookups of [LibraryManager] *)

Lemma find_first id books book :
  List.find (λ b, bool_decide (b_id b = id)) books = Some book →
  ∃ l1 l2, books = l1 ++ book :: l2 ∧ b_id book = id ∧ has_id id l1 = false.
Proof.
  induction books as [|b books IH]; simpl; [done|].
  case_bool_decide as Hb.
  - intros [= ->]. by exists [], books.
  - intros H. destruct (IH H) as (l1 & l2 & -> & ? & Hl1).
    exists (b :: l1), l2. split; [done|]. split; [done|]. simpl.
    by rewrite Hl1, bool_decide_eq_false_2.
Qed.

Lemma find_None_has_id id books :
  List.find (λ b, bool_decide (b_id b = id)) books = None → has_id id books = false.
Proof. intros H. by rewrite find_has_id, H. Qed.

(** [findBook], [findBookShelf] and [findBookInShelf] agree: the first says
    yes exactly when the second returns a shelf, the third returns that
    shelf, which is the first one in key order that holds the id, with the
    first record of the id on it. *)
Theorem lookups_agree (lib : Library) (id : string) :
  (findBook lib id = true ↔ is_Some (findBookShelf lib id))
  ∧ fst <$> findBookInShelf lib id = findBookShelf lib id
  ∧ (∀ s book, findBookInShelf lib id = Some (s, book) →
       (∀ s', has_id id (get lib s') = true → (position s ≤ position s')%nat)
       ∧ ∃ l1 l2, get lib s = l1 ++ book :: l2 ∧ b_id book = id ∧ has_id id l1 = false).
Proof.
  split; [|split].
  - destruct (findBookShelf lib id) as [s|] eqn:Hs.
    + split; [by eauto|]. intros _. apply findBook_true. exists s. by apply findBookShelf_Some.
    + apply findBookShelf_None in Hs. rewrite Hs. split; [done|]. by intros [? [=]].
  - apply findBookInShelf_shelf.
  - intros s book. unfold findBookInShelf, shelves. cbn [findBookInShelf_from].
    destruct (List.find _ (get lib current)) as [b0|] eqn:H0.
    { intros [= <- <-]. split; [|by apply find_first].
      intros s' _. simpl. lia. }
    apply find_None_has_id in H0.
    destruct (List.find _ (get lib want)) as [b1|] eqn:H1.
    { intros [= <- <-]. split; [|by apply find_first].
      intros [] Hs'; simpl; [congruence|lia|lia]. }
    apply find_None_has_id in H1.
    destruct (List.find _ (get lib finished)) as [b2|] eqn:H2; [|done].
    intros [= <- <-]. split; [|by apply find_first].
    intros [] Hs'; simpl; [congruence|congruence|lia].
Qed.

Lemma lookups_agree_witness :
  ∃ l1 l2, get b1_want_b2_current want = l1 ++ sample_book "b1" None None :: l2
           ∧ b_id (sample_book "b1" None None) = "b1"%string ∧ has_id "b1" l1 = false.
Proof.
  destruct (lookups_agree b1_want_b2_current "b1") as (_ & _ & H).
  exact (proj2 (H want (sample_book "b1" None None) eq_refl)).
Defined.

(** ** [moveBook] when the book is on the source shelf *)

Lemma list_find_first bookId l1 book l2 :
  b_id book = bookId → has_id bookId l1 = false →
  list_find (λ b, b_id b = bookId) (l1 ++ book :: l2) = Some (length l1, book).
Proof.
  intros Hb Hl1. apply list_find_Some. split; [by apply list_lookup_middle|].
  split; [done|]. intros j y Hj Hlt. rewrite lookup_app_l in Hj by done.
  rewrite has_id_false in Hl1. apply Hl1. by eapply list_elem_of_lookup_2.
Qed.

(** [moveBook(bookId, fromShelf, toShelf)] between two different shelves,
    when the stored source shelf holds the id: the first record of the id
    leaves the source shelf and is appended, unchanged, to the target shelf;
    the third shelf and the [LibraryManager] instance are left as they are,
    and the result is the new stored item. *)
Theorem moveBook_moves (bookId : string) (fromShelf toShelf : Shelf) (w : World)
    (l1 : list Book) (book : Book) (l2 : list Book) :
  fromShelf ≠ toShelf →
  get (in_storage w) fromShelf = l1 ++ book :: l2 →
  b_id book = bookId →
  has_id bookId l1 = false →
  ∃ lib', moveBook bookId fromShelf toShelf w
          = (Normal, {| library := library w; storage := Some lib' |})
    ∧ get lib' fromShelf = l1 ++ l2
    ∧ get lib' toShelf = get (in_storage w) toShelf ++ [book]
    ∧ ∀ s, s ≠ fromShelf → s ≠ toShelf → get lib' s = get (in_storage w) s.
Proof.
  intros Hne Hfrom Hb Hl1. unfold moveBook, in_storage in *.
  rewrite bool_decide_eq_false_2 by done.
  rewrite Hfrom, (list_find_first _ _ _ _ Hb Hl1), delete_middle.
  eexists. split; [done|].
  rewrite get_push_ne, get_set by done.
  rewrite get_push, get_set_ne by done.
  split; [done|]. split; [done|].
  intros s ? ?. by rewrite get_push_ne, get_set_ne.
Qed.

Lemma moveBook_moves_witness :
  ∃ lib', moveBook "b1" want finished (world_of b1_want_b2_current)
          = (Normal, {| library := b1_want_b2_current; storage := Some lib' |})
    ∧ get lib' want = [] ++ []
    ∧ get lib' finished = [] ++ [sample_book "b1" None None]
    ∧ ∀ s, s ≠ want → s ≠ finished → get lib' s = get b1_want_b2_current s.
Proof.
  apply (moveBook_moves "b1" want finished (world_of b1_want_b2_current)
           [] (sample_book "b1" None None) []); [discriminate|reflexivity..].
Defined.

Lemma books_of_set_Permutation lib s books :
  books_of (set lib s books) ++ get lib s ≡ₚ books_of lib ++ books.
Proof. destruct s; unfold books_of; simpl; solve_Permutation. Qed.

(** [moveBook] never loses, duplicates or changes a record: the books of
    the stored collection after the call are those before it, in another
    order at most; and it never touches the [LibraryManager] instance. *)
Theorem moveBook_conserves (bookId : string) (fromShelf toShelf : Shelf) (w : World) :
  books_of (in_storage (snd (moveBook bookId fromShelf toShelf w))) ≡ₚ books_of (in_storage w)
  ∧ library (snd (moveBook bookId fromShelf toShelf w)) = library w.
Proof.
  unfold moveBook. case_bool_decide as Hne; [done|].
  fold (in_storage w).
  destruct (list_find _ _) as [[i book]|] eqn:Hfind; [|done].
  split; [|done]. unfold in_storage at 1. simpl.
  apply list_find_Some in Hfind as (Hi & _ & _).
  apply delete_Permutation in Hi.
  set (L := in_storage w) in *.
  set (D := delete i (get L fromShelf)) in *.
  set (R := set L fromShelf D).
  assert (get R toShelf = get L toShelf) as HT by (unfold R; by rewrite get_set_ne).
  pose proof (books_of_set_Permutation R toShelf (get R toShelf ++ [book])) as H1.
  pose proof (books_of_set_Permutation L fromShelf D) as H2.
  fold R in H2. unfold push. rewrite HT in *.
  clearbody D R.
  apply (Permutation_app_inv_r (get L toShelf ++ get L fromShelf)).
  rewrite (assoc_L (++)), H1.
  transitivity ((books_of R ++ get L fromShelf) ++ get L toShelf ++ [book]);
    [solve_Permutation|].
  rewrite H2, Hi. solve_Permutation.
Qed.

(** ** [removeBook] of the 3D shelves *)

Lemma shelves_ext {A} (a b : Shelves A) : (∀ s, get a s = get b s) → a = b.
Proof.
  intros H. destruct a, b.
  pose proof (H current). pose proof (H want). pose proof (H finished).
  simpl in *. by subst.
Qed.

Lemma list_find_id_Some bookId books i b :
  list_find (λ b, b_id b = bookId) books = Some (i, b) →
  ∃ l1 l2, books = l1 ++ b :: l2 ∧ i = length l1 ∧ b_id b = bookId ∧ has_id bookId l1 = false.
Proof.
  intros (Hi & Hb & Hbefore)%list_find_Some.
  exists (take i books), (drop (S i) books).
  split; [by rewrite take_drop_middle|].
  assert (i < length books)%nat by (by eapply lookup_lt_Some).
  split; [rewrite length_take; lia|]. split; [done|].
  apply has_id_false. intros b' Hb'.
  apply list_elem_of_lookup in Hb' as [j Hj].
  apply lookup_take_Some in Hj as [Hj Hlt]. by eapply Hbefore.
Qed.

Lemma has_id_list_find bookId books :
  has_id bookId books =
    match list_find (λ b, b_id b = bookId) books with Some _ => true | None => false end.
Proof.
  destruct (list_find _ books) as [[i b]|] eqn:Hfind.
  - apply list_find_id_Some in Hfind as (l1 & l2 & -> & _ & Hb & _).
    apply has_id_true. exists b. split; [|done]. apply elem_of_app. right. by left.
  - apply list_find_None in Hfind. apply has_id_false. intros b Hb.
    by eapply Forall_forall in Hfind.
Qed.

Lemma remove_first_absent bookId books :
  has_id bookId books = false → remove_first bookId books = books.
Proof. intros H. unfold remove_first. by rewrite (list_find_id_None _ _ H). Qed.

Lemma remove_first_middle bookId l1 b l2 :
  b_id b = bookId → has_id bookId l1 = false →
  remove_first bookId (l1 ++ b :: l2) = l1 ++ l2.
Proof.
  intros Hb Hl1. unfold remove_first.
  by rewrite (list_find_first _ _ _ _ Hb Hl1), delete_middle.
Qed.

(** On a shelf, a record is the first of its id, or the shelf lacks the id. *)
Lemma first_or_absent bookId books :
  has_id bookId books = false
  ∨ ∃ l1 b l2, books = l1 ++ b :: l2 ∧ b_id b = bookId ∧ has_id bookId l1 = false.
Proof.
  rewrite has_id_list_find.
  destruct (list_find _ books) as [[i b]|] eqn:Hfind; [right|by left].
  apply list_find_id_Some in Hfind as (l1 & l2 & ? & _ & ? & ?). by exists l1, b, l2.
Qed.

Lemma remove_first_records bookId books :
  records_with bookId (remove_first bookId books) = tail (records_with bookId books)
  ∧ without_id bookId (remove_first bookId books) = without_id bookId books.
Proof.
  destruct (first_or_absent bookId books) as [Habs|(l1 & b & l2 & -> & Hb & Hl1)].
  - rewrite (remove_first_absent _ _ Habs). split; [|done].
    apply records_with_absent in Habs. by rewrite Habs.
  - rewrite (remove_first_middle _ _ _ _ Hb Hl1).
    apply records_with_absent in Hl1 as Hrec. split.
    + rewrite !records_with_app, Hrec. simpl.
      unfold records_with at 2. rewrite filter_cons_True by done. done.
    + unfold without_id. rewrite !filter_app, filter_cons_False; [done|]. by intros [].
Qed.

Lemma remove_first_unique bookId books :
  NoDup (b_id <$> books) → remove_first bookId books = without_id bookId books.
Proof.
  intros Hnd.
  destruct (first_or_absent bookId books) as [Habs|(l1 & b & l2 & -> & Hb & Hl1)].
  - by rewrite remove_first_absent, without_id_absent.
  - rewrite (remove_first_middle _ _ _ _ Hb Hl1), without_id_single; [done..|].
    apply not_true_iff_false. rewrite has_id_elem. intros Hin.
    rewrite fmap_app, fmap_cons in Hnd.
    apply NoDup_app in Hnd as (_ & _ & Hr). apply NoDup_cons in Hr as [Hr _].
    apply Hr. by rewrite Hb.
Qed.

Lemma remove_from_round bookId st shelf :
  Library3D.remove_from bookId st shelf
  = (set st.1 shelf (remove_first bookId (get st.1 shelf)),
     st.2 || has_id bookId (get st.1 shelf)).
Proof.
  unfold Library3D.remove_from, remove_first. rewrite has_id_list_find.
  destruct st as [lib removed]. simpl.
  destruct (list_find _ (get lib shelf)) as [[i b]|]; simpl.
  - by rewrite orb_true_r.
  - rewrite orb_false_r. f_equal. apply shelves_ext. intros s.
    destruct (decide (s = shelf)) as [->|?]; [by rewrite get_set|by rewrite get_set_ne].
Qed.

Lemma removeBook3D_rounds bookId lib :
  (∀ s, get (foldl (Library3D.remove_from bookId) (lib, false) shelves).1 s
        = remove_first bookId (get lib s))
  ∧ (foldl (Library3D.remove_from bookId) (lib, false) shelves).2 = findBook lib bookId.
Proof.
  unfold shelves. cbn [foldl]. rewrite !remove_from_round. cbn [fst snd].
  split.
  - intros []; repeat first [rewrite get_set | rewrite get_set_ne by done]; done.
  - unfold findBook, shelves. cbn [existsb]. rewrite orb_false_r, orb_false_l.
    rewrite !get_set_ne by done. by rewrite orb_assoc.
Qed.

Lemma removeBook3D_get bookId w s :
  get (in_storage (Library3D.removeBook bookId w)) s
  = remove_first bookId (get (in_storage w) s).
Proof.
  unfold Library3D.removeBook. fold (in_storage w).
  destruct (removeBook3D_rounds bookId (in_storage w)) as [Hget Hflag].
  rewrite Hflag. destruct (findBook (in_storage w) bookId) eqn:Hfb.
  - exact (Hget s).
  - symmetry. apply remove_first_absent. by apply findBook_false.
Qed.

(** [removeBook(bookId)] of the 3D shelves takes the first record of the id
    off every stored shelf and nothing else: on each shelf the records of
    the id lose their first one and the records of the other ids stay as
    they are, in their order.  The [LibraryManager] instance is not touched,
    and when no shelf holds the id nothing is written. *)
Theorem removeBook3D_first_of_each_shelf (bookId : string) (w : World) :
  library (Library3D.removeBook bookId w) = library w
  ∧ (∀ s, records_with bookId (get (in_storage (Library3D.removeBook bookId w)) s)
          = tail (records_with bookId (get (in_storage w) s))
          ∧ without_id bookId (get (in_storage (Library3D.removeBook bookId w)) s)
            = without_id bookId (get (in_storage w) s))
  ∧ (findBook (in_storage w) bookId = false → Library3D.removeBook bookId w = w).
Proof.
  split; [|split].
  - unfold Library3D.removeBook. by destruct (foldl _ _ _).2.
  - intros s. rewrite removeBook3D_get. apply remove_first_records.
  - intros Hfb. unfold Library3D.removeBook. fold (in_storage w).
    destruct (removeBook3D_rounds bookId (in_storage w)) as [_ Hflag].
    by rewrite Hflag, Hfb.
Qed.

Lemma removeBook3D_first_of_each_shelf_witness :
  Library3D.removeBook "b3" (world_of b1_want_b2_current) = world_of b1_want_b2_current.
Proof.
  apply (removeBook3D_first_of_each_shelf "b3" (world_of b1_want_b2_current)).
  reflexivity.
Defined.

Lemma removeBook_library id lib :
  one_shelf lib →
  ∀ s, get (library (snd (removeBook id (world_of lib)))) s = without_id id (get lib s).
Proof.
  intros Hone s. destruct (findBookShelf lib id) as [s0|] eqn:Hs0.
  - rewrite (removeBook_found id (world_of lib) s0 Hs0). simpl.
    destruct (decide (s = s0)) as [->|Hne]; [by rewrite get_set|].
    rewrite get_set_ne by done. symmetry. apply without_id_absent.
    apply not_true_iff_false. intros Hs. apply Hne, (Hone id); [done|].
    by apply findBookShelf_Some.
  - apply findBookShelf_None in Hs0. rewrite (removeBook_absent id (world_of lib) Hs0). simpl.
    symmetry. apply without_id_absent. by apply findBook_false.
Qed.

(** On a stored collection whose ids are unique, [removeBook] of the 3D
    shelves and [removeBook] of [LibraryManager] compute the same
    collection, and the id is on no shelf afterwards. *)
Theorem removeBook3D_agrees (bookId : string) (w : World) :
  unique_ids (in_storage w) →
  in_storage (Library3D.removeBook bookId w)
  = library (snd (LibraryManager.removeBook bookId (world_of (in_storage w))))
  ∧ findBook (in_storage (Library3D.removeBook bookId w)) bookId = false.
Proof.
  intros [Hnd Hone]%unique_ids_split.
  assert (∀ s, get (in_storage (Library3D.removeBook bookId w)) s
               = without_id bookId (get (in_storage w) s)) as Hget.
  { intros s. rewrite removeBook3D_get. by apply remove_first_unique. }
  split.
  - apply shelves_ext. intros s. by rewrite Hget, removeBook_library.
  - apply findBook_false. intros s. rewrite Hget.
    apply not_true_iff_false. rewrite has_id_without. tauto.
Qed.

Lemma removeBook3D_agrees_witness :
  in_storage (Library3D.removeBook "b1" (world_of b1_want_b2_current))
  = library (snd (LibraryManager.removeBook "b1" (world_of (in_storage (world_of b1_want_b2_current)))))
  ∧ findBook (in_storage (Library3D.removeBook "b1" (world_of b1_want_b2_current))) "b1" = false.
Proof.
  apply (removeBook3D_agrees "b1" (world_of b1_want_b2_current)).
  apply (bool_decide_unpack _). vm_compute. exact I.
Defined.

(** ** [addToLibrary] of the 3D shelves *)

Lemma has_id_books_of id lib : has_id id (books_of lib) = findBook lib id.
Proof.
  unfold books_of, findBook, shelves. rewrite !has_id_app. simpl.
  by rewrite orb_false_r.
Qed.

Lemma in_storage_Some l lib : in_storage {| library := l; storage := Some lib |} = lib.
Proof. reflexivity. Qed.

Lemma addToLibrary_cases book w :
  Library3D.addToLibrary book w
  = if findBook (in_storage w) (Library3D.f_id book) then w
    else {| library := library w;
            storage := Some (push (in_storage w) want (Library3D.new_record book)) |}.
Proof. unfold Library3D.addToLibrary. by rewrite <- has_id_books_of. Qed.

Lemma findBook_push_new lib s book : findBook (push lib s book) (b_id book) = true.
Proof.
  apply findBook_true. exists s. rewrite get_push, has_id_app. simpl.
  by rewrite bool_decide_eq_true_2, orb_true_r.
Qed.

(** [addToLibrary(book)] is idempotent: a second call changes nothing. *)
Theorem addToLibrary_idempotent (book : Library3D.FlatBook) (w : World) :
  Library3D.addToLibrary book (Library3D.addToLibrary book w) = Library3D.addToLibrary book w.
Proof.
  rewrite (addToLibrary_cases book w).
  destruct (findBook (in_storage w) (Library3D.f_id book)) eqn:Hfb.
  - by rewrite addToLibrary_cases, Hfb.
  - assert (findBook (push (in_storage w) want (Library3D.new_record book))
              (Library3D.f_id book) = true) as Hnew
      by apply (findBook_push_new _ want (Library3D.new_record book)).
    by rewrite addToLibrary_cases, in_storage_Some, Hnew.
Qed.

(** After [addToLibrary(book)] the stored collection holds the book's id.
    The call changes nothing when it already did; it never touches the
    [LibraryManager] instance; and it keeps the stored ids unique. *)
Theorem addToLibrary_holds_once (book : Library3D.FlatBook) (w : World) :
  findBook (in_storage (Library3D.addToLibrary book w)) (Library3D.f_id book) = true
  ∧ library (Library3D.addToLibrary book w) = library w
  ∧ (findBook (in_storage w) (Library3D.f_id book) = true → Library3D.addToLibrary book w = w)
  ∧ (unique_ids (in_storage w) → unique_ids (in_storage (Library3D.addToLibrary book w))).
Proof.
  rewrite addToLibrary_cases.
  destruct (findBook (in_storage w) (Library3D.f_id book)) eqn:Hfb; [done|].
  split; [|split; [done|split; [done|]]].
  - rewrite in_storage_Some.
    apply (findBook_push_new _ want (Library3D.new_record book)).
  - intros Hu. rewrite in_storage_Some. by apply unique_ids_push.
Qed.

Lemma addToLibrary_holds_once_witness :
  Library3D.addToLibrary (sample_flat "b1") (world_of b1_want_b2_current)
  = world_of b1_want_b2_current
  ∧ unique_ids (in_storage (Library3D.addToLibrary (sample_flat "b3")
                              (world_of b1_want_b2_current))).
Proof.
  split.
  - apply (addToLibrary_holds_once (sample_flat "b1") (world_of b1_want_b2_current)).
    reflexivity.
  - apply (addToLibrary_holds_once (sample_flat "b3") (world_of b1_want_b2_current)).
    apply (bool_decide_unpack _). vm_compute. exact I.
Defined.

(** ** The shelf selector of the modal *)

Lemma currentShelf_cases bookId w :
  Library3D.currentShelf bookId w =
    if has_id bookId (get (in_storage w) finished) then finished
    else if has_id bookId (get (in_storage w) want) then want
    else current.
Proof.
  unfold Library3D.currentShelf, shelves. fold (in_storage w). cbn [foldl].
  rewrite !find_has_id.
  destruct (List.find (λ b, bool_decide (b_id b = bookId)) (get (in_storage w) finished));
    [done|].
  destruct (List.find (λ b, bool_decide (b_id b = bookId)) (get (in_storage w) want));
    [done|].
  by destruct (List.find (λ b, bool_decide (b_id b = bookId)) (get (in_storage w) current)).
Qed.

Lemma currentShelf_holds bookId w :
  findBook (in_storage w) bookId = true →
  has_id bookId (get (in_storage w) (Library3D.currentShelf bookId w)) = true.
Proof.
  rewrite currentShelf_cases, findBook_true. intros [s Hs].
  destruct (has_id bookId (get (in_storage w) finished)) eqn:Hf; [done|].
  destruct (has_id bookId (get (in_storage w) want)) eqn:Hw; [done|].
  destruct s; congruence.
Qed.

(** The shelf the modal shows for a stored book is the shelf
    [findBookShelf] finds, when the stored collection keeps each id on one
    shelf: the last shelf that holds the id is then the first one. *)
Theorem currentShelf_agrees (bookId : string) (w : World) :
  one_shelf (in_storage w) →
  findBook (in_storage w) bookId = true →
  findBookShelf (in_storage w) bookId = Some (Library3D.currentShelf bookId w).
Proof.
  intros Hone Hfb. apply findBookShelf_one_shelf; [done|]. by apply currentShelf_holds.
Qed.

Lemma currentShelf_agrees_witness :
  findBookShelf (in_storage (world_of b1_want_b2_current)) "b1"
  = Some (Library3D.currentShelf "b1" (world_of b1_want_b2_current)).
Proof.
  apply (currentShelf_agrees "b1" (world_of b1_want_b2_current)); [|reflexivity].
  intros id [] []; simpl; try discriminate; try reflexivity;
    repeat case_bool_decide; simpl; congruence.
Defined.

Lemma moveBook_stored_unique bookId fromShelf toShelf w :
  unique_ids (in_storage w) →
  unique_ids (in_storage (snd (moveBook bookId fromShelf toShelf w))).
Proof.
  intros Hstored. unfold moveBook. case_bool_decide as Hne; [done|].
  fold (in_storage w).
  destruct (list_find _ _) as [[i book]|] eqn:Hfind; [|done].
  cbn [snd]. rewrite in_storage_Some.
  apply list_find_Some in Hfind as (Hi & _ & _).
  apply unique_ids_split in Hstored as Hparts. destruct Hparts as [Hnd Hone].
  apply unique_ids_push.
  - eapply unique_ids_sublist; [|exact Hstored]. apply set_sublist, sublist_delete.
  - apply findBook_false. intros s'. destruct (decide (s' = fromShelf)) as [->|Hs'].
    + rewrite get_set. by apply has_id_delete.
    + rewrite get_set_ne by done. apply not_true_iff_false. intros H.
      apply Hs', (Hone (b_id book)); [done|].
      apply has_id_true. exists book. split; [|done]. by eapply list_elem_of_lookup_2.
Qed.

Lemma moveBook_lands bookId fromShelf toShelf w :
  has_id bookId (get (in_storage w) fromShelf) = true →
  has_id bookId (get (in_storage (snd (moveBook bookId fromShelf toShelf w))) toShelf) = true.
Proof.
  intros Hfrom. unfold moveBook. case_bool_decide as Hne; [by subst|].
  fold (in_storage w). rewrite has_id_list_find in Hfrom.
  destruct (list_find _ _) as [[i book]|] eqn:Hfind; [|done].
  cbn [snd]. rewrite in_storage_Some, get_push, has_id_app.
  apply list_find_Some in Hfind as (_ & Hb & _). simpl.
  by rewrite bool_decide_eq_true_2, orb_true_r.
Qed.

(** In an open modal the variable [currentShelf] keeps naming the shelf
    that holds the book: for a stored collection with unique ids that holds
    the book, after any sequence of choices in the shelf selector the book
    is on the shelf chosen last (on the shelf found at opening when nothing
    was chosen) and on no other, and the stored ids are still unique. *)
Theorem modal_tracks_shelf (bookId : string) (w : World) (choices : list Shelf) :
  unique_ids (in_storage w) →
  findBook (in_storage w) bookId = true →
  findBookShelf
    (in_storage (Library3D.m_world
                   (foldl (Library3D.select bookId) (Library3D.openModal bookId w) choices)))
    bookId
  = Some (Library3D.m_currentShelf
            (foldl (Library3D.select bookId) (Library3D.openModal bookId w) choices))
  ∧ unique_ids
      (in_storage (Library3D.m_world
                     (foldl (Library3D.select bookId) (Library3D.openModal bookId w) choices))).
Proof.
  intros Hu Hfb.
  assert (∀ m,
    unique_ids (in_storage (Library3D.m_world m)) →
    has_id bookId (get (in_storage (Library3D.m_world m)) (Library3D.m_currentShelf m)) = true →
    unique_ids (in_storage (Library3D.m_world (foldl (Library3D.select bookId) m choices)))
    ∧ has_id bookId
        (get (in_storage (Library3D.m_world (foldl (Library3D.select bookId) m choices)))
           (Library3D.m_currentShelf (foldl (Library3D.select bookId) m choices))) = true)
    as Hinv.
  { induction choices as [|newShelf choices IH]; intros m Hm Hcur; [done|].
    cbn [foldl]. apply IH; unfold Library3D.select; cbn [Library3D.m_world Library3D.m_currentShelf].
    - by apply moveBook_stored_unique.
    - by apply moveBook_lands. }
  destruct (Hinv (Library3D.openModal bookId w)) as [Hu' Hcur']; [done| |].
  { by apply currentShelf_holds. }
  split; [|done]. apply findBookShelf_one_shelf; [|done]. by apply unique_ids_one_shelf.
Qed.

Lemma modal_tracks_shelf_witness :
  findBookShelf
    (in_storage (Library3D.m_world
                   (foldl (Library3D.select "b1")
                      (Library3D.openModal "b1" (world_of b1_want_b2_current))
                      [finished; current])))
    "b1"
  = Some current.
Proof.
  apply (modal_tracks_shelf "b1" (world_of b1_want_b2_current) [finished; current]);
    [|reflexivity].
  apply (bool_decide_unpack _). vm_compute. exact I.
Defined.

(** ** The heart button of a card *)

Lemma findBookShelf_only lib id s :
  has_id id (get lib s) = true →
  (∀ s', s' ≠ s → has_id id (get lib s') = false) →
  findBookShelf lib id = Some s.
Proof.
  intros Hs Hother. unfold findBookShelf, shelves. cbn [List.find].
  destruct s.
  - by rewrite Hs.
  - by rewrite (Hother current), Hs.
  - by rewrite (Hother current), (Hother want), Hs.
Qed.

Lemma addBook_new book shelf now w s :
  findBook (library w) (b_id book) = false →
  shelf_of_string shelf = Some s →
  addBook book shelf now w
  = (Normal, world_of (push (library w) s (enrichedBook book shelf now))).
Proof. intros Hfb Hs. unfold addBook, addBook_check. by rewrite Hfb, Hs. Qed.

(** A click on the heart flips what [findBook] says of the book, when the
    collection keeps each id on one shelf and the card's shelf is one of the
    three: a book of the library is on no shelf afterwards, a book that was
    on no shelf is in the library afterwards. *)
Theorem toggle_flips (bookData : Book) (shelf : option string) (now : string)
    (w : World) (s : Shelf) :
  one_shelf (library w) →
  shelf_of_string (if truthy_str shelf then default "want"%string shelf else "want"%string)
  = Some s →
  findBook (library (snd (BookRenderer.toggle bookData shelf now w))) (b_id bookData)
  = negb (findBook (library w) (b_id bookData)).
Proof.
  intros Hone Hs. unfold BookRenderer.toggle.
  destruct (findBook (library w) (b_id bookData)) eqn:Hfb.
  - destruct (findBookShelf (library w) (b_id bookData)) as [s0|] eqn:Hs0.
    2:{ apply findBookShelf_None in Hs0. congruence. }
    cbn [snd negb]. rewrite (removeBook_found _ _ _ Hs0). cbn [snd library].
    apply findBook_after_without; [done|]. by apply findBookShelf_Some.
  - rewrite (addBook_new _ _ _ _ _ Hfb Hs). cbn [snd negb world_of library].
    apply (findBook_push_new _ s (enrichedBook bookData _ now)).
Qed.

Lemma toggle_flips_witness :
  findBook (library (snd (BookRenderer.toggle (sample_book "b1" None None) None "now"
                            (world_of b1_want_b2_current)))) "b1"
  = negb (findBook (library (world_of b1_want_b2_current)) "b1").
Proof.
  apply (toggle_flips (sample_book "b1" None None) None "now"
           (world_of b1_want_b2_current) want); [|reflexivity].
  intros id [] []; simpl; try discriminate; try reflexivity;
    repeat case_bool_decide; simpl; congruence.
Defined.

(** Two clicks on the heart of a book that is on no shelf add it and remove
    it again: both end normally and the collection is back as it was, now
    also written to the storage. *)
Theorem toggle_twice_restores (bookData : Book) (shelf : option string) (now now' : string)
    (w : World) (s : Shelf) :
  findBook (library w) (b_id bookData) = false →
  shelf_of_string (if truthy_str shelf then default "want"%string shelf else "want"%string)
  = Some s →
  fst (BookRenderer.toggle bookData shelf now w) = Normal
  ∧ BookRenderer.toggle bookData shelf now' (snd (BookRenderer.toggle bookData shelf now w))
    = (Normal, world_of (library w)).
Proof.
  intros Hfb Hs.
  set (book := enrichedBook bookData
                 (if truthy_str shelf then default "want"%string shelf else "want"%string) now).
  assert (BookRenderer.toggle bookData shelf now w
          = (Normal, world_of (push (library w) s book))) as ->.
  { unfold BookRenderer.toggle. rewrite Hfb. by apply addBook_new. }
  split; [done|]. cbn [snd].
  unfold BookRenderer.toggle. cbn [world_of library].
  rewrite (findBook_push_new _ s book : findBook (push (library w) s book) (b_id bookData) = true).
  rewrite findBook_false in Hfb.
  assert (findBookShelf (push (library w) s book) (b_id bookData) = Some s) as Hshelf.
  { apply findBookShelf_only.
    - rewrite get_push, has_id_app. simpl. by rewrite bool_decide_eq_true_2, orb_true_r.
    - intros s' Hs'. rewrite get_push_ne by done. apply Hfb. }
  rewrite (removeBook_found (b_id bookData) (world_of (push (library w) s book)) s Hshelf).
  cbn [snd world_of library].
  assert (set (push (library w) s book) s
            (without_id (b_id bookData) (get (push (library w) s book) s)) = library w) as ->;
    [|done].
  apply shelves_ext. intros s'. destruct (decide (s' = s)) as [->|Hs'].
  - rewrite get_set, get_push. unfold without_id. rewrite filter_app.
    rewrite filter_cons_False by (by intros []). rewrite filter_nil, app_nil_r.
    apply without_id_absent, Hfb.
  - by rewrite get_set_ne, get_push_ne.
Qed.

Lemma toggle_twice_restores_witness :
  BookRenderer.toggle (sample_book "b3" None None) (Some "current"%string) "later"
    (snd (BookRenderer.toggle (sample_book "b3" None None) (Some "current"%string) "now"
            (world_of b1_want_b2_current)))
  = (Normal, world_of (library (world_of b1_want_b2_current))).
Proof.
  apply (toggle_twice_restores (sample_book "b3" None None) (Some "current"%string)
           "now" "later" (world_of b1_want_b2_current) current); reflexivity.
Defined.

(** ** [addBook] with a name that is not a shelf *)

(** [addBook(book, shelf)] with a [shelf] that is none of the three names
    throws a [TypeError].  When the book was on no shelf nothing has
    changed; when it was on a shelf, in a collection that keeps each id on
    one shelf, the book has been removed from it before the throw and the
    removal has been written to the storage: the book is on no shelf. *)
Theorem addBook_unknown_shelf (book : Book) (shelf now : string) (w : World) :
  shelf_of_string shelf = None →
  fst (addBook book shelf now w) = Throw TypeError
  ∧ (findBook (library w) (b_id book) = false → snd (addBook book shelf now w) = w)
  ∧ (findBook (library w) (b_id book) = true →
     snd (addBook book shelf now w) = snd (removeBook (b_id book) w)
     ∧ storage (snd (addBook book shelf now w)) = Some (library (snd (addBook book shelf now w)))
     ∧ (one_shelf (library w) →
        findBook (library (snd (addBook book shelf now w))) (b_id book) = false)).
Proof.
  intros Hshelf. unfold addBook, addBook_check.
  destruct (findBook (library w) (b_id book)) eqn:Hfb.
  - destruct (findBookShelf (library w) (b_id book)) as [s0|] eqn:Hs0.
    2:{ apply findBookShelf_None in Hs0. congruence. }
    rewrite bool_decide_eq_false_2.
    2:{ intros Hname. apply shelf_of_string_name in Hname. congruence. }
    rewrite Hshelf. split; [done|]. split; [done|]. intros _. cbn [snd].
    split; [done|]. rewrite (removeBook_found _ _ _ Hs0). cbn [snd library storage].
    split; [done|]. intros Hone.
    apply findBook_after_without; [done|]. by apply findBookShelf_Some.
  - rewrite Hshelf. split; [done|]. split; [done|]. done.
Qed.

Lemma addBook_unknown_shelf_witness :
  fst (addBook (sample_book "b1" None None) "favorites" "now" (world_of b1_want_b2_current))
  = Throw TypeError
  ∧ findBook (library (snd (addBook (sample_book "b1" None None) "favorites" "now"
                              (world_of b1_want_b2_current)))) "b1" = false.
Proof.
  destruct (addBook_unknown_shelf (sample_book "b1" None None) "favorites" "now"
              (world_of b1_want_b2_current) eq_refl) as (Hthrow & _ & Hfound).
  split; [exact Hthrow|].
  destruct (Hfound eq_refl) as (_ & _ & Hgone). apply Hgone.
  intros id [] []; simpl; try discriminate; try reflexivity;
    repeat case_bool_decide; simpl; congruence.
Defined.

(** ** The hash of the rendering code *)

Lemma ToInt32_range z : - 2 ^ 31 ≤ ToInt32 z < 2 ^ 31.
Proof.
  unfold ToInt32. pose proof (Z.mod_pos_bound (z + 2 ^ 31) (2 ^ 32)). lia.
Qed.

Lemma ToInt32_small z : - 2 ^ 31 ≤ z < 2 ^ 31 → ToInt32 z = z.
Proof. intros H. unfold ToInt32. rewrite Z.mod_small; lia. Qed.

Lemma ToInt32_congr a b : a mod 2 ^ 32 = b mod 2 ^ 32 → ToInt32 a = ToInt32 b.
Proof.
  intros H. unfold ToInt32.
  by rewrite <- (Zplus_mod_idemp_l a), H, Zplus_mod_idemp_l.
Qed.

Lemma ToInt32_mod z : ToInt32 z mod 2 ^ 32 = z mod 2 ^ 32.
Proof.
  unfold ToInt32. rewrite Zminus_mod_idemp_l. f_equal. lia.
Qed.

Lemma ToInt32_idem z : ToInt32 (ToInt32 z) = ToInt32 z.
Proof. apply ToInt32_congr, ToInt32_mod. Qed.

(** One round of either loop is [31 * hash + c], wrapped to 32 bits. *)
Lemma shift_subtract_add hash c : ToInt32 (shl hash 5 - hash + c) = ToInt32 (31 * hash + c).
Proof.
  apply ToInt32_congr. unfold shl.
  rewrite Z.shiftl_mul_pow2 by lia.
  rewrite <- Zplus_mod_idemp_l, <- Zminus_mod_idemp_l, ToInt32_mod.
  rewrite <- Zmult_mod_idemp_l, ToInt32_mod, Zmult_mod_idemp_l.
  rewrite Zminus_mod_idemp_l, Zplus_mod_idemp_l. f_equal. lia.
Qed.

Lemma hash_round_or hash c : bor (shl hash 5 - hash + c) 0 = ToInt32 (31 * hash + c).
Proof.
  unfold bor. change (ToInt32 0) with 0. rewrite Z.lor_0_r. apply shift_subtract_add.
Qed.

Lemma hash_round_and hash c :
  band (shl hash 5 - hash + c) (shl hash 5 - hash + c) = ToInt32 (31 * hash + c).
Proof. unfold band. rewrite Z.land_diag. apply shift_subtract_add. Qed.

Lemma hash_loop_congr (f : Z → Z → Z) (text : list Z) :
  (∀ h c, f h c = ToInt32 (31 * h + c)) →
  ∀ h H, h mod 2 ^ 32 = H mod 2 ^ 32 →
    ToInt32 (foldl f h text) = ToInt32 (foldl (λ h c, 31 * h + c) H text).
Proof.
  intros Hf. induction text as [|c text IH]; intros h H Hmod; simpl.
  - by apply ToInt32_congr.
  - apply IH. rewrite Hf, ToInt32_mod.
    rewrite <- Zplus_mod_idemp_l, <- Zmult_mod_idemp_r, Hmod.
    by rewrite Zmult_mod_idemp_r, Zplus_mod_idemp_l.
Qed.

Lemma hash_loop_range (f : Z → Z → Z) (text : list Z) :
  (∀ h c, f h c = ToInt32 (31 * h + c)) →
  ∀ h, - 2 ^ 31 ≤ h < 2 ^ 31 → - 2 ^ 31 ≤ foldl f h text < 2 ^ 31.
Proof.
  intros Hf. induction text as [|c text IH]; intros h Hh; simpl; [done|].
  apply IH. rewrite Hf. apply ToInt32_range.
Qed.

Lemma hash_loop (f : Z → Z → Z) (text : list Z) :
  (∀ h c, f h c = ToInt32 (31 * h + c)) →
  foldl f 0 text = ToInt32 (polynomial_hash text).
Proof.
  intros Hf. unfold polynomial_hash.
  rewrite <- (hash_loop_congr f text Hf 0 0 eq_refl).
  symmetry. apply ToInt32_small, hash_loop_range; [done|lia].
Qed.

Lemma hashString_abs (text : list Z) :
  Library3D._hashString text = Z.abs (ToInt32 (polynomial_hash text)).
Proof.
  unfold Library3D._hashString. destruct text as [|c text]; [done|].
  f_equal. apply (hash_loop (λ hash char, band _ _)). intros h c'. apply hash_round_and.
Qed.

(** The hash loops of [generateVibe] and of [_hashString] compute the same
    number: the polynomial hash of the code units with multiplier 31,
    wrapped to a signed 32-bit integer; [_hashString] returns its absolute
    value. *)
Theorem hash_loops_polynomial (text : list Z) :
  BookRenderer.hash_of text = ToInt32 (polynomial_hash text)
  ∧ Library3D._hashString text = Z.abs (ToInt32 (polynomial_hash text)).
Proof.
  split.
  - apply hash_loop, hash_round_or.
  - apply hashString_abs.
Qed.

(** [_hashString] returns a number from [0] to [2 ^ 31], and [2 ^ 31] is
    reached: the result need not fit a signed 32-bit integer. *)
Theorem hashString_range :
  (∀ str, 0 ≤ Library3D._hashString str ≤ 2 ^ 31)
  ∧ Library3D._hashString (literal "polygenelubricants") = 2 ^ 31.
Proof.
  split; [|by vm_compute].
  intros str. rewrite hashString_abs.
  pose proof (ToInt32_range (polynomial_hash str)). lia.
Qed.

(** [generateVibe] always returns one of its texts, never [undefined]: the
    index [Math.abs(hash) % vibes.length] is within the array for every
    text, whatever [toLowerCase] does. *)
Theorem generateVibe_defined (toLowerCase : list Z → list Z)
    (text : list Z) (categories : list (list Z)) :
  ∃ vibe, BookRenderer.generateVibe toLowerCase text categories = Some vibe.
Proof.
  unfold BookRenderer.generateVibe.
  repeat (match goal with |- ∃ _, (if ?c then _ else _) = _ => destruct c end;
          [by eexists|]).
  unfold at_index.
  pose proof (Z.abs_nonneg (BookRenderer.hash_of text)) as Habs.
  pose proof (Z.rem_bound_pos (Z.abs (BookRenderer.hash_of text))
                (Z.of_nat (length BookRenderer.vibes)) Habs) as Hrem.
  change (Z.of_nat (length BookRenderer.vibes)) with 6 in *.
  destruct (Z.ltb_spec (Z.rem (Z.abs (BookRenderer.hash_of text)) 6) 0) as [?|_]; [lia|].
  apply lookup_lt_is_Some. change (length BookRenderer.vibes) with 6%nat. lia.
Qed.

(** The hash of a known text, and a text with a keyword. *)
Example hashString_hello : Library3D._hashString (literal "hello") = 99162322.
Proof. reflexivity. Qed.

Example generateVibe_keyword :
  BookRenderer.generateVibe BookRenderer.ascii_lower
    (literal "A Murder at the vicarage") [literal "Fiction"]
  = Some "Full of twists that keep you guessing."%string.
Proof. reflexivity. Qed.

(** ** The stars of a rating *)

Section star_rating.

Import QArith_base Qround Lqa.
Local Open Scope Z_scope.

Lemma repeat_unit c count :
  0 ≤ count → Library3D.repeat [c] count = Some (replicate (Z.to_nat count) c).
Proof.
  intros H. unfold Library3D.repeat.
  destruct (Z.ltb_spec count 0) as [?|_]; [lia|]. f_equal.
  induction (Z.to_nat count) as [|n IH]; simpl; [done|]. by rewrite IH.
Qed.

Lemma repeat_negative s count : count < 0 → Library3D.repeat s count = None.
Proof.
  intros H. unfold Library3D.repeat. destruct (Z.ltb_spec count 0) as [_|?]; [done|lia].
Qed.

Lemma rem1_nonneg rating :
  (0 <= rating)%Q → Library3D.rem1 rating = (rating - inject_Z (Qfloor rating))%Q.
Proof.
  intros H. unfold Library3D.rem1.
  destruct (Qle_bool 0 rating) eqn:Hle; [done|].
  apply Qle_bool_iff in H. congruence.
Qed.

(** [getStarRating(rating)] returns a text exactly for the ratings from 0
    up to, but not including, 5.5; every other rating ends in a
    [RangeError] of [repeat].  A text it returns has five symbols: as many
    black stars as the integer part of the rating, then one half when the
    fractional part is at least one half, then white stars. *)
Theorem getStarRating_five_symbols (rating : Q) :
  ((0 <= rating)%Q → (rating < 11 # 2)%Q →
     ∃ full half empty : nat,
       Library3D.getStarRating rating
       = Library3D.Text (replicate full Library3D.black_star
                         ++ replicate half Library3D.one_half
                         ++ replicate empty Library3D.white_star)
       ∧ (full + half + empty = 5)%nat
       ∧ Z.of_nat full = Qfloor rating
       ∧ (half = 1%nat ∧ (1 # 2 <= rating - inject_Z (Qfloor rating))%Q
          ∨ half = 0%nat ∧ (rating - inject_Z (Qfloor rating) < 1 # 2)%Q))
  ∧ ((rating < 0)%Q ∨ (11 # 2 <= rating)%Q →
     Library3D.getStarRating rating = Library3D.RangeError).
Proof.
  pose proof (Qfloor_le rating) as Hfl. pose proof (Qlt_floor rating) as Hlt.
  set (f := Qfloor rating) in *.
  split.
  - intros H0 H5. unfold Library3D.getStarRating. fold f.
    rewrite (rem1_nonneg _ H0). fold f.
    assert (0 ≤ f).
    { change 0 with (Qfloor (inject_Z 0)). by apply Qfloor_resp_le. }
    assert (f ≤ 5).
    { apply Z.lt_succ_r. rewrite Zlt_Qlt. eapply Qle_lt_trans; [exact Hfl|].
      eapply Qlt_le_trans; [exact H5|]. by vm_compute. }
    rewrite (repeat_unit _ f) by done.
    destruct (Qle_bool (1 # 2) (rating - inject_Z f)) eqn:Hhalf.
    + apply Qle_bool_iff in Hhalf.
      assert (f ≤ 4).
      { apply Z.lt_succ_r. rewrite Zlt_Qlt. rewrite inject_Z_plus in Hlt.
        change (inject_Z (Z.succ 4)) with (5 # 1)%Q.
        change (inject_Z 1) with (1 # 1)%Q in Hlt. lra. }
      rewrite (repeat_unit _ (5 - f - 1)) by lia.
      exists (Z.to_nat f), 1%nat, (Z.to_nat (5 - f - 1)).
      split; [done|]. split; [lia|]. split; [lia|]. by left.
    + assert (rating - inject_Z f < 1 # 2)%Q as Hlow.
      { apply Qnot_le_lt. intros Hle. apply Qle_bool_iff in Hle. congruence. }
      rewrite (repeat_unit _ (5 - f - 0)) by lia.
      exists (Z.to_nat f), 0%nat, (Z.to_nat (5 - f - 0)).
      split; [done|]. split; [lia|]. split; [lia|]. by right.
  - intros [Hneg|Hbig]; unfold Library3D.getStarRating; fold f.
    + assert (f < 0).
      { rewrite Zlt_Qlt. eapply Qle_lt_trans; [exact Hfl|exact Hneg]. }
      by rewrite (repeat_negative _ f).
    + assert (0 <= rating)%Q as H0 by lra.
      rewrite (rem1_nonneg _ H0). fold f.
      assert (5 ≤ f).
      { apply Z.lt_succ_r. rewrite Zlt_Qlt. rewrite <- Z.add_1_r.
        eapply Qle_lt_trans; [|exact Hlt]. change (inject_Z 5) with (5 # 1)%Q. lra. }
      rewrite (repeat_unit _ f) by lia.
      destruct (Qle_bool (1 # 2) (rating - inject_Z f)) eqn:Hhalf.
      * by rewrite (repeat_negative _ (5 - f - 1)) by lia.
      * assert (rating - inject_Z f < 1 # 2)%Q as Hlow.
        { apply Qnot_le_lt. intros Hle. apply Qle_bool_iff in Hle. congruence. }
        assert (5 < f).
        { rewrite Zlt_Qlt. change (inject_Z 5) with (5 # 1)%Q. lra. }
        by rewrite (repeat_negative _ (5 - f - 0)) by lia.
Qed.

Lemma getStarRating_five_symbols_witness :
  ∃ full half empty : nat,
    Library3D.getStarRating (9 # 2)
    = Library3D.Text (replicate full Library3D.black_star
                      ++ replicate half Library3D.one_half
                      ++ replicate empty Library3D.white_star)
    ∧ (full + half + empty = 5)%nat
    ∧ Z.of_nat full = Qfloor (9 # 2)
    ∧ (half = 1%nat ∧ (1 # 2 <= (9 # 2) - inject_Z (Qfloor (9 # 2)))%Q
       ∨ half = 0%nat ∧ ((9 # 2) - inject_Z (Qfloor (9 # 2)) < 1 # 2)%Q).
Proof.
  apply (getStarRating_five_symbols (9 # 2)); unfold Qle, Qlt; simpl; lia.
Defined.

End star_rating.

(** Four and a half stars, and a rating out of range. *)
Example getStarRating_four_and_a_half :
  Library3D.getStarRating (QArith_base.Qmake 9 2)
  = Library3D.Text [Library3D.black_star; Library3D.black_star; Library3D.black_star;
                    Library3D.black_star; Library3D.one_half]
  ∧ Library3D.getStarRating (QArith_base.Qmake 11 2) = Library3D.RangeError.
Proof. by vm_compute. Qed.

(** ** The pull-merge keeps the ids unique *)

Lemma assign_existing_ids id source books :
  b_id source = id → b_id <$> assign_existing id source books = b_id <$> books.
Proof.
  intros Hs. induction books as [|b books IH]; [done|]. simpl.
  destruct (has_id id books); [by rewrite fmap_cons, IH|].
  case_bool_decide as Hb; [|done]. rewrite !fmap_cons. simpl. by rewrite Hs, Hb.
Qed.

Lemma unique_ids_same_ids lib lib' :
  (∀ s, b_id <$> get lib' s = b_id <$> get lib s) → unique_ids lib → unique_ids lib'.
Proof.
  intros Hids. unfold unique_ids, ids. rewrite !fmap_app.
  by rewrite (Hids current : b_id <$> lib_current lib' = _),
             (Hids want : b_id <$> lib_want lib' = _),
             (Hids finished : b_id <$> lib_finished lib' = _).
Qed.

Lemma has_id_records_with id l l' :
  records_with id l = records_with id l' → has_id id l = has_id id l'.
Proof.
  intros Heq. destruct (has_id id l') eqn:Hl'.
  - apply not_false_iff_true. intros Hl. apply records_with_absent in Hl.
    rewrite Hl in Heq. symmetry in Heq. apply records_with_absent in Heq. congruence.
  - apply records_with_absent in Hl'. rewrite Hl' in Heq. by apply records_with_absent.
Qed.

Lemma local_index_Some lib id e :
  local_index lib !! id = Some e → has_id id (get lib (i_shelf e)) = true.
Proof.
  rewrite local_index_lookup.
  destruct (last (records_with id (lib_finished lib))) as [b|] eqn:Hf.
  { intros [= <-]. by apply last_records_with in Hf as (_ & _ & ?). }
  destruct (last (records_with id (lib_want lib))) as [b|] eqn:Hw.
  { intros [= <-]. by apply last_records_with in Hw as (_ & _ & ?). }
  destruct (last (records_with id (lib_current lib))) as [b|] eqn:Hc; [|done].
  intros [= <-]. by apply last_records_with in Hc as (_ & _ & ?).
Qed.

Lemma local_index_absent lib id : local_index lib !! id = None → findBook lib id = false.
Proof.
  rewrite local_index_lookup.
  destruct (last (records_with id (lib_finished lib))) as [b|] eqn:Hf; [done|].
  destruct (last (records_with id (lib_want lib))) as [b|] eqn:Hw; [done|].
  destruct (last (records_with id (lib_current lib))) as [b|] eqn:Hc; [done|].
  intros _. apply last_None in Hf, Hw, Hc.
  apply findBook_false. intros []; by apply records_with_absent.
Qed.

(** After its round, an item that did not throw has no entry in the map. *)
Lemma merge_item_done now st item :
  fst (merge_item now st item) = Normal →
  m_map (snd (merge_item now st item)) !! google_books_id item = None.
Proof.
  unfold merge_item.
  destruct (m_map st !! google_books_id item) as [e|] eqn:He.
  - case_bool_decide.
    + destruct (shelf_of_string (shelf_type item)); simpl; [|done].
      intros _. apply lookup_delete_eq.
    + simpl. intros _. apply lookup_delete_eq.
  - destruct (shelf_of_string (shelf_type item)); [done|].
    by destruct (inherited (shelf_type item)).
Qed.

Lemma merge_item_other_has now id st item :
  google_books_id item ≠ id →
  (∀ s, has_id id (get (m_library (snd (merge_item now st item))) s)
        = has_id id (get (m_library st) s))
  ∧ m_map (snd (merge_item now st item)) !! id = m_map st !! id.
Proof.
  intros Hne. destruct (merge_item_other now id st item Hne) as [Hrec Hmap].
  split; [|done]. intros s. apply has_id_records_with, Hrec.
Qed.

Lemma merge_item_unique now st item rest :
  google_books_id item ∉ google_books_id <$> rest →
  merge_unique st (item :: rest) →
  unique_ids (m_library (snd (merge_item now st item)))
  ∧ (fst (merge_item now st item) = Normal →
     merge_unique (snd (merge_item now st item)) rest).
Proof.
  intros Hnotin (Hu & Hmap & Hnew).
  assert (unique_ids (m_library (snd (merge_item now st item)))) as Hu'.
  { unfold merge_item.
    destruct (m_map st !! google_books_id item) as [e|] eqn:He.
    - case_bool_decide.
      + assert (unique_ids (set (m_library st) (i_shelf e)
                  (without_id (google_books_id item) (get (m_library st) (i_shelf e)))))
          as Hremoved.
        { eapply unique_ids_sublist; [|exact Hu]. apply set_sublist, sublist_filter. }
        destruct (shelf_of_string (shelf_type item)) as [t|]; simpl; [|done].
        apply unique_ids_push; [done|]. simpl.
        apply findBook_after_without; [by apply unique_ids_one_shelf|by apply Hmap].
      + simpl. eapply unique_ids_same_ids; [|exact Hu]. intros s.
        destruct (decide (s = i_shelf e)) as [->|Hs].
        * rewrite get_set. by apply assign_existing_ids.
        * by rewrite get_set_ne.
    - destruct (shelf_of_string (shelf_type item)) as [t|];
        [|by destruct (inherited (shelf_type item))].
      simpl. apply unique_ids_push; [done|]. simpl. apply Hnew; [by left|done]. }
  split; [done|]. intros Hnormal. split; [done|]. split.
  - intros id e He. destruct (decide (google_books_id item = id)) as [<-|Hne].
    + by rewrite merge_item_done in He.
    + destruct (merge_item_other_has now id st item Hne) as [Hhas Hlook].
      rewrite Hhas. apply Hmap. by rewrite <- Hlook.
  - intros item' Hin Hnone.
    assert (google_books_id item ≠ google_books_id item') as Hne.
    { intros Heq. apply Hnotin. rewrite Heq. by apply list_elem_of_fmap_2. }
    destruct (merge_item_other_has now _ st item Hne) as [Hhas Hlook].
    apply findBook_false. intros s. rewrite Hhas. apply findBook_false.
    apply Hnew; [by right|]. by rewrite <- Hlook.
Qed.

Lemma merge_items_unique now items st :
  NoDup (google_books_id <$> items) → merge_unique st items →
  unique_ids (m_library (snd (forEach (merge_item now) items st))).
Proof.
  revert st. induction items as [|item items IH]; intros st Hnd Hinv; [apply Hinv|].
  rewrite fmap_cons in Hnd. apply NoDup_cons in Hnd as [Hnotin Hnd].
  destruct (merge_item_unique now st item items Hnotin Hinv) as [Hu Hnext].
  simpl. destruct (merge_item now st item) as [[|e] st']; simpl in *; [|done].
  apply IH; [done|]. by apply Hnext.
Qed.

Lemma merge_unique_initial lib remote :
  unique_ids lib → merge_unique {| m_library := lib; m_map := local_index lib |} remote.
Proof.
  intros Hu. split; [done|]. split; simpl.
  - apply local_index_Some.
  - intros item _. apply local_index_absent.
Qed.

Lemma merge_unique_ids now lib remote :
  unique_ids lib → NoDup (google_books_id <$> remote) →
  unique_ids (mergeRemoteIntoLocal now lib remote).
Proof.
  intros Hu Hnd. rewrite mergeRemoteIntoLocal_merge.
  apply merge_items_unique; [done|]. by apply merge_unique_initial.
Qed.

(** The pull-merge keeps the ids unique: when no id appears twice in the
    local collection and none appears twice in the snapshot, none appears
    twice in the merged collection, also when the loop is left by a
    throw. *)
Theorem merge_keeps_ids_unique (now : string) (lib : Library) (remote : list Item) :
  unique_ids lib →
  NoDup (google_books_id <$> remote) →
  unique_ids (mergeRemoteIntoLocal now lib remote)
  ∧ one_shelf (mergeRemoteIntoLocal now lib remote).
Proof.
  intros Hu Hnd. pose proof (merge_unique_ids now lib remote Hu Hnd) as H.
  split; [done|]. by apply unique_ids_one_shelf.
Qed.

Lemma merge_keeps_ids_unique_witness :
  unique_ids (mergeRemoteIntoLocal "now" b1_want_b2_current
                [sample_item "b1" 7 "finished"; sample_item "b3" 9 "want"]).
Proof.
  apply (merge_keeps_ids_unique "now" b1_want_b2_current
           [sample_item "b1" 7 "finished"; sample_item "b3" 9 "want"]);
    apply (bool_decide_unpack _); vm_compute; exact I.
Defined.

Lemma sortLibrary_unique sort w :
  (∀ books, sort books ≡ₚ books) →
  unique_ids (library w) → unique_ids (library (sortLibrary sort w)).
Proof.
  intros Hsort. unfold unique_ids, ids, sortLibrary. cbn [library lib_current lib_want lib_finished].
  by rewrite !Hsort.
Qed.

(** [syncWithBackend()] as a whole.  Without a signed-in user, and when the
    request fails or is refused, it changes nothing.  With a snapshot in
    which no id appears twice it keeps the ids unique, in the instance and
    in the storage, whatever order the sort of the page gives the shelves.
    When every item of the snapshot names one of the three shelves, the
    storage holds the merged collection afterwards; the instance holds it
    too on a page that does not sort, and on a page that sorts each of its
    shelves is the sorted shelf of the merged collection, an order that is
    not saved. *)
Theorem syncWithBackend_keeps_ids_unique (user : option User) (res : FetchResult)
    (now : string) (sorting : option (list Book → list Book)) (w : World) :
  (user = None ∨ res = Rejected ∨ res = NotOk → syncWithBackend user res now sorting w = w)
  ∧ (everywhere unique_ids w →
     (∀ data, res = Ok data → NoDup (google_books_id <$> data)) →
     (∀ sort, sorting = Some sort → ∀ books, sort books ≡ₚ books) →
     everywhere unique_ids (syncWithBackend user res now sorting w))
  ∧ (∀ u data, user = Some u → res = Ok data → Forall on_a_shelf data →
     storage (syncWithBackend user res now sorting w)
     = Some (mergeRemoteIntoLocal now (library w) data)
     ∧ (sorting = None →
        library (syncWithBackend user res now sorting w)
        = mergeRemoteIntoLocal now (library w) data)
     ∧ (∀ sort, sorting = Some sort →
        ∀ s, get (library (syncWithBackend user res now sorting w)) s
             = sort (get (mergeRemoteIntoLocal now (library w) data) s))).
Proof.
  split; [|split].
  - intros [->|[->| ->]]; [done|by destruct user..].
  - intros Hw Hnd Hsort. destruct user as [u|]; [|done].
    destruct res as [| |data]; [done..|].
    rewrite (syncWithBackend_fetched u data now sorting w).
    pose proof (merge_unique_ids now (library w) data (proj1 Hw) (Hnd data eq_refl)) as Hu.
    assert (everywhere unique_ids (world_of (mergeRemoteIntoLocal now (library w) data)))
      as Hsaved.
    { split; [done|]. by intros lib [= <-]. }
    destruct (fst (merge now (library w) data)).
    + destruct sorting as [sort|]; [|done]. split.
      * apply sortLibrary_unique; [by apply Hsort|done].
      * apply Hsaved.
    + split; [done|]. apply Hw.
  - intros u data -> -> Hall.
    rewrite (syncWithBackend_fetched u data now sorting w). unfold merge.
    rewrite (merge_items_on_a_shelf now data _ Hall).
    destruct sorting as [sort|].
    + split; [done|]. split; [done|]. intros ? [= <-] s. by destruct s.
    + split; [done|]. split; [done|]. by intros ? [=].
Qed.

Lemma syncWithBackend_keeps_ids_unique_witness :
  syncWithBackend None (Ok [sample_item "b1" 7 "finished"]) "now" (Some reverse)
    (world_of b1_want_b2_current)
  = world_of b1_want_b2_current
  ∧ everywhere unique_ids
      (syncWithBackend (Some {| user_id := 1 |})
         (Ok [sample_item "b1" 7 "finished"; sample_item "b3" 9 "finished"]) "now"
         (Some reverse) (world_of b1_want_b2_current))
  ∧ get (library (syncWithBackend (Some {| user_id := 1 |})
                    (Ok [sample_item "b1" 7 "finished"; sample_item "b3" 9 "finished"]) "now"
                    (Some reverse) (world_of b1_want_b2_current))) finished
    = reverse (get (mergeRemoteIntoLocal "now" (library (world_of b1_want_b2_current))
                      [sample_item "b1" 7 "finished"; sample_item "b3" 9 "finished"])
                 finished).
Proof.
  destruct (syncWithBackend_keeps_ids_unique None (Ok [sample_item "b1" 7 "finished"]) "now"
              (Some reverse) (world_of b1_want_b2_current)) as (Hnone & _ & _).
  destruct (syncWithBackend_keeps_ids_unique (Some {| user_id := 1 |})
              (Ok [sample_item "b1" 7 "finished"; sample_item "b3" 9 "finished"]) "now"
              (Some reverse) (world_of b1_want_b2_current))
    as (_ & Hunique & Hok).
  split; [apply Hnone; left; reflexivity|]. split.
  - apply Hunique.
    + assert (unique_ids b1_want_b2_current) as Hu
        by (apply (bool_decide_unpack _); vm_compute; exact I).
      split; [exact Hu|]. intros lib Hl. injection Hl as <-. exact Hu.
    + intros data Hdata. injection Hdata as <-.
      apply (bool_decide_unpack _). vm_compute. exact I.
    + intros sort Hsort books. injection Hsort as <-. apply reverse_Permutation.
  - destruct (Hok {| user_id := 1 |}
                [sample_item "b1" 7 "finished"; sample_item "b3" 9 "finished"]
                eq_refl eq_refl) as (_ & _ & Hsorted).
    + repeat constructor; by exists finished.
    + apply (Hsorted reverse eq_refl finished).
Defined.

(** ** A pull after a push leaves nothing to push *)

Lemma records_with_unique books b :
  NoDup (b_id <$> books) → b ∈ books → records_with (b_id b) books = [b].
Proof.
  intros Hnd (l1 & l2 & ->)%list_elem_of_split.
  rewrite fmap_app, fmap_cons in Hnd.
  apply NoDup_app in Hnd as (_ & Hl & Hr). apply NoDup_cons in Hr as [Hr _].
  rewrite records_with_app. unfold records_with at 2. rewrite filter_cons_True by done.
  assert (records_with (b_id b) l1 = []) as ->.
  { apply records_with_absent, not_true_iff_false. rewrite has_id_elem.
    intros Hin. apply (Hl _ Hin). by left. }
  assert (filter (λ b', b_id b' = b_id b) l2 = []) as ->; [|done].
  apply (records_with_absent (b_id b) l2), not_true_iff_false. by rewrite has_id_elem.
Qed.

Lemma elem_of_assign_existing id source books b :
  b ∈ assign_existing id source books → b ∈ books ∨ ∃ x, b = Object_assign x source.
Proof.
  induction books as [|b0 books IH]; simpl; [by left|].
  destruct (has_id id books).
  - intros [->|Hin]%elem_of_cons; [left; by left|].
    destruct (IH Hin) as [?|?]; [left; by right|by right].
  - case_bool_decide; [|by left].
    intros [->|Hin]%elem_of_cons; [right; by eexists|left; by right].
Qed.

Lemma assign_existing_single id source books b0 :
  b_id source = id → records_with id books = [b0] →
  records_with id (assign_existing id source books) = [Object_assign b0 source].
Proof.
  intros Hs Hrec.
  assert (last (filter (λ b, b_id b = id) books) = Some b0) as Hlast.
  { fold (records_with id books). by rewrite Hrec. }
  apply last_filter_split in Hlast as (Hb0 & pre & post & -> & Hpost).
  rewrite (assign_existing_middle _ _ _ _ _ Hb0 Hpost).
  assert (records_with id post = []) as Hpost'.
  { apply records_with_absent, has_id_false. intros b Hb.
    by eapply Forall_forall in Hpost. }
  rewrite records_with_app in Hrec. unfold records_with at 2 in Hrec.
  rewrite filter_cons_True in Hrec by done. fold (records_with id post) in Hrec.
  rewrite Hpost' in Hrec.
  assert (records_with id pre = []) as Hpre.
  { by apply (app_inv_tail [b0] (records_with id pre) []). }
  rewrite records_with_app, Hpre. unfold records_with at 1.
  rewrite filter_cons_True by done. fold (records_with id post). by rewrite Hpost'.
Qed.

Lemma truthy_remoteBook now existing item :
  item_id item ≠ 0 → truthy_num (b_db_id (remoteBook now existing item)) = true.
Proof. intros H. simpl. by apply negb_true_iff, Z.eqb_neq. Qed.

Lemma truthy_assigned now existing item x :
  item_id item ≠ 0 →
  truthy_num (b_db_id (Object_assign x (remoteBook now existing item))) = true.
Proof. intros H. simpl. by apply negb_true_iff, Z.eqb_neq. Qed.

(** A record whose [db_id] is falsy after the round of an item does not
    have the item's id. *)
Lemma merge_item_synced now st item rest s b :
  on_a_shelf item → item_id item ≠ 0 →
  merge_pending st (item :: rest) →
  b ∈ get (m_library (snd (merge_item now st item))) s →
  truthy_num (b_db_id b) = false →
  b_id b ≠ google_books_id item.
Proof.
  intros [t Ht] Hid Hinv Hb Hfalsy Heq.
  assert (∀ s', b ∈ get (m_library st) s' →
            ∃ e, m_map st !! google_books_id item = Some e ∧ i_shelf e = s') as Hentry.
  { intros s' Hin. destruct (Hinv s' b Hin Hfalsy) as (_ & He & _). by rewrite <- Heq. }
  unfold merge_item in Hb. rewrite Ht in Hb.
  destruct (m_map st !! google_books_id item) as [e|] eqn:He.
  - case_bool_decide as Hshelf; simpl in Hb.
    + apply elem_of_get_push in Hb as [Hb|[_ ->]].
      2:{ by rewrite truthy_remoteBook in Hfalsy. }
      destruct (decide (s = i_shelf e)) as [->|Hs].
      * rewrite get_set in Hb. apply list_elem_of_filter in Hb as [Hne _]. done.
      * rewrite get_set_ne in Hb by done.
        destruct (Hentry s Hb) as (e' & [= <-] & He'). done.
    + destruct (decide (s = i_shelf e)) as [->|Hs].
      * rewrite get_set in Hb.
        assert (b ∈ get (m_library st) (i_shelf e)) as Hold.
        { apply elem_of_assign_existing in Hb as [?|[x ->]]; [done|].
          by rewrite truthy_assigned in Hfalsy. }
        destruct (Hinv _ b Hold Hfalsy) as (Hone & _ & _). rewrite Heq in Hone.
        assert (b ∈ records_with (google_books_id item)
                      (assign_existing (google_books_id item)
                         (remoteBook now (Some (i_book e)) item)
                         (get (m_library st) (i_shelf e)))) as Hin
          by (by apply elem_of_records_with).
        rewrite (assign_existing_single (google_books_id item)
                   (remoteBook now (Some (i_book e)) item) _ b eq_refl Hone) in Hin.
        apply list_elem_of_singleton in Hin. rewrite Hin in Hfalsy.
        by rewrite truthy_assigned in Hfalsy.
      * rewrite get_set_ne in Hb by done.
        destruct (Hentry s Hb) as (e' & [= <-] & He'). done.
  - simpl in Hb. apply elem_of_get_push in Hb as [Hb|[_ ->]].
    + by destruct (Hentry s Hb) as (e' & [=] & _).
    + by rewrite truthy_remoteBook in Hfalsy.
Qed.

Lemma merge_item_pending now st item rest :
  on_a_shelf item → item_id item ≠ 0 →
  merge_pending st (item :: rest) →
  merge_pending (snd (merge_item now st item)) rest.
Proof.
  intros Hshelf Hid Hinv s b Hb Hfalsy.
  pose proof (merge_item_synced now st item rest s b Hshelf Hid Hinv Hb Hfalsy) as Hne.
  destruct (merge_item_other now (b_id b) st item (not_eq_sym Hne)) as [Hrec Hmap].
  assert (b ∈ get (m_library st) s) as Hold.
  { assert (b ∈ records_with (b_id b) (get (m_library (snd (merge_item now st item))) s))
      as Hin by (by apply elem_of_records_with).
    rewrite Hrec in Hin. by apply elem_of_records_with in Hin as [_ ?]. }
  destruct (Hinv s b Hold Hfalsy) as (Hone & He & item' & Hin & Hitem').
  rewrite Hrec, Hmap. split; [done|]. split; [done|].
  exists item'. split; [|done].
  apply elem_of_cons in Hin as [->|?]; [|done]. by rewrite Hitem' in Hne.
Qed.

Lemma merge_items_pending now items st :
  Forall on_a_shelf items → Forall (λ item, item_id item ≠ 0) items →
  merge_pending st items →
  merge_pending (snd (forEach (merge_item now) items st)) [].
Proof.
  revert st. induction items as [|item items IH]; intros st Hshelf Hid Hinv; [done|].
  apply Forall_cons in Hshelf as [Hshelf Hshelves]. apply Forall_cons in Hid as [Hid Hids].
  pose proof (merge_item_pending now st item items Hshelf Hid Hinv) as Hnext.
  pose proof (merge_item_on_a_shelf now st item Hshelf) as Hnormal.
  simpl. destruct (merge_item now st item) as [[|e] st']; simpl in *; [|done].
  by apply IH.
Qed.

Lemma merge_pending_initial lib remote :
  unique_ids lib →
  (∀ s b, b ∈ get lib s → truthy_num (b_db_id b) = false →
     ∃ item, item ∈ remote ∧ google_books_id item = b_id b) →
  merge_pending {| m_library := lib; m_map := local_index lib |} remote.
Proof.
  intros [Hnd Hone]%unique_ids_split Hremote s b Hb Hfalsy. simpl.
  pose proof (records_with_unique _ _ (Hnd s) Hb) as Hrec.
  split; [done|]. split; [|by apply (Hremote s)].
  exists {| i_book := b; i_shelf := s |}. split; [|done].
  apply local_index_one_shelf; [done|]. by rewrite Hrec.
Qed.

(** After [syncLocalToBackend] has uploaded the unsynced books,
    [syncWithBackend] pulls the snapshot.  When the local ids are unique,
    the snapshot has an item for every local record whose [db_id] is falsy,
    and its items name one of the three shelves and have a [db_id] other
    than 0, the merged collection has no record left to upload: a second
    [syncLocalToBackend] sends no request. *)
Theorem pull_after_push_converges (now : string) (lib : Library) (remote : list Item) :
  unique_ids lib →
  Forall on_a_shelf remote →
  Forall (λ item, item_id item ≠ 0) remote →
  (∀ s b, b ∈ get lib s → truthy_num (b_db_id b) = false →
     ∃ item, item ∈ remote ∧ google_books_id item = b_id b) →
  itemsToSync (mergeRemoteIntoLocal now lib remote) = []
  ∧ ∀ user sto, syncLocalToBackend user
                  {| library := mergeRemoteIntoLocal now lib remote; storage := sto |} = None.
Proof.
  intros Hu Hshelf Hid Hremote.
  assert (itemsToSync (mergeRemoteIntoLocal now lib remote) = []) as Hnone.
  { apply elem_of_nil_inv. intros x (s & _ & Hin & Hfalsy)%elem_of_itemsToSync.
    rewrite mergeRemoteIntoLocal_merge in Hin.
    pose proof (merge_items_pending now remote _ Hshelf Hid
                  (merge_pending_initial lib remote Hu Hremote)) as Hinv.
    destruct (Hinv s _ Hin Hfalsy) as (_ & _ & item & Hitem & _).
    by apply elem_of_nil in Hitem. }
  split; [done|]. intros user sto. unfold syncLocalToBackend. simpl.
  rewrite Hnone. by destruct user.
Qed.

Lemma pull_after_push_converges_witness :
  itemsToSync (mergeRemoteIntoLocal "now" b1_unsynced_b2_synced
                 [sample_item "b1" 7 "finished"; sample_item "b2" 5 "current"]) = [].
Proof.
  apply (pull_after_push_converges "now" b1_unsynced_b2_synced
           [sample_item "b1" 7 "finished"; sample_item "b2" 5 "current"]).
  - apply (bool_decide_unpack _). vm_compute. exact I.
  - repeat constructor; [by exists finished|by exists current].
  - repeat constructor; simpl; lia.
  - intros s b Hb Hfalsy. exists (sample_item "b1" 7 "finished"). split; [by left|].
    destruct s; simpl in Hb.
    + apply list_elem_of_singleton in Hb. subst b. discriminate Hfalsy.
    + apply list_elem_of_singleton in Hb. by subst b.
    + by apply elem_of_nil in Hb.
Defined.

(** ** Pulling the same snapshot twice *)

Lemma last_assign_existing id source books l :
  b_id source = id →
  last (records_with id books) = Some l →
  last (records_with id (assign_existing id source books)) = Some (Object_assign l source).
Proof.
  intros Hs Hlast. unfold records_with in Hlast.
  apply last_filter_split in Hlast as (Hl & pre & post & -> & Hpost).
  rewrite (assign_existing_middle _ _ _ _ _ Hl Hpost).
  assert (records_with id post = []) as Hpost'.
  { apply records_with_absent, has_id_false. intros b Hb.
    by eapply Forall_forall in Hpost. }
  rewrite records_with_app. unfold records_with at 2.
  rewrite filter_cons_True by done. fold (records_with id post).
  by rewrite Hpost', last_snoc.
Qed.

Lemma assign_existing_self id source books m :
  last (records_with id books) = Some m →
  Object_assign m source = m →
  assign_existing id source books = books.
Proof.
  intros Hlast Hself. unfold records_with in Hlast.
  apply last_filter_split in Hlast as (Hm & pre & post & -> & Hpost).
  by rewrite (assign_existing_middle _ _ _ _ _ Hm Hpost), Hself.
Qed.

Lemma set_get {A} (lib : Shelves A) s : set lib s (get lib s) = lib.
Proof.
  apply shelves_ext. intros s'.
  destruct (decide (s' = s)) as [->|?]; [by rewrite get_set|by rewrite get_set_ne].
Qed.

(** After its round, an item has a record on its shelf, the last of its
    id there, that carries what the merge takes from the item. *)
Lemma merge_item_record now st item t :
  shelf_of_string (shelf_type item) = Some t →
  (∀ e, m_map st !! google_books_id item = Some e →
        has_id (google_books_id item) (get (m_library st) (i_shelf e)) = true) →
  ∃ m, last (records_with (google_books_id item)
               (get (m_library (snd (merge_item now st item))) t)) = Some m
       ∧ merged_from now item m.
Proof.
  intros Ht Hmap. unfold merge_item. rewrite Ht.
  destruct (m_map st !! google_books_id item) as [e|] eqn:He.
  - case_bool_decide as Hshelf; simpl.
    + eexists. rewrite get_push.
      rewrite (records_with_push_same _ (remoteBook now (Some (i_book e)) item)).
      by rewrite last_snoc.
    + apply shelf_of_string_name in Hshelf.
      assert (i_shelf e = t) as <- by congruence.
      rewrite get_set.
      destruct (last (records_with (google_books_id item) (get (m_library st) (i_shelf e))))
        as [l|] eqn:Hlast.
      * exists (Object_assign l (remoteBook now (Some (i_book e)) item)).
        split; [by apply last_assign_existing|done].
      * apply last_None, records_with_absent in Hlast. rewrite (Hmap e eq_refl) in Hlast.
        done.
  - simpl. eexists. rewrite get_push.
    rewrite (records_with_push_same _ (remoteBook now None item)).
    by rewrite last_snoc.
Qed.

Lemma merge_result_record now lib items1 item items2 t :
  Forall on_a_shelf items1 →
  Forall (λ other, google_books_id other ≠ google_books_id item) (items1 ++ items2) →
  shelf_of_string (shelf_type item) = Some t →
  ∃ m, last (records_with (google_books_id item)
               (get (mergeRemoteIntoLocal now lib (items1 ++ item :: items2)) t)) = Some m
       ∧ merged_from now item m.
Proof.
  intros Hshelves [Hne1 Hne2]%Forall_app Ht.
  rewrite mergeRemoteIntoLocal_merge, (merge_split _ _ _ _ _ Hshelves).
  unfold merge.
  destruct (merge_items_other now (google_books_id item) items1
              {| m_library := lib; m_map := local_index lib |} Hne1) as [Hrec Hmap].
  set (st1 := snd (forEach (merge_item now) items1 _)) in *.
  destruct (merge_item_record now st1 item t Ht) as (m & Hlast & Hm).
  { intros e He. rewrite Hmap in He. simpl in He.
    rewrite (has_id_records_with _ _ _ (Hrec (i_shelf e))). by apply local_index_Some. }
  assert (fst (merge_item now st1 item) = Normal) as Hnormal
    by (apply merge_item_on_a_shelf; by exists t).
  exists m. split; [|done].
  destruct (merge_item now st1 item) as [[|err] st2]; [|done]. simpl in *.
  destruct (merge_items_other now (google_books_id item) items2 st2 Hne2) as [Hrec2 _].
  by rewrite Hrec2.
Qed.

(** A loop over items whose records the collection already has, each on
    the item's shelf and equal to what [Object.assign] would make of it,
    changes nothing. *)
Lemma merge_items_fixed now items lib map :
  NoDup (google_books_id <$> items) →
  (∀ item, item ∈ items →
     ∃ t m, shelf_of_string (shelf_type item) = Some t
            ∧ map !! google_books_id item = Some {| i_book := m; i_shelf := t |}
            ∧ last (records_with (google_books_id item) (get lib t)) = Some m
            ∧ Object_assign m (remoteBook now (Some m) item) = m) →
  m_library (snd (forEach (merge_item now) items {| m_library := lib; m_map := map |})) = lib.
Proof.
  revert map. induction items as [|item items IH]; intros map Hnd Hitems; [done|].
  rewrite fmap_cons in Hnd. apply NoDup_cons in Hnd as [Hnotin Hnd].
  destruct (Hitems item) as (t & m & Ht & Hmap & Hlast & Hself); [by left|].
  simpl. unfold merge_item at 1. cbn [m_map m_library]. rewrite Hmap. cbn [i_shelf i_book fmap option_fmap option_map].
  rewrite bool_decide_eq_false_2.
  2:{ intros Hne. apply Hne. by apply shelf_of_string_name. }
  rewrite (assign_existing_self _ _ _ m Hlast Hself), set_get.
  apply IH; [done|]. intros item' Hin.
  destruct (Hitems item') as (t' & m' & Ht' & Hmap' & Hrest); [by right|].
  exists t', m'. split; [done|]. split; [|done].
  rewrite lookup_delete_ne; [done|].
  intros Heq. apply Hnotin. rewrite Heq. by apply list_elem_of_fmap_2.
Qed.

(** Pulling the same snapshot a second time changes nothing: when the local
    ids are unique, no id appears twice in the snapshot, every item names
    one of the three shelves and has a creation date (or the two pulls read
    the same clock), merging the snapshot into the merged collection gives
    the merged collection. *)
Theorem merge_twice (now now' : string) (lib : Library) (remote : list Item) :
  unique_ids lib →
  NoDup (google_books_id <$> remote) →
  Forall on_a_shelf remote →
  Forall (λ item, truthy_str (created_at item) = true ∨ now' = now) remote →
  mergeRemoteIntoLocal now' (mergeRemoteIntoLocal now lib remote) remote
  = mergeRemoteIntoLocal now lib remote.
Proof.
  intros Hu Hnd Hshelves Hdates.
  pose proof (merge_unique_ids now lib remote Hu Hnd) as Hu'.
  apply unique_ids_one_shelf in Hu' as Hone.
  rewrite (mergeRemoteIntoLocal_merge now'). unfold merge.
  apply merge_items_fixed; [done|]. intros item Hin.
  pose proof (proj1 (Forall_forall _ _) Hshelves item Hin) as [t Ht].
  pose proof (proj1 (Forall_forall _ _) Hdates item Hin) as Hdate.
  apply list_elem_of_split in Hin as (items1 & items2 & ->).
  assert (Forall (λ other, google_books_id other ≠ google_books_id item) (items1 ++ items2))
    as Hne.
  { rewrite fmap_app, fmap_cons in Hnd.
    apply NoDup_app in Hnd as (_ & Hl & Hr). apply NoDup_cons in Hr as [Hr _].
    apply Forall_app. split; apply Forall_forall; intros other Hother Heq.
    - apply (Hl (google_books_id other)); [by apply list_elem_of_fmap_2|].
      rewrite Heq. by left.
    - apply Hr. rewrite <- Heq. by apply list_elem_of_fmap_2. }
  apply Forall_app in Hshelves as [Hshelves1 _].
  destruct (merge_result_record now lib items1 item items2 t Hshelves1 Hne Ht)
    as (m & Hlast & Hid & Hdb & Hvol & Hadded).
  exists t, m. split; [done|]. split; [by apply local_index_one_shelf|].
  split; [done|].
  destruct m as [mid mdb mvol mprog mdate mrest]. simpl in *.
  unfold Object_assign, remoteBook. simpl. subst mid mdb mvol mdate. f_equal.
  destruct Hdate as [Hdate| ->]; [by rewrite Hdate|done].
Qed.

Lemma merge_twice_witness :
  mergeRemoteIntoLocal "later" 
    (mergeRemoteIntoLocal "now" b1_unsynced_b2_synced
       [sample_item "b1" 7 "finished"; sample_item "b3" 9 "want"])
    [sample_item "b1" 7 "finished"; sample_item "b3" 9 "want"]
  = mergeRemoteIntoLocal "now" b1_unsynced_b2_synced
      [sample_item "b1" 7 "finished"; sample_item "b3" 9 "want"].
Proof.
  apply (merge_twice "now" "later" b1_unsynced_b2_synced
           [sample_item "b1" 7 "finished"; sample_item "b3" 9 "want"]).
  - apply (bool_decide_unpack _). vm_compute. exact I.
  - apply (bool_decide_unpack _). vm_compute. exact I.
  - repeat constructor; [by exists finished|by exists want].
  - repeat constructor; left; reflexivity.
Defined.

(** ** The authors, from [addBook] to the backend and back *)

Lemma append_cons c s t : String c s +:+ t = String c (s +:+ t).
Proof. reflexivity. Qed.

Lemma append_nil_r s : s +:+ "" = s.
Proof. induction s as [|c s IH]; [done|]. by rewrite append_cons, IH. Qed.

Lemma append_assoc s t u : (s +:+ t) +:+ u = s +:+ t +:+ u.
Proof. induction s as [|c s IH]; [done|]. by rewrite !append_cons, IH. Qed.

Lemma contains_sep_tail c name : ¬ Backend.contains_sep (String c name) → ¬ Backend.contains_sep name.
Proof.
  intros H (pre & post & ->). apply H. exists (String c pre), post. done.
Qed.

Lemma prefix_sep_false c rest :
  (c = ","%char → ∀ rest', rest ≠ String " " rest') →
  String.prefix ", " (String c rest) = false.
Proof.
  intros H. cbn [String.prefix]. destruct (ascii_dec "," c) as [<-|]; [|done].
  destruct rest as [|d rest']; [done|]. cbn [String.prefix].
  destruct (ascii_dec " " d) as [<-|]; [|done]. exfalso. by apply (H eq_refl rest').
Qed.

Lemma prefix_sep_true rest : String.prefix ", " (String "," (String " " rest)) = true.
Proof.
  cbn [String.prefix]. destruct (ascii_dec "," ","); [|done].
  destruct (ascii_dec " " " "); [|done]. by destruct rest.
Qed.

Lemma has_sep_false name : Backend.has_sep name = false → ¬ Backend.contains_sep name.
Proof.
  intros H (pre & post & ->). induction pre as [|c pre IH].
  - change ("" +:+ ", " +:+ post) with (String "," (String " " post)) in H.
    cbn [Backend.has_sep] in H. by rewrite prefix_sep_true in H.
  - rewrite append_cons in H. cbn [Backend.has_sep] in H.
    apply orb_false_iff in H as [_ H]. by apply IH.
Qed.

Lemma split_go_name name cur rest :
  ¬ Backend.contains_sep name →
  split_go ", " 0 cur (name +:+ ", " +:+ rest) = (cur +:+ name) :: split_go ", " 0 "" rest.
Proof.
  revert cur. induction name as [|c name IH]; intros cur Hfree.
  - rewrite append_nil_r.
    change ("" +:+ ", " +:+ rest) with (String "," (String " " rest)).
    cbn [split_go]. by rewrite prefix_sep_true.
  - rewrite append_cons. cbn [split_go]. rewrite prefix_sep_false.
    + rewrite IH by (by eapply contains_sep_tail).
      by rewrite append_assoc.
    + intros -> rest' Heq. destruct name as [|d name].
      * discriminate Heq.
      * rewrite append_cons in Heq. injection Heq as -> _.
        apply Hfree. by exists ""%string, name.
Qed.

Lemma split_go_last name cur :
  ¬ Backend.contains_sep name → split_go ", " 0 cur name = [cur +:+ name].
Proof.
  revert cur. induction name as [|c name IH]; intros cur Hfree.
  - by rewrite append_nil_r.
  - cbn [split_go]. rewrite prefix_sep_false.
    + rewrite IH by (by eapply contains_sep_tail). by rewrite append_assoc.
    + intros -> rest' ->. apply Hfree. by exists ""%string, rest'.
Qed.

Lemma split_concat name names :
  Forall (λ name, ¬ Backend.contains_sep name) (name :: names) →
  split ", " (String.concat ", " (name :: names)) = name :: names.
Proof.
  unfold split. revert name. induction names as [|name' names IH]; intros name Hfree.
  - apply Forall_cons in Hfree as [Hfree _].
    change (String.concat ", " [name]) with name.
    by rewrite (split_go_last name "" Hfree).
  - apply Forall_cons in Hfree as [Hfree Hrest].
    change (String.concat ", " (name :: name' :: names))
      with (name +:+ ", " +:+ String.concat ", " (name' :: names)).
    rewrite (split_go_name name "" _ Hfree). by rewrite IH.
Qed.

Lemma concat_empty names : String.concat ", " names = ""%string → names = [] ∨ names = [""%string].
Proof.
  destruct names as [|name [|name' names]]; [by left| |].
  - simpl. intros ->. by right.
  - change (String.concat ", " (name :: name' :: names))
      with (name +:+ ", " +:+ String.concat ", " (name' :: names)).
    destruct name; discriminate.
Qed.

(** The authors of a book survive the way through the backend.  [addBook]
    sends them joined by a comma and a space, [syncWithBackend] splits what
    the snapshot gives back: when no name holds that separator and the
    authors are not the one empty name, the merged record has the authors
    of the book (none when the book had no list), with the book's id, title
    and shelf. *)
Theorem authors_round_trip (user : User) (book : Book) (shelf now : string)
    (existing : option Book) (item : Item) (p : Backend.Payload) :
  Backend.payload (Some user) book shelf = Some p →
  Backend.echoes item p →
  Forall (λ name, ¬ Backend.contains_sep name) (default [] (authors (b_volumeInfo book))) →
  authors (b_volumeInfo book) ≠ Some [""%string] →
  b_id (remoteBook now existing item) = b_id book
  ∧ title (b_volumeInfo (remoteBook now existing item)) = title (b_volumeInfo book)
  ∧ authors (b_volumeInfo (remoteBook now existing item))
    = Some (default [] (authors (b_volumeInfo book)))
  ∧ shelf_type item = shelf.
Proof.
  intros [= <-] (Hid & Htitle & Hauthors & _ & Hshelf) Hfree Hnot. simpl in *.
  split; [done|]. split; [done|]. split; [|done].
  rewrite Hauthors. simpl. f_equal.
  destruct (authors (b_volumeInfo book)) as [names|]; simpl in *.
  - case_bool_decide as Hempty; simpl.
    + apply concat_empty in Hempty as [->| ->]; [done|]. by destruct Hnot.
    + destruct names as [|name names]; [done|]. by apply split_concat.
  - done.
Qed.

Lemma authors_round_trip_witness :
  authors (b_volumeInfo (remoteBook "now" None
             {| item_id := 7; google_books_id := "b1"; item_title := Some "Dune"%string;
                item_authors := Some "Frank Herbert"%string; item_thumbnail := Some ""%string;
                shelf_type := "want"; created_at := None |}))
  = Some (default [] (authors (b_volumeInfo (sample_book "b1" None None)))).
Proof.
  refine (proj1 (proj2 (proj2 (authors_round_trip {| user_id := 1 |}
            (sample_book "b1" None None) "want" "now" None
            {| item_id := 7; google_books_id := "b1"; item_title := Some "Dune"%string;
               item_authors := Some "Frank Herbert"%string; item_thumbnail := Some ""%string;
               shelf_type := "want"; created_at := None |}
            _ eq_refl _ _ _)))).
  - repeat split.
  - simpl. constructor; [|constructor]. apply has_sep_false. reflexivity.
  - discriminate.
Defined.

(** ** The check of the address in [handleAuth] *)

Lemma plus_class member fuel input k :
  (length input < fuel)%nat →
  Auth.matcher (Auth.Plus (Auth.Class member)) fuel input k = true ↔
  ∃ a rest, input = a ++ rest ∧ a ≠ [] ∧ Forall (λ x, member x = true) a ∧ k rest = true.
Proof.
  revert input. induction fuel as [|fuel IH]; intros input Hlen; [lia|].
  change (Auth.matcher (Auth.Plus (Auth.Class member)) (S fuel) input k)
    with (match input with
          | c :: rest =>
              member c && (Auth.matcher (Auth.Plus (Auth.Class member)) fuel rest k || k rest)
          | [] => false
          end).
  destruct input as [|c input].
  { split; [done|]. intros (a & rest & Heq & Ha & _). by destruct a. }
  simpl in Hlen. rewrite andb_true_iff, orb_true_iff, IH by lia. split.
  - intros [Hc [(a & rest & -> & Ha & Hall & Hk)|Hk]].
    + exists (c :: a), rest. split; [done|]. split; [done|]. split; [|done].
      by constructor.
    + exists [c], input. split; [done|]. split; [done|]. split; [|done].
      by repeat constructor.
  - intros (a & rest & Heq & Ha & Hall & Hk).
    destruct a as [|c' a]; [done|]. injection Heq as <- ->.
    apply Forall_cons in Hall as [Hc Hall]. split; [done|].
    destruct a as [|c'' a]; [by right|]. left.
    exists (c'' :: a), rest. done.
Qed.

Lemma class_unit (x : Z) fuel input k :
  Auth.matcher (Auth.Class (λ c, c =? x)) fuel input k = true ↔
  ∃ rest, input = x :: rest ∧ k rest = true.
Proof.
  simpl. destruct input as [|c rest].
  - split; [done|]. by intros (? & ? & _).
  - rewrite andb_true_iff, Z.eqb_eq. split.
    + intros [-> Hk]. by exists rest.
    + intros (? & [= -> ->] & Hk). done.
Qed.

Lemma matcher_seq r1 r2 fuel input k :
  Auth.matcher (Auth.Seq r1 r2) fuel input k
  = Auth.matcher r1 fuel input (λ rest, Auth.matcher r2 fuel rest k).
Proof. reflexivity. Qed.

Lemma test_emailRegex input : Auth.test Auth.emailRegex input = true ↔ Auth.well_formed input.
Proof.
  unfold Auth.test, Auth.emailRegex, Auth.well_formed.
  rewrite matcher_seq, plus_class by lia. split.
  - intros (a & r1 & -> & Ha & Halla & H1).
    rewrite matcher_seq in H1. apply class_unit in H1 as (r2 & -> & H2).
    rewrite matcher_seq in H2.
    apply plus_class in H2 as (b & r3 & -> & Hb & Hallb & H3);
      [|rewrite length_app; simpl; lia].
    rewrite matcher_seq in H3. apply class_unit in H3 as (r4 & -> & H4).
    apply plus_class in H4 as (c & r5 & -> & Hc & Hallc & H5);
      [|rewrite !length_app; simpl; rewrite length_app; simpl; lia].
    destruct r5; [|done]. rewrite app_nil_r.
    by exists a, b, c.
  - intros (a & b & c & -> & Ha & Hb & Hc & Halla & Hallb & Hallc).
    exists a, (Auth.at_sign :: b ++ Auth.dot :: c).
    split; [done|]. split; [done|]. split; [done|].
    rewrite matcher_seq. apply class_unit. exists (b ++ Auth.dot :: c). split; [done|].
    rewrite matcher_seq.
    apply plus_class; [rewrite !length_app; simpl; rewrite length_app; simpl; lia|].
    exists b, (Auth.dot :: c). split; [done|]. split; [done|]. split; [done|].
    rewrite matcher_seq. apply class_unit. exists c. split; [done|].
    apply plus_class; [rewrite !length_app; simpl; rewrite length_app; simpl; lia|].
    exists c, []. by rewrite app_nil_r.
Qed.

Lemma split_go_first sep cur a rest :
  Forall (λ x, x ≠ sep) a →
  Auth.split_go sep cur (a ++ sep :: rest) = (cur ++ a) :: Auth.split_go sep [] rest.
Proof.
  revert cur. induction a as [|x a IH]; intros cur Hall; simpl.
  - by rewrite Z.eqb_refl, app_nil_r.
  - apply Forall_cons in Hall as [Hx Hall].
    rewrite (proj2 (Z.eqb_neq x sep) Hx), IH by done. by rewrite <- app_assoc.
Qed.

Lemma plain_not_at x : Auth.plain x = true → x ≠ Auth.at_sign.
Proof.
  unfold Auth.plain. rewrite negb_true_iff, orb_false_iff. intros [_ H].
  by apply Z.eqb_neq.
Qed.

(** [handleAuth] posts a request exactly for the addresses of the form
    local part, [@], domain with a [.] inside (three non-empty runs of code
    units that are neither white space nor [@]); for every other address it
    returns before the request.  A login posts the address as the user
    name; a registration on a page without a [username] element posts the
    local part of the address, which is never empty. *)
Theorem handleAuth_checks_address (mode : option string) (email password : list Z)
    (usernameInput : option (list Z)) :
  (is_Some (Auth.handleAuth mode email password usernameInput) ↔ Auth.well_formed email)
  ∧ (∀ request, Auth.handleAuth mode email password usernameInput = Some request →
       Auth.password request = password
       ∧ (Auth.endpoint request = "/api/v1/login"%string → Auth.username request = email)
       ∧ (Auth.endpoint request = "/api/v1/register"%string → usernameInput = None →
          ∃ rest, email = Auth.username request ++ Auth.at_sign :: rest
                  ∧ Auth.username request ≠ []
                  ∧ Forall (λ x, Auth.plain x = true) (Auth.username request))).
Proof.
  unfold Auth.handleAuth.
  destruct (Auth.test Auth.emailRegex email) eqn:Htest; simpl.
  - apply test_emailRegex in Htest as Hwf. split.
    + split; [done|]. intros _. case_bool_decide; by eexists.
    + intros request. case_bool_decide as Hmode; intros [= <-]; simpl.
      * split; [done|]. split; [done|]. intros _ ->.
        destruct Hwf as (a & b & c & -> & Ha & _ & _ & Halla & _).
        unfold Auth.split. rewrite split_go_first; simpl.
        -- by exists (b ++ Auth.dot :: c).
        -- eapply Forall_impl; [exact Halla|]. intros x. apply plain_not_at.
      * split; [done|]. split; [done|]. done.
  - split; [|done]. split; [by intros [? [=]]|].
    intros Hwf%test_emailRegex. congruence.
Qed.

Lemma handleAuth_checks_address_witness :
  is_Some (Auth.handleAuth (Some "register"%string) (literal "a@b.c") (literal "pw") None).
Proof.
  apply (handleAuth_checks_address (Some "register"%string) (literal "a@b.c") (literal "pw") None).
  exists (literal "a"), (literal "b"), (literal "c").
  repeat split; try discriminate; by repeat constructor.
Defined.

(** Addresses the check refuses, and one it lets through. *)
Example handleAuth_refuses :
  Auth.handleAuth None (literal "reader@example") (literal "pw") None = None
  ∧ Auth.handleAuth None (literal "a reader@example.org") (literal "pw") None = None
  ∧ Auth.handleAuth None (literal "reader@@example.org") (literal "pw") None = None.
Proof. by vm_compute. Qed.

Example handleAuth_registers :
  Auth.handleAuth (Some "register"%string) (literal "reader@example.org") (literal "pw") None
  = Some {| Auth.endpoint := "/api/v1/register";
            Auth.username := literal "reader";
            Auth.email := Some (literal "reader@example.org");
            Auth.password := literal "pw" |}.
Proof. by vm_compute. Qed.

(** ** An add the backend has acknowledged *)

Lemma itemsToSync_same lib lib' :
  (∀ s, filter (λ book, truthy_num (b_db_id book) = false) (get lib' s)
        = filter (λ book, truthy_num (b_db_id book) = false) (get lib s)) →
  itemsToSync lib' = itemsToSync lib.
Proof.
  intros H. unfold itemsToSync, shelves.
  cbn [mbind list_bind]. by rewrite (H current), (H want), (H finished).
Qed.

(** A book added while a user is signed in, once the backend has answered
    with a [db_id] other than 0, is not uploaded again: when the book's id
    was on no shelf and the shelf is one of the three, after [addBook] and
    the write-back of the [db_id] the shelf ends with the new record
    carrying the [db_id], the list [itemsToSync] of the push is the one
    there was before the add, and the storage holds the collection. *)
Theorem acknowledged_add_needs_no_upload (book : Book) (shelf now : string) (w : World)
    (s : Shelf) (db_id : Z) :
  findBook (library w) (b_id book) = false →
  shelf_of_string shelf = Some s →
  db_id ≠ 0 →
  get (library (addBook_saved (Some (s, length (get (library w) s))) db_id
                  (snd (addBook book shelf now w)))) s
  = get (library w) s ++ [with_db_id db_id (enrichedBook book shelf now)]
  ∧ itemsToSync (library (addBook_saved (Some (s, length (get (library w) s))) db_id
                            (snd (addBook book shelf now w))))
    = itemsToSync (library w)
  ∧ storage (addBook_saved (Some (s, length (get (library w) s))) db_id
               (snd (addBook book shelf now w)))
    = Some (library (addBook_saved (Some (s, length (get (library w) s))) db_id
                       (snd (addBook book shelf now w)))).
Proof.
  intros Hfb Hs Hdb. rewrite (addBook_new _ _ _ _ _ Hfb Hs).
  unfold addBook_saved, saveLocally. cbn [snd world_of library storage].
  assert (alter (with_db_id db_id) (length (get (library w) s))
            (get (push (library w) s (enrichedBook book shelf now)) s)
          = get (library w) s ++ [with_db_id db_id (enrichedBook book shelf now)]) as Halter.
  { rewrite get_push.
    rewrite <- (Nat.add_0_r (length (get (library w) s))) at 1.
    by rewrite alter_app_r. }
  rewrite Halter, get_set. split; [done|]. split; [|done].
  apply itemsToSync_same. intros s'. destruct (decide (s' = s)) as [->|Hne].
  - rewrite get_set, filter_app, filter_cons_False, filter_nil, app_nil_r; [done|].
    simpl. intros Hfalsy. apply negb_false_iff, Z.eqb_eq in Hfalsy. done.
  - by rewrite get_set_ne, get_push_ne.
Qed.

Lemma acknowledged_add_needs_no_upload_witness :
  itemsToSync (library (addBook_saved (Some (current, length (get (library (world_of b1_want_b2_current)) current))) 12
                          (snd (addBook (sample_book "b3" None None) "current" "now"
                                  (world_of b1_want_b2_current)))))
  = itemsToSync (library (world_of b1_want_b2_current)).
Proof.
  apply (acknowledged_add_needs_no_upload (sample_book "b3" None None) "current" "now"
           (world_of b1_want_b2_current) current 12); [reflexivity|reflexivity|lia].
Defined.
